(** * Dataset construction and evaluation metrics of the two browser demos

    A shallow embedding of the data pipeline of the stock demo
    (Week4/app.js, class DataLoader; Week4 gru.js, class GRUModel) and of
    the digit demo (week3/data-loader.js, class MNISTDataLoader;
    week3/app.js, class MNISTApp), with the properties the specification
    states about them and further properties of the same functions.

    Conventions of the embedding.
    - A JavaScript number is an IEEE 754 binary64 value, which is what
      Rocq's primitive [float] is: arithmetic and comparisons are the
      machine's, rounding included.  The functions of DataLoader that only
      subtract, divide and compare are written over the interface
      [NumberOps] of the operations they use, and read at [float], which
      the browser runs; the properties of the numbers are proved from the
      specification of the primitive operations ([SpecFloat]).
    - An object used as a dictionary is a [gmap] with string keys; an
      array is a list; a string is a [string] of ASCII characters.
    - A thrown TypeError and a rejected promise are explicit results.
    - Tensors of the training library are the nested arrays they are
      built from; the library itself is not part of the embedding.
    - The definitions come first, the properties after them. *)

From Stdlib Require Import ZArith Floats Lia Ascii String Sorting.Sorted.
From stdpp Require Import gmap strings list.

(** ** Arrays *)

(** Relative index of [Array.prototype.slice]: a negative argument counts
    from the end, and the result is clamped to [0, len]. *)
Definition relative_index (len : nat) (k : Z) : nat :=
  if (k <? 0)%Z then Z.to_nat (Z.max (Z.of_nat len + k) 0)
  else Nat.min (Z.to_nat k) len.

(** [l.slice(start, end_)] *)
Definition Array_slice {A} (start end_ : Z) (l : list A) : list A :=
  let from := relative_index (length l) start in
  let to := relative_index (length l) end_ in
  take (to - from) (drop from l).

(** [l.indexOf(x)]: the first position of [x], or -1. *)
Fixpoint indexOf `{EqDecision A} (x : A) (l : list A) : Z :=
  match l with
  | [] => (-1)%Z
  | y :: l' =>
      if decide (y = x) then 0%Z
      else let r := indexOf x l' in
           if (r <? 0)%Z then (-1)%Z else (r + 1)%Z
  end.

(** [l[k]] for an integer [k]: [None] is [undefined]. *)
Definition Array_get {A} (l : list A) (k : Z) : option A :=
  if (k <? 0)%Z then None else l !! Z.to_nat k.

(** [l.find(p)]: the first element that satisfies [p]. *)
Fixpoint Array_find {A} (p : A → bool) (l : list A) : option A :=
  match l with
  | [] => None
  | x :: l' => if p x then Some x else Array_find p l'
  end.

(** [[...new Set(l)]]: the distinct elements of [l], each at the place of
    its first occurrence. *)
Definition Set_add `{EqDecision A} (seen : list A) (x : A) : list A :=
  if decide (x ∈ seen) then seen else seen ++ [x].

Definition Set_spread `{EqDecision A} (l : list A) : list A :=
  foldl Set_add [] l.

(** [l.sort()] on strings: the default comparator orders strings by their
    code units.  On distinct keys of a total order every sorting algorithm
    returns the same array; insertion sort stands for the engine's. *)
Fixpoint sort_insert (x : string) (l : list string) : list string :=
  match l with
  | [] => [x]
  | y :: l' => if String.leb x y then x :: y :: l' else y :: sort_insert x l'
  end.

Definition Array_sort (l : list string) : list string :=
  foldr sort_insert [] l.

(** ** Strings *)

(** [s.split(sep)] for a one-character separator. *)
Fixpoint String_split (sep : ascii) (s : string) : list string :=
  match s with
  | EmptyString => [EmptyString]
  | String c s' =>
      if Ascii.eqb c sep then EmptyString :: String_split sep s'
      else match String_split sep s' with
           | [] => [String c EmptyString]
           | w :: ws => String c w :: ws
           end
  end.

(** White space and line terminators among the ASCII characters. *)
Definition is_white_space (c : ascii) : bool :=
  let n := nat_of_ascii c in
  (n =? 9)%nat || (n =? 10)%nat || (n =? 11)%nat || (n =? 12)%nat
  || (n =? 13)%nat || (n =? 32)%nat.

(** [s.trim() !== ''] *)
Fixpoint trim_nonempty (s : string) : bool :=
  match s with
  | EmptyString => false
  | String c s' => if is_white_space c then trim_nonempty s' else true
  end.

(** [s.trimStart()], [s.trimEnd()] and [s.trim()] *)
Fixpoint trim_start (s : string) : string :=
  match s with
  | EmptyString => EmptyString
  | String c s' => if is_white_space c then trim_start s' else String c s'
  end.

Fixpoint trim_end (s : string) : string :=
  match s with
  | EmptyString => EmptyString
  | String c s' =>
      match trim_end s' with
      | EmptyString => if is_white_space c then EmptyString else String c EmptyString
      | String c' t => String c (String c' t)
      end
  end.

Definition String_trim (s : string) : string := trim_end (trim_start s).

(** ** Numbers *)

(** The operations of a JavaScript number that DataLoader uses. *)
Class NumberOps (N : Type) := {
  num_0 : N;
  num_sub : N → N → N;
  num_div : N → N → N;
  (** [num_gt a b] is [a > b] *)
  num_gt : N → N → bool;
  (** [Math.min(...l)] and [Math.max(...l)] *)
  Math_min : list N → N;
  Math_max : list N → N;
}.

(** *** binary64 *)

Definition is_neg_zero (x : float) : bool :=
  PrimFloat.is_zero x && PrimFloat.get_sign x.

Definition is_pos_zero (x : float) : bool :=
  PrimFloat.is_zero x && negb (PrimFloat.get_sign x).

(** One step of Math.min: NaN absorbs, -0 is below +0. *)
Definition float_min_step (lowest number : float) : float :=
  if PrimFloat.is_nan lowest || PrimFloat.is_nan number then PrimFloat.nan
  else if is_neg_zero number && is_pos_zero lowest then number
  else if PrimFloat.ltb number lowest then number else lowest.

Definition float_max_step (highest number : float) : float :=
  if PrimFloat.is_nan highest || PrimFloat.is_nan number then PrimFloat.nan
  else if is_pos_zero number && is_neg_zero highest then number
  else if PrimFloat.ltb highest number then number else highest.

#[export] Instance binary64 : NumberOps float := {|
  num_0 := 0%float;
  num_sub := PrimFloat.sub;
  num_div := PrimFloat.div;
  num_gt := λ a b, PrimFloat.ltb b a;
  Math_min := foldl float_min_step PrimFloat.infinity;
  Math_max := foldl float_max_step PrimFloat.neg_infinity;
|}.

(** [n] as a number, for a count [n] (an array has fewer than 2^32
    elements, and the integers below 2^53 are binary64 values). *)
Definition nat_number (n : nat) : float :=
  PrimFloat.of_uint63 (Uint63.of_Z (Z.of_nat n)).

(** ** Week4/app.js: class DataLoader *)

(** A row of the time-series file: an object whose keys are header names
    and whose values are cells, [None] for [undefined]. *)
Abbreviation csv_row := (gmap string (option string)).

(** [headers.forEach((header, index) => { row[header] = values[index]; })]
    on the empty object.  A header [__proto__] names the accessor of
    [Object.prototype], whose setter ignores a string and [undefined], so
    the assignment adds no key. *)
Definition row_of_values (headers values : list string) : csv_row :=
  foldl (λ (row : csv_row) '(index, header),
           if decide (header = "__proto__") then row
           else <[header := values !! index]> row)
        ∅ (zip (seq 0 (length headers)) headers).

(** [parseCSV(file)] on the text [csv] of the file.  Without a line that
    is not blank [lines[0]] is [undefined] and [lines[0].split] throws a
    TypeError, with which the promise is rejected: [None]. *)
Definition parseCSV (csv : string) : option (list csv_row) :=
  let lines := filter (λ line, String_trim line ≠ EmptyString)
                      (String_split "010"%char csv) in
  match lines with
  | [] => None
  | line0 :: rest =>
      let headers := map String_trim (String_split ","%char line0) in
      Some (map (λ line, row_of_values headers
                           (map String_trim (String_split ","%char line)))
                rest)
  end.

(** A row as [parseCSV] builds it from a line of the time-series file:
    the cells under the header names Date, Symbol, Open and Close, for a
    line that has a cell under each of them. *)
Record row : Type := Row {
  row_Date : string;
  row_Symbol : string;
  row_Open : string;
  row_Close : string;
}.

(** The object [{Open, Close}] stored for a symbol at a date. *)
Record OpenClose (N : Type) : Type := mkOpenClose {
  Open : N;
  Close : N;
}.
Arguments mkOpenClose {N} _ _.
Arguments Open {N} _.
Arguments Close {N} _.

(** [{min, max}] *)
Record MinMax (N : Type) : Type := mkMinMax {
  mm_min : N;
  mm_max : N;
}.
Arguments mkMinMax {N} _ _.
Arguments mm_min {N} _.
Arguments mm_max {N} _.

(** [pivoted[symbol][date]] *)
Abbreviation series N := (gmap string (OpenClose N)).
Abbreviation aligned N := (gmap string (gmap string (OpenClose N))).

Record pivotResult (N : Type) : Type := mkPivot {
  pivoted : aligned N;
  symbols : list string;
  dates : list string;
}.
Arguments mkPivot {N} _ _ _.
Arguments pivoted {N} _.
Arguments symbols {N} _.
Arguments dates {N} _.

Record normalizeResult (N : Type) : Type := mkNormalize {
  normalized : aligned N;
  minMax : gmap string (OpenClose (MinMax N));
}.
Arguments mkNormalize {N} _ _.
Arguments normalized {N} _.
Arguments minMax {N} _.

Record samplesResult (N : Type) : Type := mkSamples {
  samples : list (list (list N));
  targets : list (list nat);
}.
Arguments mkSamples {N} _ _.
Arguments samples {N} _.
Arguments targets {N} _.

Section DataLoader.
Context {N : Type} `{NumberOps N}.

(** [parseFloat] of a cell; the pivot only stores its results. *)
Variable parseFloat : string → N.

(** [data.find(r => r.Date === date && r.Symbol === symbol)] *)
Definition find_row (data : list row) (date symbol : string) : option row :=
  Array_find (λ r, bool_decide (row_Date r = date)
                   && bool_decide (row_Symbol r = symbol)) data.

(** [{Open: parseFloat(row.Open), Close: parseFloat(row.Close)}] *)
Definition parse_row (r : row) : OpenClose N :=
  mkOpenClose (parseFloat (row_Open r)) (parseFloat (row_Close r)).

(** The inner loop of [pivotData]: [dates.forEach(date => ...)] on the
    object of one symbol. *)
Definition pivot_symbol (data : list row) (dates : list string)
    (symbol : string) : series N :=
  foldl (λ (acc : series N) date,
           match find_row data date symbol with
           | Some r => <[date := parse_row r]> acc
           | None => acc
           end)
        ∅ dates.

(** [pivotData(data)] *)
Definition pivotData (data : list row) : pivotResult N :=
  let symbols := Set_spread (map row_Symbol data) in
  let dates := Array_sort (Set_spread (map row_Date data)) in
  let pivoted :=
    foldl (λ (acc : aligned N) symbol,
             <[symbol := pivot_symbol data dates symbol]> acc)
          ∅ symbols in
  mkPivot pivoted symbols dates.

(** [Object.values(o)]; [Math.min] and [Math.max] do not depend on the
    order of their arguments. *)
Definition Object_values (o : series N) : list (OpenClose N) :=
  (map_to_list o).*2.

(** The statistics [minMax[symbol]] of one symbol. *)
Definition minMax_symbol (o : series N) : OpenClose (MinMax N) :=
  let values := Object_values o in
  let opens := map Open values in
  let closes := map Close values in
  mkOpenClose (mkMinMax (Math_min opens) (Math_max opens))
              (mkMinMax (Math_min closes) (Math_max closes)).

(** The entry [normalized[symbol][date]] computed from [original]. *)
Definition normalize_entry (mm : OpenClose (MinMax N))
    (original : OpenClose N) : OpenClose N :=
  mkOpenClose
    (num_div (num_sub (Open original) (mm_min (Open mm)))
             (num_sub (mm_max (Open mm)) (mm_min (Open mm))))
    (num_div (num_sub (Close original) (mm_min (Close mm)))
             (num_sub (mm_max (Close mm)) (mm_min (Close mm)))).

(** [normalizeData(pivotedData)]: every symbol gets its statistics and
    every date of the symbol its scaled entry. *)
Definition normalizeData (pivotedData : aligned N) : normalizeResult N :=
  mkNormalize
    ((λ o : series N, normalize_entry (minMax_symbol o) <$> o) <$> pivotedData)
    (minMax_symbol <$> pivotedData).

(** [normalizedData[symbol] && normalizedData[symbol][date]] *)
Definition entry (normalizedData : aligned N) (symbol date : string)
    : option (OpenClose N) :=
  normalizedData !! symbol ≫= λ o, o !! date.

(** The vector [features] of one date. *)
Definition features (normalizedData : aligned N) (symbols : list string)
    (date : string) : list N :=
  flat_map (λ symbol,
              match entry normalizedData symbol date with
              | Some e => [Open e; Close e]
              | None => [num_0; num_0]
              end) symbols.

(** The object [currentClosePrices] of an anchor date. *)
Definition currentClosePrices (normalizedData : aligned N)
    (symbols : list string) (currentDate : string) : gmap string N :=
  foldl (λ (acc : gmap string N) symbol,
           match entry normalizedData symbol currentDate with
           | Some e => <[symbol := Close e]> acc
           | None => <[symbol := num_0]> acc
           end)
        ∅ symbols.

(** [futureClose > currentClosePrices[symbol] ? 1 : 0] *)
Definition label (futureClose : N) (current : option N) : nat :=
  match current with
  | Some c => if num_gt futureClose c then 1 else 0
  | None => 0
  end.

(** The labels that one [offset] appends to [target].  The offsets start
    at 1 and [indexOf] is at least -1, so [futureDateIndex] is at least 0
    and the read [dates[futureDateIndex]] below [dates.length] is defined. *)
Definition target_offset (normalizedData : aligned N)
    (symbols dates : list string) (currentDate : string)
    (current : gmap string N) (offset : nat) : list nat :=
  let futureDateIndex := (indexOf currentDate dates + Z.of_nat offset)%Z in
  if (futureDateIndex <? Z.of_nat (length dates))%Z then
    match Array_get dates futureDateIndex with
    | Some futureDate =>
        map (λ symbol,
               match entry normalizedData symbol futureDate with
               | Some e => label (Close e) (current !! symbol)
               | None => 0
               end) symbols
    | None => map (λ _, 0) symbols
    end
  else map (λ _, 0) symbols.

(** The vector [target] of an anchor date. *)
Definition target (normalizedData : aligned N) (symbols dates : list string)
    (currentDate : string) (predictionDays : nat) : list nat :=
  let current := currentClosePrices normalizedData symbols currentDate in
  flat_map (target_offset normalizedData symbols dates currentDate current)
           (seq 1 predictionDays).

(** The matrix [input] of the window that ends before position [i]. *)
Definition input (normalizedData : aligned N) (symbols featureDates : list string)
    (sequenceLength i : nat) : list (list N) :=
  map (λ j, features normalizedData symbols (featureDates !!! j))
      (seq (i - sequenceLength) sequenceLength).

(** [prepareSamples(normalizedData, symbols, dates, sequenceLength,
    predictionDays)].  The loop runs [i] from [sequenceLength] while
    [i < featureDates.length], so every read [featureDates[i]] and
    [featureDates[j]] is inside the array. *)
Definition prepareSamples (normalizedData : aligned N)
    (symbols dates : list string) (sequenceLength predictionDays : nat)
    : samplesResult N :=
  let featureDates :=
    Array_slice 0 (Z.of_nat (length dates) - Z.of_nat predictionDays) dates in
  let anchors := seq sequenceLength (length featureDates - sequenceLength) in
  mkSamples
    (map (input normalizedData symbols featureDates sequenceLength) anchors)
    (map (λ i, target normalizedData symbols dates (featureDates !!! i)
                      predictionDays) anchors).
End DataLoader.

(** [Math.floor(x)], as an integer where it is one: the value of a finite
    binary64 number of sign [s], mantissa [m] and exponent [e] is
    [(-1)^s * m * 2^e]. *)
Inductive floored : Type :=
  | FInt (z : Z)
  | FPosInf
  | FNegInf
  | FNaN.

Definition SFfloor (x : spec_float) : floored :=
  match x with
  | S754_zero _ => FInt 0
  | S754_infinity s => if s then FNegInf else FPosInf
  | S754_nan => FNaN
  | S754_finite s m e =>
      FInt (((if s then Z.neg m else Z.pos m) * 2 ^ Z.max e 0)
            `div` 2 ^ Z.max (- e) 0)%Z
  end.

Definition Math_floor (x : float) : floored := SFfloor (Prim2SF x).

(** The position that [slice] makes of an argument [k] of an array of
    length [len]: NaN is 0, the infinities are clamped. *)
Definition slice_position (len : nat) (k : floored) : nat :=
  match k with
  | FInt z => relative_index len z
  | FPosInf => len
  | FNegInf | FNaN => 0
  end.

(** [l.slice(0, k)] and [l.slice(k)] *)
Definition slice_to {A} (k : floored) (l : list A) : list A :=
  take (slice_position (length l) k - 0) (drop 0 l).

Definition slice_from {A} (k : floored) (l : list A) : list A :=
  let from := slice_position (length l) k in
  take (length l - from) (drop from l).

(** [l.length] as a number (an array has fewer than 2^32 elements, and the
    integers below 2^53 are binary64 values). *)
Definition length_number {A} (l : list A) : float :=
  PrimFloat.of_uint63 (Uint63.of_Z (Z.of_nat (length l))).

(** The arrays that [splitData] hands to [tf.tensor3d] and [tf.tensor2d]. *)
Record splitResult (A B : Type) : Type := mkSplit {
  X_train : list A;
  y_train : list B;
  X_test : list A;
  y_test : list B;
}.
Arguments mkSplit {A B} _ _ _ _.
Arguments X_train {A B} _.
Arguments y_train {A B} _.
Arguments X_test {A B} _.
Arguments y_test {A B} _.

Definition splitIndex {A} (samples : list A) (splitRatio : float) : floored :=
  Math_floor (PrimFloat.mul (length_number samples) splitRatio).

(** [splitData(samples, targets, splitRatio)] *)
Definition splitData {A B} (samples : list A) (targets : list B)
    (splitRatio : float) : splitResult A B :=
  let k := splitIndex samples splitRatio in
  mkSplit (slice_to k samples) (slice_to k targets)
          (slice_from k samples) (slice_from k targets).

(** ** Week4 gru.js: class GRUModel *)

(** [predData[sample][outputIndex] > 0.5 ? 1 : 0]; a missing cell is
    [undefined], which is not above 0.5. *)
Definition predVal (predRow : list float) (outputIndex : nat) : float :=
  match predRow !! outputIndex with
  | Some p => if PrimFloat.ltb 0.5 p then 1%float else 0%float
  | None => 0%float
  end.

(** [trueVal === predVal] *)
Definition strict_equal (trueVal : option float) (p : float) : bool :=
  match trueVal with
  | Some t => PrimFloat.eqb t p
  | None => false
  end.

(** The body of the loop over [day], on the counters [(correct, total)]. *)
Definition count_day (trueRow predRow : list float)
    (nsymbols symbolIndex : nat) (c : float * float) (day : nat)
    : float * float :=
  let outputIndex := day * nsymbols + symbolIndex in
  let correct :=
    if strict_equal (trueRow !! outputIndex) (predVal predRow outputIndex)
    then PrimFloat.add (fst c) 1 else fst c in
  (correct, PrimFloat.add (snd c) 1).

(** The loop over [sample].  Reading [predData[sample][outputIndex]] when
    [predData] has no such row throws a TypeError, here [None]; with no
    horizon the inner loop does not run and the row is never read. *)
Fixpoint count_samples (trueData predData : list (list float))
    (nsymbols symbolIndex daysAhead : nat) (c : float * float)
    : option (float * float) :=
  match trueData with
  | [] => Some c
  | trueRow :: trueData' =>
      match daysAhead with
      | O => count_samples trueData' (tail predData)
                           nsymbols symbolIndex daysAhead c
      | _ =>
          match predData with
          | [] => None
          | predRow :: predData' =>
              count_samples trueData' predData' nsymbols symbolIndex daysAhead
                (foldl (count_day trueRow predRow nsymbols symbolIndex) c
                       (seq 0 daysAhead))
          end
      end
  end.

(** [calculatePerStockAccuracy(yTrue, yPred, symbols, daysAhead)] on the
    arrays of the two tensors. *)
Definition calculatePerStockAccuracy (trueData predData : list (list float))
    (symbols : list string) (daysAhead : nat) : option (gmap string float) :=
  foldl (λ (acc : option (gmap string float)) '(symbolIndex, symbol),
           stockAccuracies ← acc;
           c ← count_samples trueData predData (length symbols) symbolIndex
                             daysAhead (0%float, 0%float);
           Some (<[symbol := PrimFloat.div (fst c) (snd c)]> stockAccuracies))
        (Some ∅) (zip (seq 0 (length symbols)) symbols).

(** ** week3/data-loader.js: class MNISTDataLoader *)

(** What the promise of [loadCSVFile] settles to.  The resolved value
    carries the arrays [labels] and [pixels] from which the two tensors
    are built, and [count]. *)
Record digits : Type := mkDigits {
  labels : list float;
  pixels : list (list float);
  count : nat;
}.

Inductive settled : Type :=
  | Resolve (d : digits)
  | Reject (message : string).

Section MNISTDataLoader.
(** [Number(cell)] *)
Variable Number : string → float.

(** [content.split('\n').filter(line => line.trim() !== '')] *)
Definition lines (content : string) : list string :=
  filter (λ line, trim_nonempty line = true) (String_split "010"%char content).

(** The body of the loop over [lines]: [None] is [continue]. *)
Definition parse_line (line : string) : option (float * list float) :=
  let values := map Number (String_split ","%char line) in
  if decide (length values ≠ 785) then None
  else match values with
       | v0 :: rest => Some (v0, rest)
       | [] => None
       end.

(** [loadCSVFile(file)] on the text [content] of the file. *)
Definition loadCSVFile (content : string) : settled :=
  let records := omap parse_line (lines content) in
  let labels := records.*1 in
  let pixels := records.*2 in
  if decide (length labels = 0) then Reject "No valid data found in file"
  else Resolve (mkDigits labels pixels (length labels)).
End MNISTDataLoader.

(** [t.slice([begin, ...], [size, ...])] along the first axis of a tensor
    whose examples are [l].  The library checks its arguments; a slice that
    does not lie inside the tensor is [None]. *)
Definition tf_slice {A} (begin size : Z) (l : list A) : option (list A) :=
  if decide (0 ≤ begin ∧ 0 ≤ size ∧ begin + size ≤ Z.of_nat (length l))%Z
  then Some (take (Z.to_nat size) (drop (Z.to_nat begin) l))
  else None.

Record trainVal (A B : Type) : Type := mkTrainVal {
  trainXs : list A;
  trainYs : list B;
  valXs : list A;
  valYs : list B;
}.
Arguments mkTrainVal {A B} _ _ _ _.
Arguments trainXs {A B} _.
Arguments trainYs {A B} _.
Arguments valXs {A B} _.
Arguments valYs {A B} _.

(** [splitTrainVal(xs, ys, valRatio)]; [xs.shape[0]] is the number of
    examples of [xs]. *)
Definition splitTrainVal {A B} (xs : list A) (ys : list B) (valRatio : float)
    : option (trainVal A B) :=
  match Math_floor (PrimFloat.mul (length_number xs) valRatio) with
  | FInt numVal =>
      let numTrain := (Z.of_nat (length xs) - numVal)%Z in
      trainXs ← tf_slice 0 numTrain xs;
      trainYs ← tf_slice 0 numTrain ys;
      valXs ← tf_slice numTrain numVal xs;
      valYs ← tf_slice numTrain numVal ys;
      Some (mkTrainVal trainXs trainYs valXs valYs)
  | _ => None
  end.

(** ** week3/app.js: class MNISTApp *)

(** A cell of the matrix: a count, NaN, or a hole of an array that grew. *)
Inductive cell : Type :=
  | Count (n : nat)
  | CellNaN
  | Hole.

(** [x++] on a cell: a hole reads [undefined], whose successor is NaN. *)
Definition cell_incr (c : cell) : cell :=
  match c with
  | Count n => Count (S n)
  | CellNaN | Hole => CellNaN
  end.

(** [row[pred]++]: past the end the array grows up to [pred]. *)
Definition row_incr (pred : nat) (r : list cell) : list cell :=
  match r !! pred with
  | Some c => <[pred := cell_incr c]> r
  | None => r ++ replicate (pred - length r) Hole ++ [CellNaN]
  end.

(** [matrix[trueVal][pred]++]: without a row [trueVal] the read of
    [matrix[trueVal][pred]] throws a TypeError, here [None]. *)
Definition matrix_incr (trueVal pred : nat) (matrix : list (list cell))
    : option (list (list cell)) :=
  match matrix !! trueVal with
  | Some r => Some (<[trueVal := row_incr pred r]> matrix)
  | None => None
  end.

(** The loop over [predArray]; past the end of [trueArray] the label is
    [undefined] and [matrix[undefined]] is no row. *)
Fixpoint fill_matrix (predArray trueArray : list nat)
    (matrix : list (list cell)) : option (list (list cell)) :=
  match predArray with
  | [] => Some matrix
  | pred :: predArray' =>
      match trueArray with
      | [] => None
      | trueVal :: trueArray' =>
          matrix' ← matrix_incr trueVal pred matrix;
          fill_matrix predArray' trueArray' matrix'
      end
  end.

(** [createConfusionMatrix(predicted, trueLabels)] on the arrays of the two
    label tensors. *)
Definition createConfusionMatrix (predArray trueArray : list nat)
    : option (list (list cell)) :=
  fill_matrix predArray trueArray (replicate 10 (replicate 10 (Count 0))).

(** The number read from a cell of a matrix of counts below 2^53; a hole
    and a place past the end read [undefined], which is no number. *)
Definition cell_number (c : option cell) : float :=
  match c with
  | Some (Count n) => nat_number n
  | Some CellNaN | Some Hole | None => PrimFloat.nan
  end.

(** [row.reduce((sum, val) => sum + val, 0)]; [reduce] skips the holes. *)
Definition row_total (r : list cell) : float :=
  foldl (λ sum val, match val with
                    | Hole => sum
                    | _ => PrimFloat.add sum (cell_number (Some val))
                    end) 0%float r.

(** [calculatePerClassAccuracy(confusionMatrix)] *)
Definition calculatePerClassAccuracy (confusionMatrix : list (list cell))
    : list float :=
  imap (λ i row,
          let correct := cell_number (row !! i) in
          let total := row_total row in
          if PrimFloat.ltb 0 total then PrimFloat.div correct total
          else 0%float)
       confusionMatrix.

(** ** Vocabulary of the properties *)

Section Labels.
Context {N : Type} `{NumberOps N}.

(** The close that [currentClosePrices] holds for a symbol: 0 when the
    symbol has no record at the anchor date. *)
Definition anchor_close (normalizedData : aligned N)
    (symbol currentDate : string) : N :=
  match entry normalizedData symbol currentDate with
  | Some e => Close e
  | None => num_0
  end.

(** The label of the code for a symbol, an anchor date and a later date. *)
Definition window_label (normalizedData : aligned N)
    (symbol currentDate futureDate : string) : nat :=
  match entry normalizedData symbol futureDate with
  | Some e => if num_gt (Close e) (anchor_close normalizedData symbol currentDate)
              then 1 else 0
  | None => 0
  end.

(** The label as the specification words it: 1 when both closes are there
    and the later one is strictly greater, 0 otherwise. *)
Definition spec_label (normalizedData : aligned N)
    (symbol currentDate futureDate : string) : nat :=
  match entry normalizedData symbol currentDate,
        entry normalizedData symbol futureDate with
  | Some a, Some e => if num_gt (Close e) (Close a) then 1 else 0
  | _, _ => 0
  end.

(** The bit of [targets] for the anchor at position [i], the horizon [h]
    and the symbol at position [k]. *)
Definition target_bit (r : samplesResult N)
    (sequenceLength nsymbols i h k : nat) : option nat :=
  targets r !! (i - sequenceLength) ≫= λ t, t !! ((h - 1) * nsymbols + k).
End Labels.

(** The cell of [samples] for the anchor at position [i], the day [j] of
    its window and the column [c]. *)
Definition feature_cell {N} (r : samplesResult N)
    (sequenceLength i j c : nat) : option N :=
  samples r !! (i - sequenceLength) ≫= λ s, s !! j ≫= λ f, f !! c.

(** The statistics [mm] of a field [f] of the entries of [o] are attained
    and bound the field. *)
Definition attained_range (f : OpenClose float → float) (o : series float)
    (mm : MinMax float) : Prop :=
  (∃ date e, o !! date = Some e ∧ f e = mm_min mm)
  ∧ (∃ date e, o !! date = Some e ∧ f e = mm_max mm)
  ∧ (∀ date e, o !! date = Some e →
       PrimFloat.ltb (f e) (mm_min mm) = false
       ∧ PrimFloat.ltb (mm_max mm) (f e) = false).

(** The entries of an aligned series, each with its pair of keys. *)
Definition entries {N} (a : aligned N) : list ((string * string) * OpenClose N) :=
  flat_map (λ so : string * series N,
              map (λ de : string * OpenClose N, ((so.1, de.1), de.2))
                  (map_to_list so.2))
           (map_to_list a).

(** [s] lists [l] in first-seen order: the elements of [s] are those of
    [l], without repetition, and an element that comes earlier in [s]
    occurs first in [l] at an earlier position. *)
Definition first_seen_order `{EqDecision A} (s l : list A) : Prop :=
  NoDup s
  ∧ (∀ x, x ∈ s ↔ x ∈ l)
  ∧ (∀ i j a b, s !! i = Some a → s !! j = Some b → i < j →
       (0 ≤ indexOf a l < indexOf b l)%Z).

(** A number between 0 and 1. *)
Definition unit_number (q : float) : Prop :=
  PrimFloat.is_nan q = false
  ∧ PrimFloat.ltb q 0 = false ∧ PrimFloat.ltb 1 q = false.

(** ** binary64 numbers as integers *)

(** The integer nearest to [N / D], the even one of two that are as near. *)
Definition rne (N D : Z) : Z :=
  match (2 * (N `mod` D) ?= D)%Z with
  | Lt => (N `div` D)%Z
  | Gt => (N `div` D + 1)%Z
  | Eq => if Z.even (N `div` D) then (N `div` D)%Z else (N `div` D + 1)%Z
  end.

(** Where [N / D] lies between [N div D] and the next integer. *)
Definition loc_frac (N D : Z) : location :=
  if (N `mod` D =? 0)%Z then loc_Exact
  else loc_Inexact (2 * (N `mod` D) ?= D)%Z.

(** The end of [binary_round_aux]: the number of mantissa [m] and exponent
    [e] after rounding. *)
Definition SFfinal (m e : Z) : spec_float :=
  let '(mrs, e') := shr_fexp prec emax m e loc_Exact in
  match shr_m mrs with
  | Z0 => S754_zero false
  | Z.pos m' => if (e' <=? emax - prec)%Z then S754_finite false m' e'
                else S754_infinity false
  | Z.neg _ => S754_nan
  end.

(** The value of a binary64 number in units of 2^-1074, the infinities at
    2^1024. *)
Definition SFval (f : spec_float) : Z :=
  match f with
  | S754_zero _ => 0
  | S754_infinity s => cond_Zopp s (2 ^ 2098)
  | S754_nan => 0
  | S754_finite s m e => cond_Zopp s (Z.pos m * 2 ^ (e + 1074))
  end%Z.

(** A number that is 0 or above. *)
Definition SFnonneg (f : spec_float) : bool :=
  match f with
  | S754_zero _ => true
  | S754_infinity s | S754_finite s _ _ => negb s
  | S754_nan => false
  end.

(** A number that is finite. *)
Definition SFfinite (f : spec_float) : bool :=
  match f with
  | S754_zero _ | S754_finite _ _ _ => true
  | S754_infinity _ | S754_nan => false
  end.

(** The exponent of the format for the quotient [N / D] at exponent [e],
    and the number that the quotient is rounded to. *)
Definition round_exponent (N D e : Z) : Z :=
  fexp prec emax (Zdigits2 (N `div` D) + e).

Definition rounded (N D e : Z) : spec_float :=
  SFfinal (rne N (D * 2 ^ (round_exponent N D e - e))) (round_exponent N D e).

(** Counts in a confusion matrix. *)
Definition cell_count (c : cell) : nat :=
  match c with Count n => n | CellNaN | Hole => 0 end.

Definition is_count (c : cell) : bool :=
  match c with Count _ => true | CellNaN | Hole => false end.

Definition row_sum (r : list cell) : nat := sum_list (cell_count <$> r).

Definition matrix_sum (matrix : list (list cell)) : nat :=
  sum_list (row_sum <$> matrix).

(** The number of examples whose true class is [i]. *)
Definition class_count (i : nat) (trueArray : list nat) : nat :=
  length (filter (λ t, t = i) trueArray).

(** The number of examples of true class [i] that are predicted as [j]. *)
Definition pair_count (i j : nat) (predArray trueArray : list nat) : nat :=
  length (filter (λ tp : nat * nat, tp.1 = i ∧ tp.2 = j) (zip trueArray predArray)).

(** The cell at row [i] and column [j]. *)
Definition matrix_cell (matrix : list (list cell)) (i j : nat) : option cell :=
  matrix !! i ≫= λ r, r !! j.

(** A square matrix of counts with [n] classes. *)
Definition count_matrix (n : nat) (matrix : list (list cell)) : Prop :=
  length matrix = n
  ∧ Forall (λ r, length r = n ∧ forallb is_count r = true) matrix.

(** Tables and their text.  [s] has the character [x]. *)
Fixpoint has_char (x : ascii) (s : string) : bool :=
  match s with
  | EmptyString => false
  | String c s' => Ascii.eqb c x || has_char x s'
  end.

(** A cell that a table can hold: no comma, no line feed, no white space at
    its ends. *)
Definition plain_cell (c : string) : Prop :=
  String_trim c = c ∧ has_char ","%char c = false ∧ has_char "010"%char c = false.

(** The text of a table: the cells of a line joined by commas, the lines
    by line feeds ([table.map(cells => cells.join(',')).join('\n')]). *)
Definition csv_text (table : list (list string)) : string :=
  String.concat (String "010"%char EmptyString) (map (String.concat ",") table).

(** The cells of a line of the digit file. *)
Definition fields (line : string) : list string := String_split ","%char line.

(** The record that the loop stores for a line of 785 cells. *)
Definition record_of (Number : string → float) (line : string)
    : float * list float :=
  (Number (hd EmptyString (fields line)), map Number (tl (fields line))).

(** A row as the specification words it: exactly 1 + 784 cells, all of
    them numeric. *)
Definition well_formed_row (Number : string → float) (line : string) : bool :=
  bool_decide (length (fields line) = 785)
  && forallb (λ c, negb (PrimFloat.is_nan (Number c))) (fields line).

(** ** Data of the examples *)

(** A decimal reading of [Number]: the empty string is 0, a string of
    digits is its value (below 2^63, rounded to the nearest binary64), and
    a string with any other character is NaN here. *)
Fixpoint digits_value (s : string) (acc : Z) : option Z :=
  match s with
  | EmptyString => Some acc
  | String c s' =>
      let n := Z.of_nat (nat_of_ascii c) in
      if ((48 <=? n) && (n <=? 57))%Z
      then digits_value s' (10 * acc + (n - 48))%Z
      else None
  end.

Definition Number_digits (s : string) : float :=
  match digits_value s 0 with
  | Some z => PrimFloat.of_uint63 (Uint63.of_Z z)
  | None => PrimFloat.nan
  end.

(** A header line of the digit file: the name of the label column and of
    784 pixel columns. *)
Definition header_line : string :=
  String.concat "," ("label" :: repeat "pixel" 784).

(** 0.8, 0.1 and 0.9 as binary64 values. *)
Definition ratio_0_8 : float := 0x1.999999999999ap-1%float.
Definition ratio_0_1 : float := 0x1.999999999999ap-4%float.
Definition ratio_0_9 : float := 0x1.ccccccccccccdp-1%float.

(** Twenty trading days. *)
Definition dates20 : list string :=
  [ "2024-01-01"; "2024-01-02"; "2024-01-03"; "2024-01-04"; "2024-01-05";
    "2024-01-08"; "2024-01-09"; "2024-01-10"; "2024-01-11"; "2024-01-12";
    "2024-01-15"; "2024-01-16"; "2024-01-17"; "2024-01-18"; "2024-01-19";
    "2024-01-22"; "2024-01-23"; "2024-01-24"; "2024-01-25"; "2024-01-26" ].

(** A symbol quoted on the third of three days only. *)
Definition late_listing : aligned float :=
  {[ "AAPL" := {[ "2024-01-03" := mkOpenClose 0.5%float 0.5%float ]} ]}.

(** A symbol whose close does not move. *)
Definition constant_close : aligned float :=
  {[ "AAPL" := {[ "2024-01-02" := mkOpenClose 1%float 5%float;
                  "2024-01-03" := mkOpenClose 2%float 5%float ]} ]}.

(** Closes 0, 1.9999999999999998 (the binary64 value just below 2), 2
    and 3. *)
Definition close_neighbours : aligned float :=
  {[ "AAPL" := {[ "2024-01-01" := mkOpenClose 1%float 0%float;
                  "2024-01-02" := mkOpenClose 2%float 0x1.fffffffffffffp+0%float;
                  "2024-01-03" := mkOpenClose 3%float 2%float;
                  "2024-01-04" := mkOpenClose 4%float 3%float ]} ]}.

(** A symbol with a close that is no number. *)
Definition nan_close : aligned float :=
  {[ "AAPL" := {[ "2024-01-02" := mkOpenClose 1%float PrimFloat.nan;
                  "2024-01-03" := mkOpenClose 2%float 5%float ]} ]}.

(** A file of quotes with a blank line and a short line. *)
Definition quotes_csv : string :=
  csv_text [ ["Date"; " Symbol"; "Open"; "Close"];
             ["2024-01-02"; "AAPL"; " 1 "; "2"];
             ["  "];
             ["2024-01-03"; "MSFT"; "3"] ].

(** * Properties *)

(** ** Arrays *)

Lemma relative_index_nat (len n : nat) :
  relative_index len (Z.of_nat n) = Nat.min n len.
Proof.
  unfold relative_index.
  destruct (Z.ltb_spec (Z.of_nat n) 0); [lia|].
  by rewrite Nat2Z.id.
Qed.

Lemma Array_slice_prefix {A} (l : list A) (e : Z) :
  Array_slice 0 e l = take (relative_index (length l) e) l.
Proof.
  unfold Array_slice. change (relative_index (length l) 0) with (Nat.min 0 (length l)).
  simpl. by rewrite Nat.sub_0_r.
Qed.

Lemma Array_slice_drop_last {A} (l : list A) (h : nat) :
  h ≤ length l →
  Array_slice 0 (Z.of_nat (length l) - Z.of_nat h) l = take (length l - h) l.
Proof.
  intros Hh. rewrite Array_slice_prefix.
  replace (Z.of_nat (length l) - Z.of_nat h)%Z with (Z.of_nat (length l - h)) by lia.
  rewrite relative_index_nat. f_equal. lia.
Qed.

Lemma indexOf_lookup `{EqDecision A} (l : list A) (i : nat) (x : A) :
  NoDup l → l !! i = Some x → indexOf x l = Z.of_nat i.
Proof.
  intros Hnd. revert i. induction Hnd as [|y l Hy Hnd IH]; intros i Hi; [done|].
  destruct i as [|i]; simpl in *.
  - simplify_eq. by rewrite decide_True.
  - rewrite decide_False.
    + rewrite (IH i Hi). destruct (Z.ltb_spec (Z.of_nat i) 0); lia.
    + intros ->. apply Hy. by eapply list_elem_of_lookup_2.
Qed.

Lemma Array_get_nat {A} (l : list A) (i : nat) :
  Array_get l (Z.of_nat i) = l !! i.
Proof.
  unfold Array_get. destruct (Z.ltb_spec (Z.of_nat i) 0); [lia|].
  by rewrite Nat2Z.id.
Qed.

Lemma lookup_map_seq {A} (f : nat → A) (a n j : nat) :
  j < n → map f (seq a n) !! j = Some (f (a + j)).
Proof.
  intros Hj. rewrite list_lookup_fmap.
  by rewrite lookup_seq_lt.
Qed.

(** A cell of a concatenation of blocks of one length. *)
Lemma lookup_flat_map_block {A B} (g : A → list B) (l : list A) (n j k : nat) (x : A) :
  (∀ a, length (g a) = n) → l !! j = Some x → k < n →
  flat_map g l !! (j * n + k) = g x !! k.
Proof.
  intros Hlen. revert j. induction l as [|a l IH]; intros j Hj Hk; [done|].
  simpl. destruct j as [|j]; simpl in *.
  - simplify_eq. rewrite lookup_app_l; [done|]. rewrite Hlen. lia.
  - rewrite lookup_app_r; rewrite Hlen; [|lia].
    replace (n + j * n + k - n) with (j * n + k) by lia. by apply IH.
Qed.

(** ** indexOf *)

Lemma indexOf_bounds `{EqDecision A} (x : A) (l : list A) :
  (-1 ≤ indexOf x l < Z.of_nat (length l))%Z.
Proof.
  induction l as [|y l IH]; simpl; [lia|].
  destruct (decide (y = x)); [lia|].
  destruct (Z.ltb_spec (indexOf x l) 0); lia.
Qed.

Lemma indexOf_elem `{EqDecision A} (x : A) (l : list A) :
  x ∈ l ↔ (0 ≤ indexOf x l)%Z.
Proof.
  induction l as [|y l IH]; simpl.
  - split; [by intros ?%elem_of_nil | lia].
  - rewrite elem_of_cons. destruct (decide (y = x)) as [->|Hne].
    + split; [lia | by left].
    + destruct (Z.ltb_spec (indexOf x l) 0).
      * split; [|lia]. intros [?|Hin]; [congruence|]. apply IH in Hin. lia.
      * split; [lia|]. intros _. right. apply IH. lia.
Qed.

Lemma indexOf_app_l `{EqDecision A} (x : A) (l1 l2 : list A) :
  x ∈ l1 → indexOf x (l1 ++ l2) = indexOf x l1.
Proof.
  induction l1 as [|y l1 IH]; [by intros ?%elem_of_nil|].
  intros Hin. simpl. destruct (decide (y = x)); [done|].
  apply elem_of_cons in Hin as [?|Hin]; [congruence|]. by rewrite IH.
Qed.

Lemma indexOf_app_fresh `{EqDecision A} (x : A) (l : list A) :
  x ∉ l → indexOf x (l ++ [x]) = Z.of_nat (length l).
Proof.
  induction l as [|y l IH]; intros Hx; simpl.
  - by rewrite decide_True.
  - rewrite decide_False by (intros ->; apply Hx; by left).
    rewrite IH by (intros ?; apply Hx; by right).
    destruct (Z.ltb_spec (Z.of_nat (length l)) 0); lia.
Qed.

(** ** The elements of a Set, in insertion order *)

Lemma Set_spread_snoc `{EqDecision A} (l : list A) (x : A) :
  Set_spread (l ++ [x]) = Set_add (Set_spread l) x.
Proof. unfold Set_spread. by rewrite foldl_app. Qed.

Lemma Set_spread_first_seen `{EqDecision A} (l : list A) :
  first_seen_order (Set_spread l) l.
Proof.
  induction l as [|x l [Hnd [Hel Hord]]] using rev_ind.
  - split; [constructor|]. split; [done|]. intros i j a b Ha. done.
  - rewrite Set_spread_snoc. unfold Set_add.
    destruct (decide (x ∈ Set_spread l)) as [Hx|Hx].
    + split; [done|]. split.
      * intros y. rewrite elem_of_app, list_elem_of_singleton, Hel.
        split; [tauto|]. intros [?| ->]; [done|]. by apply Hel.
      * intros i j a b Ha Hb Hij.
        assert (a ∈ l) by (apply Hel; by eapply list_elem_of_lookup_2).
        assert (b ∈ l) by (apply Hel; by eapply list_elem_of_lookup_2).
        rewrite !indexOf_app_l by done. by apply (Hord i j).
    + split.
      { apply NoDup_app. split; [done|]. split; [|apply NoDup_singleton].
        intros y Hy ->%list_elem_of_singleton. done. }
      split.
      { intros y. rewrite !elem_of_app, Hel. done. }
      intros i j a b Ha Hb Hij.
      assert (i < length (Set_spread l)) as Hi.
      { apply lookup_lt_Some in Hb. rewrite length_app in Hb. simpl in Hb. lia. }
      rewrite lookup_app_l in Ha by done.
      assert (a ∈ l) as Hal by (apply Hel; by eapply list_elem_of_lookup_2).
      rewrite (indexOf_app_l a) by done.
      destruct (decide (j < length (Set_spread l))) as [Hj|Hj].
      * rewrite lookup_app_l in Hb by done.
        assert (b ∈ l) by (apply Hel; by eapply list_elem_of_lookup_2).
        rewrite (indexOf_app_l b) by done. by apply (Hord i j).
      * rewrite lookup_app_r in Hb by lia.
        apply list_lookup_singleton_Some in Hb as [_ <-].
        rewrite indexOf_app_fresh by (by rewrite <- Hel).
        pose proof (indexOf_bounds a l). apply indexOf_elem in Hal. lia.
Qed.

(** ** The order of strings *)

Lemma ascii_compare_spec (a b : ascii) :
  CompareSpec (a = b) (N_of_ascii a < N_of_ascii b)%N
              (N_of_ascii b < N_of_ascii a)%N (Ascii.compare a b).
Proof.
  unfold Ascii.compare.
  destruct (N.compare_spec (N_of_ascii a) (N_of_ascii b)) as [Heq| |];
    constructor; try done.
  rewrite <- (ascii_N_embedding a), <- (ascii_N_embedding b). by rewrite Heq.
Qed.

Lemma String_compare_refl (s : string) : String.compare s s = Eq.
Proof.
  induction s as [|c s IH]; simpl; [done|].
  destruct (ascii_compare_spec c c); try lia. done.
Qed.

Lemma String_compare_lt_trans (a b c : string) :
  String.compare a b = Lt → String.compare b c = Lt → String.compare a c = Lt.
Proof.
  revert b c. induction a as [|x a IH]; intros [|y b] [|z c]; simpl; try done.
  destruct (ascii_compare_spec x y), (ascii_compare_spec y z),
    (ascii_compare_spec x z); subst; try done; try lia; eauto.
Qed.

Lemma String_ltb_trans (a b c : string) :
  String.ltb a b = true → String.ltb b c = true → String.ltb a c = true.
Proof.
  unfold String.ltb. intros Hab Hbc.
  destruct (String.compare a b) eqn:E1; try done.
  destruct (String.compare b c) eqn:E2; try done.
  by rewrite (String_compare_lt_trans a b c).
Qed.

Lemma String_leb_ltb (a b : string) :
  String.leb a b = true ↔ a = b ∨ String.ltb a b = true.
Proof.
  unfold String.leb, String.ltb.
  destruct (String.compare a b) eqn:E.
  - apply String.compare_eq_iff in E. split; [by left|done].
  - split; [by right|done].
  - split; [done|]. intros [->|?]; [|done]. by rewrite String_compare_refl in E.
Qed.

Lemma String_ltb_irrefl (a : string) : String.ltb a a = false.
Proof. unfold String.ltb. by rewrite String_compare_refl. Qed.

Lemma String_leb_trans (a b c : string) :
  String.leb a b = true → String.leb b c = true → String.leb a c = true.
Proof.
  rewrite !String_leb_ltb. intros [->|Hab] [->|Hbc]; eauto.
  right. by eapply String_ltb_trans.
Qed.

(** ** sort *)

Lemma sort_insert_elem (x y : string) (l : list string) :
  y ∈ sort_insert x l ↔ y = x ∨ y ∈ l.
Proof.
  induction l as [|z l IH]; simpl.
  - rewrite list_elem_of_singleton, elem_of_nil. tauto.
  - destruct (String.leb x z).
    + by rewrite !elem_of_cons.
    + rewrite !elem_of_cons, IH. tauto.
Qed.

Lemma sort_insert_sorted (x : string) (l : list string) :
  StronglySorted (λ a b, String.leb a b = true) l →
  StronglySorted (λ a b, String.leb a b = true) (sort_insert x l).
Proof.
  induction 1 as [|z l Hs IH Hz]; simpl.
  - repeat constructor.
  - destruct (String.leb x z) eqn:E.
    + constructor; [by constructor|]. constructor; [done|].
      eapply Forall_impl; [exact Hz|]. intros w Hw. by eapply String_leb_trans.
    + constructor; [done|].
      apply Forall_forall. intros w Hw%sort_insert_elem.
      destruct Hw as [->|Hw].
      * destruct (String.leb_total x z) as [?|?]; [congruence|done].
      * by eapply (proj1 (Forall_forall _ _) Hz).
Qed.

Lemma sort_insert_NoDup (x : string) (l : list string) :
  x ∉ l → NoDup l → NoDup (sort_insert x l).
Proof.
  intros Hx Hnd. induction Hnd as [|z l Hz Hnd IH]; simpl.
  - apply NoDup_singleton.
  - destruct (String.leb x z).
    + constructor; [done|]. by constructor.
    + constructor.
      * rewrite sort_insert_elem. intros [->|?]; [|done]. apply Hx. by left.
      * apply IH. intros ?. apply Hx. by right.
Qed.

Lemma Array_sort_elem (y : string) (l : list string) :
  y ∈ Array_sort l ↔ y ∈ l.
Proof.
  induction l as [|x l IH]; simpl; [done|].
  by rewrite sort_insert_elem, elem_of_cons, IH.
Qed.

Lemma Array_sort_sorted (l : list string) :
  StronglySorted (λ a b, String.leb a b = true) (Array_sort l).
Proof.
  induction l as [|x l IH]; simpl; [constructor|]. by apply sort_insert_sorted.
Qed.

Lemma Array_sort_NoDup (l : list string) : NoDup l → NoDup (Array_sort l).
Proof.
  induction 1 as [|x l Hx Hnd IH]; simpl; [constructor|].
  apply sort_insert_NoDup; [|done]. by rewrite Array_sort_elem.
Qed.

(** Without repetition, a sorted array increases strictly. *)
Lemma sorted_NoDup_strict (l : list string) :
  StronglySorted (λ a b, String.leb a b = true) l → NoDup l →
  StronglySorted (λ a b, String.ltb a b = true) l.
Proof.
  induction 1 as [|x l Hs IH Hx]; intros Hnd; [constructor|].
  apply NoDup_cons in Hnd as [Hxl Hnd].
  constructor; [by apply IH|].
  apply Forall_forall. intros y Hy.
  pose proof (proj1 (Forall_forall _ _) Hx y Hy) as Hle.
  apply String_leb_ltb in Hle as [->|?]; [|done]. done.
Qed.

(** ** DataLoader.pivotData *)

Section pivot_facts.
Context {N : Type}.
Variable parseFloat : string → N.

Lemma Array_find_Some {A} (p : A → bool) (l : list A) (x : A) :
  Array_find p l = Some x → x ∈ l ∧ p x = true.
Proof.
  induction l as [|y l IH]; simpl; [done|].
  destruct (p y) eqn:E.
  - intros [= ->]. split; [by left|done].
  - intros Hf. destruct (IH Hf). split; [by right|done].
Qed.

Lemma find_row_Some (data : list row) (date symbol : string) (r : row) :
  find_row data date symbol = Some r →
  r ∈ data ∧ row_Date r = date ∧ row_Symbol r = symbol.
Proof.
  intros [Hin Hp]%Array_find_Some. split; [done|].
  apply andb_true_iff in Hp as [H1 H2].
  split; by eapply bool_decide_eq_true_1.
Qed.

Lemma pivot_symbol_lookup (data : list row) (dates : list string)
    (symbol date : string) :
  pivot_symbol parseFloat data dates symbol !! date
  = if decide (date ∈ dates) then parse_row parseFloat <$> find_row data date symbol
    else None.
Proof.
  unfold pivot_symbol.
  induction dates as [|x dates IH] using rev_ind.
  - simpl. apply lookup_empty.
  - rewrite foldl_app. simpl.
    destruct (decide (x = date)) as [->|Hne].
    + rewrite (decide_True (P := date ∈ dates ++ [date])) by (apply elem_of_app; right; by left).
      destruct (find_row data date symbol) as [r|] eqn:Hr.
      * by rewrite lookup_insert_eq.
      * rewrite IH. by destruct (decide (date ∈ dates)).
    + assert (Hstep : ∀ acc : series N,
        match find_row data x symbol with
        | Some r => <[x := parse_row parseFloat r]> acc
        | None => acc
        end !! date = acc !! date).
      { intros acc. destruct (find_row data x symbol); [|done].
        by rewrite lookup_insert_ne. }
      rewrite Hstep, IH.
      destruct (decide (date ∈ dates)) as [Hin|Hin].
      * rewrite decide_True by (apply elem_of_app; by left). done.
      * rewrite decide_False; [done|].
        intros [?|Hx%list_elem_of_singleton]%elem_of_app; [done|congruence].
Qed.

Lemma pivoted_lookup (data : list row) (symbol : string) :
  pivoted (pivotData parseFloat data) !! symbol
  = if decide (symbol ∈ symbols (pivotData parseFloat data))
    then Some (pivot_symbol parseFloat data (dates (pivotData parseFloat data)) symbol)
    else None.
Proof.
  unfold pivotData. simpl.
  generalize (Array_sort (Set_spread (map row_Date data))) as ds.
  generalize (Set_spread (map row_Symbol data)) as ss. intros ss ds.
  induction ss as [|x ss IH] using rev_ind.
  - simpl. apply lookup_empty.
  - rewrite foldl_app. simpl.
    destruct (decide (x = symbol)) as [->|Hne].
    + rewrite lookup_insert_eq.
      rewrite decide_True by (apply elem_of_app; right; by left). done.
    + rewrite lookup_insert_ne by done. rewrite IH.
      destruct (decide (symbol ∈ ss)) as [Hin|Hin].
      * rewrite decide_True by (apply elem_of_app; by left). done.
      * rewrite decide_False; [done|].
        intros [?|Hx%list_elem_of_singleton]%elem_of_app; [done|congruence].
Qed.

Lemma dates_elem (data : list row) (d : string) :
  d ∈ dates (pivotData parseFloat data) ↔ d ∈ map row_Date data.
Proof.
  unfold pivotData. simpl. rewrite Array_sort_elem.
  apply (Set_spread_first_seen (map row_Date data)).
Qed.

Lemma symbols_elem (data : list row) (s : string) :
  s ∈ symbols (pivotData parseFloat data) ↔ s ∈ map row_Symbol data.
Proof.
  unfold pivotData. simpl. apply (Set_spread_first_seen (map row_Symbol data)).
Qed.

(** The entry of a symbol at a date is that of the first record with this
    symbol and date, and there is none without such a record. *)
Lemma entry_pivoted (data : list row) (symbol date : string) :
  entry (pivoted (pivotData parseFloat data)) symbol date
  = parse_row parseFloat <$> find_row data date symbol.
Proof.
  unfold entry. rewrite pivoted_lookup.
  destruct (find_row data date symbol) as [r|] eqn:Hr.
  - apply find_row_Some in Hr as Hr'. destruct Hr' as (Hin & Hd & Hs).
    rewrite decide_True.
    + simpl. rewrite pivot_symbol_lookup, decide_True, Hr; [done|].
      apply dates_elem. rewrite <- Hd. apply list_elem_of_fmap. by exists r.
    + apply symbols_elem. rewrite <- Hs. apply list_elem_of_fmap. by exists r.
  - destruct (decide (symbol ∈ _)); [|done]. simpl.
    rewrite pivot_symbol_lookup, Hr. by destruct (decide (date ∈ _)).
Qed.

Lemma NoDup_entries_list (L : list (string * series N)) :
  NoDup L.*1 →
  NoDup (flat_map (λ so : string * series N,
                     map (λ de : string * OpenClose N, ((so.1, de.1), de.2))
                         (map_to_list so.2)) L).*1.
Proof.
  induction L as [|[s o] L IH]; intros Hnd; [constructor|].
  rewrite fmap_cons in Hnd. apply NoDup_cons in Hnd as [Hs Hnd].
  cbn [flat_map fst snd].
  rewrite fmap_app. apply NoDup_app. split; [|split].
  - rewrite <- list_fmap_compose.
    apply (NoDup_fmap_2_strong _); [|apply NoDup_map_to_list].
    intros [d1 e1] [d2 e2] H1 H2 [= ->]. simpl in *.
    f_equal. apply elem_of_map_to_list in H1, H2. congruence.
  - intros [s' d'] H1 H2. apply Hs.
    apply list_elem_of_fmap in H1 as ([[s1 d1] e1] & [= -> ->] & H1).
    apply list_elem_of_fmap in H1 as ([d1' e1'] & [= -> -> ->] & _).
    apply list_elem_of_fmap in H2 as ([[s2 d2] e2] & [= -> ->] & H2).
    apply list_elem_of_In, in_flat_map in H2 as ([s3 o3] & Hin & H2).
    apply list_elem_of_In, list_elem_of_fmap in H2 as ([d3 e3] & [= -> -> ->] & _).
    apply list_elem_of_fmap. exists (s3, o3). split; [done|].
    by apply list_elem_of_In.
  - by apply IH.
Qed.

Lemma NoDup_entries (a : aligned N) : NoDup (entries a).*1.
Proof. apply NoDup_entries_list, NoDup_fst_map_to_list. Qed.

Example pivotData_two_symbols :
  let r := pivotData Number_digits
             [ Row "2024-01-03" "MSFT" "4" "5"; Row "2024-01-02" "AAPL" "1" "2";
               Row "2024-01-03" "AAPL" "2" "3"; Row "2024-01-02" "AAPL" "7" "8" ] in
  symbols r = ["MSFT"; "AAPL"]
  ∧ dates r = ["2024-01-02"; "2024-01-03"]
  ∧ entry (pivoted r) "AAPL" "2024-01-02" = Some (mkOpenClose 1%float 2%float)
  ∧ entry (pivoted r) "MSFT" "2024-01-02" = None.
Proof. by vm_compute. Qed.

(** C9.  For every list of records, the dates that [pivotData] returns
    increase strictly in the order of strings, hence without repetition,
    and are the dates of the records; the symbols are those of the records,
    distinct and in first-seen order; and the aligned series has at most
    one entry for a pair of a symbol and a date: the keys of its entries
    do not repeat, and the entry of a pair is that of the first record with
    this symbol and date. *)
Theorem pivotData_aligned (data : list row) :
  StronglySorted (λ a b, String.ltb a b = true) (dates (pivotData parseFloat data))
  ∧ NoDup (dates (pivotData parseFloat data))
  ∧ (∀ d, d ∈ dates (pivotData parseFloat data) ↔ d ∈ map row_Date data)
  ∧ first_seen_order (symbols (pivotData parseFloat data)) (map row_Symbol data)
  ∧ NoDup (entries (pivoted (pivotData parseFloat data))).*1
  ∧ (∀ symbol date,
       entry (pivoted (pivotData parseFloat data)) symbol date
       = parse_row parseFloat <$> find_row data date symbol).
Proof.
  assert (NoDup (dates (pivotData parseFloat data))) as Hnd.
  { unfold pivotData. simpl. apply Array_sort_NoDup.
    apply (Set_spread_first_seen (map row_Date data)). }
  split; [|split; [done|]].
  - apply sorted_NoDup_strict; [|done]. apply Array_sort_sorted.
  - split; [apply dates_elem|].
    split; [apply Set_spread_first_seen|].
    split; [apply NoDup_entries|]. apply entry_pivoted.
Qed.
End pivot_facts.

(** ** DataLoader.prepareSamples *)

Section DataLoader_facts.
Context {N : Type} `{NumberOps N}.

Lemma currentClosePrices_lookup (nd : aligned N) (symbols : list string)
    (currentDate symbol : string) :
  symbol ∈ symbols →
  currentClosePrices nd symbols currentDate !! symbol
  = Some (anchor_close nd symbol currentDate).
Proof.
  unfold currentClosePrices.
  assert (Hgen : ∀ (acc : gmap string N),
    (symbol ∈ symbols ∨ acc !! symbol = Some (anchor_close nd symbol currentDate)) →
    foldl (λ (acc : gmap string N) symbol,
             match entry nd symbol currentDate with
             | Some e => <[symbol := Close e]> acc
             | None => <[symbol := num_0]> acc
             end) acc symbols !! symbol
    = Some (anchor_close nd symbol currentDate)).
  { induction symbols as [|s symbols IH]; intros acc Hacc; simpl.
    - destruct Hacc as [Hin|Hacc]; [by apply elem_of_nil in Hin|done].
    - apply IH. destruct (decide (s = symbol)) as [->|Hne].
      + right. unfold anchor_close.
        destruct (entry nd symbol currentDate); by rewrite lookup_insert_eq.
      + destruct Hacc as [Hin|Hacc].
        * left. apply elem_of_cons in Hin as [?|?]; [congruence|done].
        * right. destruct (entry nd s currentDate); by rewrite lookup_insert_ne. }
  intros Hin. apply Hgen. by left.
Qed.

Lemma length_target_offset (nd : aligned N) (symbols dates : list string)
    (currentDate : string) (current : gmap string N) (offset : nat) :
  length (target_offset nd symbols dates currentDate current offset) = length symbols.
Proof.
  unfold target_offset.
  repeat case_match; by rewrite length_map.
Qed.

(** What [target] holds for horizon [h] and the symbol at position [k],
    when the anchor is at position [i] of duplicate-free [dates]. *)
Lemma target_cell (nd : aligned N) (symbols dates : list string)
    (predictionDays i h k : nat) (currentDate futureDate symbol : string) :
  NoDup dates →
  dates !! i = Some currentDate →
  dates !! (i + h) = Some futureDate →
  1 ≤ h ≤ predictionDays →
  symbols !! k = Some symbol →
  target nd symbols dates currentDate predictionDays
    !! ((h - 1) * length symbols + k)
  = Some (match entry nd symbol futureDate with
          | Some e => if num_gt (Close e) (anchor_close nd symbol currentDate)
                      then 1 else 0
          | None => 0
          end).
Proof.
  intros Hnd Hi Hih Hh Hk. unfold target.
  rewrite (lookup_flat_map_block _ _ (length symbols) (h - 1) k h).
  - unfold target_offset.
    rewrite (indexOf_lookup dates i currentDate Hnd Hi).
    replace (Z.of_nat i + Z.of_nat h)%Z with (Z.of_nat (i + h)) by lia.
    apply lookup_lt_Some in Hih as Hlt.
    destruct (Z.ltb_spec (Z.of_nat (i + h)) (Z.of_nat (length dates))); [|lia].
    rewrite Array_get_nat, Hih, list_lookup_fmap, Hk. simpl.
    destruct (entry nd symbol futureDate); [|done].
    rewrite currentClosePrices_lookup by (by eapply list_elem_of_lookup_2).
    done.
  - intros a. apply length_target_offset.
  - rewrite lookup_seq_lt by lia. f_equal. lia.
  - by eapply lookup_lt_Some.
Qed.

Lemma length_prepareSamples (nd : aligned N) (symbols dates : list string)
    (sequenceLength predictionDays : nat) :
  let featureDates :=
    Array_slice 0 (Z.of_nat (length dates) - Z.of_nat predictionDays) dates in
  length (samples (prepareSamples nd symbols dates sequenceLength predictionDays))
  = length featureDates - sequenceLength
  ∧ length (targets (prepareSamples nd symbols dates sequenceLength predictionDays))
  = length featureDates - sequenceLength.
Proof.
  simpl. by rewrite !length_map, !length_seq.
Qed.

(** The number of windows when no more horizons are asked than there are
    dates. *)
Lemma count_prepareSamples (nd : aligned N) (symbols dates : list string)
    (sequenceLength predictionDays : nat) :
  predictionDays ≤ length dates →
  length (samples (prepareSamples nd symbols dates sequenceLength predictionDays))
  = length dates - sequenceLength - predictionDays
  ∧ length (targets (prepareSamples nd symbols dates sequenceLength predictionDays))
  = length dates - sequenceLength - predictionDays.
Proof.
  intros Hle.
  destruct (length_prepareSamples nd symbols dates sequenceLength predictionDays)
    as [-> ->].
  rewrite Array_slice_drop_last by done.
  rewrite length_take. lia.
Qed.

(** The targets of the window anchored at position [i]. *)
Lemma prepareSamples_target (nd : aligned N) (symbols dates : list string)
    (sequenceLength predictionDays i : nat) (currentDate : string) :
  sequenceLength ≤ i →
  i + predictionDays < length dates →
  dates !! i = Some currentDate →
  targets (prepareSamples nd symbols dates sequenceLength predictionDays)
    !! (i - sequenceLength)
  = Some (target nd symbols dates currentDate predictionDays).
Proof.
  intros HT Hi Hcur. unfold prepareSamples. simpl.
  rewrite Array_slice_drop_last by lia.
  rewrite length_take.
  rewrite lookup_map_seq by lia.
  replace (sequenceLength + (i - sequenceLength)) with i by lia.
  f_equal. f_equal.
  rewrite list_lookup_total_alt, lookup_take_lt by lia. by rewrite Hcur.
Qed.
(** The sample of the window anchored at position [i]: the feature vectors
    of the [sequenceLength] dates before [dates[i]]. *)
Lemma prepareSamples_sample (nd : aligned N) (symbols dates : list string)
    (sequenceLength predictionDays i : nat) :
  sequenceLength ≤ i →
  i + predictionDays < length dates →
  samples (prepareSamples nd symbols dates sequenceLength predictionDays)
    !! (i - sequenceLength)
  = Some (map (λ j, features nd symbols (dates !!! j))
              (seq (i - sequenceLength) sequenceLength)).
Proof.
  intros HT Hi. unfold prepareSamples. simpl.
  rewrite Array_slice_drop_last by lia.
  rewrite length_take.
  rewrite lookup_map_seq by lia.
  replace (sequenceLength + (i - sequenceLength)) with i by lia.
  f_equal. unfold input. apply map_ext_in.
  intros j Hj%in_seq. f_equal.
  rewrite !list_lookup_total_alt, lookup_take_lt by lia. done.
Qed.
End DataLoader_facts.

Section labels.
Context {N : Type} `{NumberOps N}.

Lemma target_bit_window_label (nd : aligned N) (symbols dates : list string)
    (sequenceLength predictionDays i h k : nat)
    (currentDate futureDate symbol : string) :
  NoDup dates →
  sequenceLength ≤ i → i + predictionDays < length dates →
  1 ≤ h ≤ predictionDays →
  dates !! i = Some currentDate → dates !! (i + h) = Some futureDate →
  symbols !! k = Some symbol →
  target_bit (prepareSamples nd symbols dates sequenceLength predictionDays)
             sequenceLength (length symbols) i h k
  = Some (window_label nd symbol currentDate futureDate).
Proof.
  intros Hnd HT Hi Hh Hcur Hfut Hk. unfold target_bit.
  rewrite (prepareSamples_target nd symbols dates sequenceLength predictionDays
             i currentDate) by done.
  simpl. by apply (target_cell nd symbols dates predictionDays i h k).
Qed.

Lemma window_label_present (nd : aligned N) (symbol currentDate futureDate : string) :
  is_Some (entry nd symbol currentDate) →
  window_label nd symbol currentDate futureDate
  = spec_label nd symbol currentDate futureDate.
Proof.
  intros [a Ha]. unfold window_label, spec_label, anchor_close. by rewrite Ha.
Qed.

Lemma window_label_no_future (nd : aligned N) (symbol currentDate futureDate : string) :
  entry nd symbol futureDate = None →
  window_label nd symbol currentDate futureDate = 0.
Proof. intros Hf. unfold window_label. by rewrite Hf. Qed.
End labels.

(** C1 (amended).  For duplicate-free dates, every anchor position [i]
    with [sequenceLength <= i < D - predictionDays], every horizon [h] in
    [1, predictionDays] and every symbol in the order of [symbols], the bit
    of the target is [window_label]: it is 0 when the symbol has no record
    at [dates[i+h]]; when it has one there and one at [dates[i]] it is 1
    exactly if the later close is strictly greater (the label of the
    specification); and when it has none at [dates[i]] the later close is
    compared with 0, so the bit is 1 exactly if the later close is above
    0. *)
Theorem prepareSamples_target_label {N : Type} `{NumberOps N}
    (nd : aligned N) (symbols dates : list string)
    (sequenceLength predictionDays i h k : nat)
    (currentDate futureDate symbol : string) :
  NoDup dates →
  sequenceLength ≤ i → i + predictionDays < length dates →
  1 ≤ h ≤ predictionDays →
  dates !! i = Some currentDate → dates !! (i + h) = Some futureDate →
  symbols !! k = Some symbol →
  target_bit (prepareSamples nd symbols dates sequenceLength predictionDays)
             sequenceLength (length symbols) i h k
  = Some (window_label nd symbol currentDate futureDate)
  ∧ (entry nd symbol futureDate = None →
     window_label nd symbol currentDate futureDate = 0)
  ∧ (is_Some (entry nd symbol currentDate) →
     window_label nd symbol currentDate futureDate
     = spec_label nd symbol currentDate futureDate)
  ∧ (entry nd symbol currentDate = None →
     window_label nd symbol currentDate futureDate
     = match entry nd symbol futureDate with
       | Some e => if num_gt (Close e) num_0 then 1 else 0
       | None => 0
       end).
Proof.
  intros. split; [by apply target_bit_window_label|].
  split; [apply window_label_no_future|].
  split; [apply window_label_present|].
  intros Hc. unfold window_label, anchor_close. by rewrite Hc.
Qed.

Lemma prepareSamples_target_label_witness :
  target_bit (prepareSamples late_listing ["AAPL"]
                ["2024-01-01"; "2024-01-02"; "2024-01-03"] 1 1) 1 1 1 1 0
  = Some (window_label late_listing "AAPL" "2024-01-02" "2024-01-03").
Proof.
  refine (proj1 (prepareSamples_target_label late_listing ["AAPL"]
            ["2024-01-01"; "2024-01-02"; "2024-01-03"] 1 1 1 1 0
            "2024-01-02" "2024-01-03" "AAPL" _ _ _ _ _ _ _)).
  - apply (bool_decide_unpack _). by vm_compute.
  - lia.
  - simpl; lia.
  - lia.
  - reflexivity.
  - reflexivity.
  - reflexivity.
Defined.

(** The symbol has no record at the anchor date 2024-01-02, its close at
    the next date is 0.5, and the bit is 1, where the specification has
    0. *)
Lemma prepareSamples_missing_anchor_label :
  entry late_listing "AAPL" "2024-01-02" = None
  ∧ target_bit (prepareSamples late_listing ["AAPL"]
                  ["2024-01-01"; "2024-01-02"; "2024-01-03"] 1 1) 1 1 1 1 0
    = Some 1
  ∧ spec_label late_listing "AAPL" "2024-01-02" "2024-01-03" = 0.
Proof. vm_compute. done. Qed.

(** *** The number of windows *)

Example prepareSamples_20_12_3 :
  length (samples (prepareSamples late_listing ["AAPL"] dates20 12 3)) = 5
  ∧ length (targets (prepareSamples late_listing ["AAPL"] dates20 12 3)) = 5.
Proof. by vm_compute. Qed.

(** C3 (amended).  With no more horizons than dates, if D - T - H <= 0
    then [prepareSamples] returns the empty dataset, no samples and no
    targets; it has no failure of its own. *)
Theorem prepareSamples_too_few_dates {N : Type} `{NumberOps N}
    (nd : aligned N) (symbols dates : list string)
    (sequenceLength predictionDays : nat) :
  predictionDays ≤ length dates →
  length dates ≤ sequenceLength + predictionDays →
  prepareSamples nd symbols dates sequenceLength predictionDays
  = mkSamples [] [].
Proof.
  intros HH HD. unfold prepareSamples.
  rewrite Array_slice_drop_last by done. rewrite length_take.
  replace ((length dates - predictionDays) `min` length dates - sequenceLength)
    with 0 by lia.
  done.
Qed.

Lemma prepareSamples_too_few_dates_witness :
  prepareSamples late_listing ["AAPL"]
    ["2024-01-01"; "2024-01-02"; "2024-01-03"] 12 3
  = mkSamples [] [].
Proof.
  apply (prepareSamples_too_few_dates late_listing ["AAPL"]
           ["2024-01-01"; "2024-01-02"; "2024-01-03"] 12 3).
  - simpl; lia.
  - simpl; lia.
Defined.

(** Fifteen dates with T = 12 and H = 3 leave no window, and the call
    returns the empty dataset. *)
Lemma prepareSamples_returns_empty :
  (Z.of_nat (length (take 15 dates20)) - 12 - 3 ≤ 0)%Z
  ∧ prepareSamples late_listing ["AAPL"] (take 15 dates20) 12 3
    = mkSamples [] [].
Proof. by vm_compute. Qed.

(** C4.  Twenty dates, T = 12 and H = 21 horizons: D - T - H is negative,
    and the builder returns seven windows, because the end of
    [dates.slice(0, dates.length - predictionDays)] is then -1 and counts
    from the end of the array.  With H = 3 it returns the five windows of
    the specification. *)
Theorem prepareSamples_more_horizons_than_dates :
  length dates20 = 20
  ∧ length (samples (prepareSamples late_listing ["AAPL"] dates20 12 21)) = 7
  ∧ length (targets (prepareSamples late_listing ["AAPL"] dates20 12 21)) = 7
  ∧ Z.max 0 (Z.of_nat (length dates20) - 12 - 21) = 0%Z
  ∧ length (samples (prepareSamples late_listing ["AAPL"] dates20 12 3)) = 5.
Proof. by vm_compute. Qed.

(** ** DataLoader.normalizeData *)

Lemma entry_normalized {N : Type} `{NumberOps N} (pd : aligned N) (symbol date : string) (o : series N) :
  pd !! symbol = Some o →
  entry (normalized (normalizeData pd)) symbol date
  = normalize_entry (minMax_symbol o) <$> o !! date.
Proof.
  intros Ho. unfold entry, normalizeData. simpl.
  rewrite lookup_fmap, Ho. simpl. by rewrite lookup_fmap.
Qed.

Lemma Close_in_values {N : Type} `{NumberOps N} (o : series N) (date : string) (e : OpenClose N) :
  o !! date = Some e → Close e ∈ map Close (Object_values o).
Proof.
  intros He. apply list_elem_of_fmap. exists e. split; [done|].
  unfold Object_values. apply list_elem_of_fmap. exists (date, e).
  split; [done|]. by apply elem_of_map_to_list.
Qed.

Lemma forallb_elem_of {A} (p : A → bool) (l : list A) (x : A) :
  forallb p l = true → x ∈ l → p x = true.
Proof.
  rewrite forallb_forall. intros Hl Hx. apply Hl. by apply list_elem_of_In.
Qed.

(** *** Normalization on binary64 *)

(** C2.  The closes of the symbol are 5 and 5: the minimum equals the
    maximum, and both normalized closes are NaN, the quotient of 0 by 0. *)
Theorem normalizeData_constant_close_is_nan :
  (mm ← minMax (normalizeData constant_close) !! "AAPL";
   Some (PrimFloat.eqb (mm_min (Close mm)) (mm_max (Close mm)))) = Some true
  ∧ (e ← entry (normalized (normalizeData constant_close)) "AAPL" "2024-01-02";
     Some (PrimFloat.is_nan (Close e))) = Some true
  ∧ (e ← entry (normalized (normalizeData constant_close)) "AAPL" "2024-01-03";
     Some (PrimFloat.is_nan (Close e))) = Some true.
Proof. by vm_compute. Qed.

Lemma entry_lookup {N : Type} (pd : aligned N) (symbol date : string) (o : series N) :
  pd !! symbol = Some o → entry pd symbol date = o !! date.
Proof. intros Ho. unfold entry. by rewrite Ho. Qed.

(** In binary64 the closes 1.9999999999999998 and 2 of a symbol with
    minimum 0 and maximum 3 are both scaled to 0.6666666666666666: the raw
    close rises from 2024-01-02 to 2024-01-03, the normalized close does
    not, and the target bit of the normalized series is 0 where that of the
    raw series is 1. *)
Lemma binary64_normalize_collapses :
  (mm ← minMax (normalizeData close_neighbours) !! "AAPL";
   Some (num_gt (mm_max (Close mm)) (mm_min (Close mm)))) = Some true
  ∧ (e1 ← entry close_neighbours "AAPL" "2024-01-03";
     e2 ← entry close_neighbours "AAPL" "2024-01-02";
     Some (num_gt (Close e1) (Close e2))) = Some true
  ∧ (n1 ← entry (normalized (normalizeData close_neighbours)) "AAPL" "2024-01-03";
     n2 ← entry (normalized (normalizeData close_neighbours)) "AAPL" "2024-01-02";
     Some (num_gt (Close n1) (Close n2), PrimFloat.eqb (Close n1) (Close n2)))
    = Some (false, true)
  ∧ target_bit (prepareSamples close_neighbours ["AAPL"] (take 4 dates20) 1 1)
               1 1 1 1 0 = Some 1
  ∧ target_bit (prepareSamples (normalized (normalizeData close_neighbours))
                  ["AAPL"] (take 4 dates20) 1 1)
               1 1 1 1 0 = Some 0.
Proof. by vm_compute. Qed.

(** ** binary64: the floor of a fraction of a length *)

(** The product [length * ratio] is read through the specification of the
    primitive operations ([mul_spec], [of_uint63_spec], [ltb_spec]): the
    rounding of [binary_round_aux] never carries a value below an integer
    [n] above [n]. *)

Section binary64_floor.
Local Open Scope Z_scope.

Lemma digits2_pos_bounds (p : positive) :
  2 ^ (Z.pos (digits2_pos p) - 1) ≤ Z.pos p < 2 ^ Z.pos (digits2_pos p).
Proof.
  induction p as [p IH|p IH|]; simpl digits2_pos.
  - rewrite Pos2Z.inj_succ.
    replace (Z.succ (Z.pos (digits2_pos p)) - 1) with (Z.pos (digits2_pos p) - 1 + 1) by lia.
    rewrite Z.pow_succ_r by lia. rewrite Z.pow_add_r by lia.
    change (2 ^ 1) with 2. lia.
  - rewrite Pos2Z.inj_succ.
    replace (Z.succ (Z.pos (digits2_pos p)) - 1) with (Z.pos (digits2_pos p) - 1 + 1) by lia.
    rewrite Z.pow_succ_r by lia. rewrite Z.pow_add_r by lia.
    change (2 ^ 1) with 2. lia.
  - simpl. lia.
Qed.

Lemma Zdigits2_bounds (m : Z) :
  0 < m → 2 ^ (Zdigits2 m - 1) ≤ m < 2 ^ Zdigits2 m.
Proof. destruct m as [|p|p]; try lia. intros _. apply digits2_pos_bounds. Qed.

Lemma Zdigits2_nonneg (m : Z) : 0 ≤ Zdigits2 m.
Proof. destruct m; simpl; lia. Qed.

(** A power of two is monotone in its exponent. *)
Lemma pow2_lt_inv (a b : Z) : 0 ≤ a → 2 ^ a < 2 ^ b → a < b.
Proof.
  intros Ha Hlt. destruct (Z.lt_ge_cases a b) as [|Hge]; [done|].
  exfalso. destruct (Z.lt_ge_cases b 0).
  - rewrite (Z.pow_neg_r 2 b) in Hlt by done.
    pose proof (Z.pow_pos_nonneg 2 a). lia.
  - pose proof (Z.pow_le_mono_r 2 b a). lia.
Qed.

(** The shifts of [shr]. *)
Lemma shr_m_shr_1 (mrs : shr_record) :
  0 ≤ shr_m mrs → shr_m (shr_1 mrs) = shr_m mrs `div` 2.
Proof.
  destruct mrs as [m r s]. cbn [shr_m]. intros Hm.
  destruct m as [|[p|p|]|p]; cbn [shr_1 shr_m]; try lia.
  - done.
  - apply Z.div_unique with (r := 1); lia.
  - apply Z.div_unique with (r := 0); lia.
  - done.
Qed.

Lemma pow2_xO (p : positive) : 2 ^ Z.pos p~0 = 2 ^ Z.pos p * 2 ^ Z.pos p.
Proof. rewrite Pos2Z.inj_xO, <- Z.pow_add_r by lia. f_equal. lia. Qed.

Lemma pow2_xI (p : positive) : 2 ^ Z.pos p~1 = 2 * (2 ^ Z.pos p * 2 ^ Z.pos p).
Proof.
  rewrite Pos2Z.inj_xI, <- Z.pow_add_r by lia.
  replace (2 * Z.pos p + 1) with (Z.succ (Z.pos p + Z.pos p)) by lia.
  by rewrite Z.pow_succ_r by lia.
Qed.

Lemma shr_m_iter_pos (p : positive) (mrs : shr_record) :
  0 ≤ shr_m mrs →
  shr_m (SpecFloat.iter_pos shr_1 p mrs) = shr_m mrs `div` 2 ^ Z.pos p.
Proof.
  revert mrs. induction p as [p IH|p IH|]; intros mrs Hm; simpl SpecFloat.iter_pos.
  - assert (0 < 2 ^ Z.pos p) as Hp by (by apply Z.pow_pos_nonneg).
    assert (0 ≤ shr_m (shr_1 mrs)) as H1.
    { rewrite shr_m_shr_1 by done. by apply Z.div_pos. }
    assert (0 ≤ shr_m (SpecFloat.iter_pos shr_1 p (shr_1 mrs))) as H2.
    { rewrite IH by done. by apply Z.div_pos. }
    rewrite IH, IH, shr_m_shr_1 by done.
    rewrite !Z.div_div by lia. by rewrite pow2_xI.
  - assert (0 < 2 ^ Z.pos p) as Hp by (by apply Z.pow_pos_nonneg).
    assert (0 ≤ shr_m (SpecFloat.iter_pos shr_1 p mrs)) as H2.
    { rewrite IH by done. by apply Z.div_pos. }
    rewrite IH, IH by done.
    rewrite !Z.div_div by lia. by rewrite pow2_xO.
  - by apply shr_m_shr_1.
Qed.

Lemma shr_spec (mrs : shr_record) (e n : Z) :
  0 ≤ shr_m mrs →
  shr_m (fst (shr mrs e n)) = shr_m mrs `div` 2 ^ Z.max n 0
  ∧ snd (shr mrs e n) = e + Z.max n 0.
Proof.
  intros Hm. unfold shr. destruct n as [|p|p]; simpl fst; simpl snd.
  - change (2 ^ Z.max 0 0) with 1. rewrite Z.div_1_r. lia.
  - rewrite shr_m_iter_pos by done. rewrite Z.max_l by lia. lia.
  - rewrite Z.max_r by lia. change (2 ^ 0) with 1. rewrite Z.div_1_r. lia.
Qed.

Lemma shr_m_record_of_loc (m : Z) (l : location) :
  shr_m (shr_record_of_loc m l) = m.
Proof. by destruct l as [|[]]. Qed.

Lemma round_nearest_even_bounds (m : Z) (l : location) :
  m ≤ round_nearest_even m l ≤ m + 1.
Proof. unfold round_nearest_even. destruct l as [|[]]; try lia. destruct (Z.even m); lia. Qed.

Lemma pow2_pos (a : Z) : 0 ≤ a → 0 < 2 ^ a.
Proof. intros. by apply Z.pow_pos_nonneg. Qed.

Lemma pow2_1200 (e : Z) :
  -1200 ≤ e ≤ 0 → 2 ^ 1200 = 2 ^ (- e) * 2 ^ (e + 1200).
Proof. intros He. rewrite <- Z.pow_add_r by lia. f_equal. lia. Qed.

(** [m * 2^(e + 1200)] stands for the value [m * 2^e] of a mantissa and an
    exponent: all the exponents of the products below lie above -1200. *)
Lemma scaled_below_integer (m e n : Z) :
  -1200 ≤ e ≤ 0 → m * 2 ^ (e + 1200) < n * 2 ^ 1200 → m < n * 2 ^ (- e).
Proof.
  intros He Hlt.
  rewrite (pow2_1200 e), Z.mul_assoc in Hlt by done.
  apply Z.mul_lt_mono_pos_r in Hlt; [done|]. apply pow2_pos. lia.
Qed.

Lemma integer_above_scaled (m e n : Z) :
  -1200 ≤ e ≤ 0 → m ≤ n * 2 ^ (- e) → m * 2 ^ (e + 1200) ≤ n * 2 ^ 1200.
Proof.
  intros He Hle.
  rewrite (pow2_1200 e), Z.mul_assoc by done.
  apply Z.mul_le_mono_nonneg_r; [|done]. apply Z.lt_le_incl, pow2_pos. lia.
Qed.

(** The digits of a mantissa whose value is at most 2^53. *)
Lemma digits_of_scaled (m e : Z) :
  0 < m → -1200 ≤ e → m * 2 ^ (e + 1200) ≤ 2 ^ 53 * 2 ^ 1200 →
  Zdigits2 m + e ≤ 54.
Proof.
  intros Hm He Hle.
  pose proof (Zdigits2_bounds m Hm) as [Hd _].
  pose proof (Zdigits2_nonneg m) as Hd0.
  assert (0 < Zdigits2 m) as Hd1.
  { destruct m; simpl in *; lia. }
  assert (2 ^ (Zdigits2 m - 1 + (e + 1200)) ≤ 2 ^ (53 + 1200)) as Hp.
  { rewrite !Z.pow_add_r by lia.
    etransitivity; [|exact Hle].
    apply Z.mul_le_mono_nonneg_r; [|done]. apply Z.lt_le_incl, pow2_pos. lia. }
  destruct (Z.le_gt_cases (Zdigits2 m - 1 + (e + 1200)) (53 + 1200)) as [|Hgt]; [lia|].
  exfalso. apply (Z.pow_lt_mono_r 2) in Hgt; lia.
Qed.

(** The floor of a value at most [n]. *)
Lemma floor_scaled_le (m e n : Z) :
  -1200 ≤ e ≤ 1200 → m * 2 ^ (e + 1200) ≤ n * 2 ^ 1200 →
  (m * 2 ^ Z.max e 0) `div` 2 ^ Z.max (- e) 0 ≤ n.
Proof.
  intros He Hle.
  assert (0 < 2 ^ Z.max (- e) 0) by (apply pow2_pos; lia).
  apply Z.div_le_upper_bound; [done|]. rewrite (Z.mul_comm _ n).
  destruct (Z.le_gt_cases e 0) as [Hneg|Hpos].
  - rewrite (Z.max_r e 0), (Z.max_l (- e) 0) by lia.
    change (2 ^ 0) with 1. rewrite Z.mul_1_r.
    rewrite (pow2_1200 e), Z.mul_assoc in Hle by lia.
    apply Z.mul_le_mono_pos_r in Hle; [done|]. apply pow2_pos. lia.
  - rewrite (Z.max_l e 0), (Z.max_r (- e) 0) by lia.
    change (2 ^ 0) with 1. rewrite Z.mul_1_r.
    rewrite Z.pow_add_r, Z.mul_assoc in Hle by lia.
    apply Z.mul_le_mono_pos_r in Hle; [done|]. apply pow2_pos. lia.
Qed.

Lemma binary_round_aux_le (m : positive) (e n : Z) :
  -1200 ≤ e ≤ 0 → 0 ≤ n ≤ 2 ^ 53 →
  Z.pos m * 2 ^ (e + 1200) < n * 2 ^ 1200 →
  ∃ k, SFfloor (binary_round_aux prec emax false (Z.pos m) e loc_Exact) = FInt k
       ∧ 0 ≤ k ≤ n.
Proof.
  intros He Hn Hlt.
  unfold binary_round_aux, shr_fexp.
  set (d1 := fexp prec emax (Zdigits2 (Z.pos m) + e) - e).
  pose proof (shr_spec (shr_record_of_loc (Z.pos m) loc_Exact) e d1) as [Hq He'].
  { rewrite shr_m_record_of_loc. lia. }
  destruct (shr (shr_record_of_loc (Z.pos m) loc_Exact) e d1) as [mrs' e'].
  simpl fst in Hq. simpl snd in He'. rewrite shr_m_record_of_loc in Hq.
  set (m1 := round_nearest_even (shr_m mrs') (loc_of_shr_record mrs')).
  pose proof (round_nearest_even_bounds (shr_m mrs') (loc_of_shr_record mrs')) as Hm1.
  fold m1 in Hm1.
  assert (0 < 2 ^ Z.max d1 0) as HD1 by (apply pow2_pos; lia).
  assert (0 ≤ shr_m mrs') as Hq0 by (rewrite Hq; apply Z.div_pos; lia).
  (* the exponent after the first shift *)
  assert (Zdigits2 (Z.pos m) + e ≤ 54) as Hdig.
  { apply digits_of_scaled; [lia|lia|].
    etransitivity; [apply Z.lt_le_incl, Hlt|].
    apply Z.mul_le_mono_nonneg_r; [|lia]. apply Z.lt_le_incl, pow2_pos. lia. }
  assert (Zdigits2 (Z.pos m) + e ≤ 53) as Hdig53.
  { destruct (Z.le_gt_cases (Zdigits2 (Z.pos m) + e) 53) as [|Hgt]; [done|]. exfalso.
    pose proof (Zdigits2_bounds (Z.pos m) ltac:(lia)) as [Hd _].
    assert (2 ^ (53 + 1200) ≤ Z.pos m * 2 ^ (e + 1200)) as Hp.
    { replace (53 + 1200) with ((Zdigits2 (Z.pos m) - 1) + (e + 1200)) by lia.
      pose proof (Zdigits2_nonneg (Z.pos m)).
      assert (0 < Zdigits2 (Z.pos m)) by (simpl; lia).
      rewrite Z.pow_add_r by lia.
      apply Z.mul_le_mono_nonneg_r; [|done]. apply Z.lt_le_incl, pow2_pos. lia. }
    rewrite Z.pow_add_r in Hp by lia.
    assert (n * 2 ^ 1200 ≤ 2 ^ 53 * 2 ^ 1200).
    { apply Z.mul_le_mono_nonneg_r; [|lia]. apply Z.lt_le_incl, pow2_pos. lia. }
    lia. }
  assert (-1200 ≤ e' ≤ 0) as He'0.
  { subst e' d1. unfold fexp, SpecFloat.emin, prec, emax. lia. }
  (* the rounded mantissa is at most the integer bound *)
  assert (m1 ≤ n * 2 ^ (- e')) as Hm1n.
  { apply scaled_below_integer in Hlt; [|done].
    replace (- e) with (- e' + Z.max d1 0) in Hlt by lia.
    rewrite Z.pow_add_r, Z.mul_assoc in Hlt by lia.
    assert (shr_m mrs' < n * 2 ^ (- e')); [|lia].
    rewrite Hq. apply Z.div_lt_upper_bound; [done|]. lia. }
  assert (0 ≤ m1) as Hm10 by lia.
  (* the second shift *)
  set (d2 := fexp prec emax (Zdigits2 m1 + e') - e').
  pose proof (shr_spec (shr_record_of_loc m1 loc_Exact) e' d2) as [Hq2 He''].
  { rewrite shr_m_record_of_loc. lia. }
  destruct (shr (shr_record_of_loc m1 loc_Exact) e' d2) as [mrs'' e''].
  simpl fst in Hq2. simpl snd in He''. rewrite shr_m_record_of_loc in Hq2.
  assert (0 < 2 ^ Z.max d2 0) as HD2 by (apply pow2_pos; lia).
  assert (0 ≤ shr_m mrs'') as Hq20 by (rewrite Hq2; apply Z.div_pos; lia).
  assert (shr_m mrs'' * 2 ^ Z.max d2 0 ≤ m1) as Hq2m.
  { rewrite Hq2, Z.mul_comm. apply Z.mul_div_le. lia. }
  assert (e'' ≤ 1) as He''1.
  { destruct (Z.eq_dec m1 0) as [->|Hne].
    - subst e'' d2. simpl Zdigits2. unfold fexp, SpecFloat.emin, prec, emax. lia.
    - assert (Zdigits2 m1 + e' ≤ 54).
      { apply digits_of_scaled; [lia|lia|].
        etransitivity; [apply integer_above_scaled; [done|exact Hm1n]|].
        apply Z.mul_le_mono_nonneg_r; [|lia]. apply Z.lt_le_incl, pow2_pos. lia. }
      subst e'' d2. unfold fexp, SpecFloat.emin, prec, emax. lia. }
  assert (-1200 ≤ e'') as He''0 by lia.
  destruct (shr_m mrs'') as [|m''|m''] eqn:Em''; [|
    |lia].
  - exists 0. split; [done|lia].
  - replace (e'' <=? emax - prec) with true
      by (symmetry; apply Z.leb_le; unfold emax, prec; lia).
    eexists. split; [reflexivity|].
    assert (0 < 2 ^ Z.max e'' 0) by (apply pow2_pos; lia).
    assert (0 < 2 ^ Z.max (- e'') 0) by (apply pow2_pos; lia).
    split; [apply Z.div_pos; lia|].
    apply floor_scaled_le; [lia|].
    replace (e'' + 1200) with (Z.max d2 0 + (e' + 1200)) by lia.
    rewrite Z.pow_add_r, Z.mul_assoc by lia.
    etransitivity; [|apply (integer_above_scaled m1 e' n); [done|exact Hm1n]].
    apply Z.mul_le_mono_nonneg_r; [|lia]. apply Z.lt_le_incl, pow2_pos. lia.
Qed.

(** The digits of a positive integer are determined by its size. *)
Lemma Zdigits2_unique (m k : Z) :
  0 < m → 2 ^ (k - 1) ≤ m < 2 ^ k → Zdigits2 m = k.
Proof.
  intros Hm [Hlo Hhi].
  pose proof (Zdigits2_bounds m Hm) as [Hlo' Hhi'].
  pose proof (Zdigits2_nonneg m).
  assert (0 < Zdigits2 m) by (destruct m; simpl in *; lia).
  assert (0 < k).
  { destruct (Z.lt_ge_cases 0 k); [done|]. exfalso.
    destruct (Z.eq_dec k 0) as [->|];
      [simpl in Hhi; lia | rewrite (Z.pow_neg_r 2 k) in Hhi by lia; lia]. }
  assert (Zdigits2 m - 1 < k).
  { apply pow2_lt_inv; [lia|]. lia. }
  assert (k - 1 < Zdigits2 m).
  { apply pow2_lt_inv; [lia|]. lia. }
  lia.
Qed.

Lemma Pos_iter_xO (p d : positive) :
  Z.pos (Pos.iter xO p d) = Z.pos p * 2 ^ Z.pos d.
Proof.
  induction d as [|d IH] using Pos.peano_ind.
  - simpl. lia.
  - rewrite Pos.iter_succ, Pos2Z.inj_xO, IH, Pos2Z.inj_succ, Z.pow_succ_r by lia. lia.
Qed.

(** A mantissa of 53 digits with a small exponent is not rounded. *)
Lemma binary_round_aux_exact (mz : positive) (ez : Z) :
  Zdigits2 (Z.pos mz) = 53 → -1074 ≤ ez ≤ 971 →
  binary_round_aux prec emax false (Z.pos mz) ez loc_Exact
  = S754_finite false mz ez.
Proof.
  intros Hd He. unfold binary_round_aux, shr_fexp. rewrite Hd.
  assert (fexp prec emax (53 + ez) - ez = 0) as ->.
  { unfold fexp, SpecFloat.emin, prec, emax. lia. }
  cbn [shr shr_record_of_loc loc_of_shr_record shr_m round_nearest_even].
  rewrite Hd.
  assert (fexp prec emax (53 + ez) - ez = 0) as ->.
  { unfold fexp, SpecFloat.emin, prec, emax. lia. }
  cbn [shr shr_record_of_loc shr_m].
  replace (ez <=? emax - prec) with true; [done|].
  symmetry. apply Z.leb_le. unfold emax, prec. lia.
Qed.

(** An integer below 2^53 is a binary64 value. *)
Lemma binary_normalize_integer (n : Z) :
  0 < n < 2 ^ 53 →
  ∃ mx ex, binary_normalize prec emax n 0 false = S754_finite false mx ex
           ∧ -52 ≤ ex ≤ 0 ∧ Z.pos mx = n * 2 ^ (- ex).
Proof.
  intros [Hn0 Hn]. destruct n as [|p|p]; try lia.
  unfold binary_normalize, binary_round.
  pose proof (digits2_pos_bounds p) as [Hlo Hhi].
  assert (Z.pos (digits2_pos p) ≤ 53) as Hd.
  { assert (Z.pos (digits2_pos p) - 1 < 53); [|lia]. apply pow2_lt_inv; lia. }
  rewrite Z.add_0_r.
  assert (fexp prec emax (Z.pos (digits2_pos p)) = Z.pos (digits2_pos p) - 53) as ->.
  { unfold fexp, SpecFloat.emin, prec, emax. lia. }
  unfold shl_align. rewrite Z.sub_0_r.
  destruct (Z.pos (digits2_pos p) - 53) as [|d|d] eqn:Ed; try lia.
  - exists p, 0. split; [|split; [lia|simpl; lia]].
    apply binary_round_aux_exact; [simpl; lia|lia].
  - exists (Pos.iter xO p d), (Z.neg d).
    assert (Z.pos (Pos.iter xO p d) = Z.pos p * 2 ^ Z.pos d) as Hv
      by apply Pos_iter_xO.
    split; [|split; [lia|exact Hv]].
    apply binary_round_aux_exact; [|lia].
    apply Zdigits2_unique; [lia|]. rewrite Hv.
    assert (Z.pos d = 53 - Z.pos (digits2_pos p)) as -> by lia.
    assert (0 < 2 ^ (53 - Z.pos (digits2_pos p))) as Hp by (apply pow2_pos; lia).
    split.
    + replace (53 - 1) with (Z.pos (digits2_pos p) - 1 + (53 - Z.pos (digits2_pos p))) by lia.
      rewrite Z.pow_add_r by lia. apply Z.mul_le_mono_nonneg_r; lia.
    + replace 53 with (Z.pos (digits2_pos p) + (53 - Z.pos (digits2_pos p))) at 2 by lia.
      rewrite Z.pow_add_r by lia. apply Z.mul_lt_mono_pos_r; lia.
Qed.

(** A binary64 value strictly between 0 and 1. *)
Lemma fraction_form (R : spec_float) :
  valid_binary R = true →
  SFltb (S754_zero false) R = true →
  SFltb R (S754_finite false 4503599627370496 (-52)) = true →
  ∃ my ey, R = S754_finite false my ey ∧ -1074 ≤ ey ≤ -52
           ∧ Z.pos my * 2 ^ (ey + 1074) < 2 ^ 1074.
Proof.
  intros Hv H0 H1. destruct R as [s|s| |s my ey]; try done.
  - by destruct s.
  - destruct s; [done|]. exists my, ey. split; [done|].
    unfold SFltb, SFcompare in H1.
    simpl in Hv. apply andb_true_iff in Hv as [Hc _].
    unfold canonical_mantissa in Hc. apply Z.eqb_eq in Hc.
    unfold fexp, SpecFloat.emin, prec, emax in Hc.
    pose proof (digits2_pos_bounds my) as [_ Hhi].
    assert (Z.pos (digits2_pos my) ≤ 53) as Hd by lia.
    assert (-1074 ≤ ey) by lia.
    assert (Z.pos my < 2 ^ 53) as Hmy.
    { eapply Z.lt_le_trans; [exact Hhi|]. apply Z.pow_le_mono_r; lia. }
    destruct (Z.compare_spec ey (-52)) as [->|Hlt|Hgt]; [| |done].
    + split; [lia|].
      assert (Z.pos my < 4503599627370496) as Hm.
      { assert ((my ?= 4503599627370496)%positive = Lt) as E.
        { unfold Pos.compare.
          by destruct (Pos.compare_cont Eq my 4503599627370496). }
        apply Pos.compare_lt_iff in E. by apply Pos2Z.pos_lt_pos. }
      change (-52 + 1074) with 1022.
      change (2 ^ 1074) with (2 ^ 52 * 2 ^ 1022).
      apply Z.mul_lt_mono_pos_r; [by apply pow2_pos|]. exact Hm.
    + split; [lia|].
      assert (2 ^ 1074 = 2 ^ (- 53 - ey) * (2 ^ 53 * 2 ^ (ey + 1074))) as ->.
      { rewrite <- !Z.pow_add_r by lia. f_equal. lia. }
      assert (0 < 2 ^ (ey + 1074)) by (apply pow2_pos; lia).
      assert (0 < 2 ^ (- 53 - ey)) by (apply pow2_pos; lia).
      assert (Z.pos my * 2 ^ (ey + 1074) < 2 ^ 53 * 2 ^ (ey + 1074))
        by (apply Z.mul_lt_mono_pos_r; lia).
      nia.
Qed.

(** The product of an integer below 2^53 and of a binary64 value strictly
    between 0 and 1 has its floor between 0 and the integer. *)
Lemma SFmul_fraction_floor (n : Z) (R : spec_float) :
  0 ≤ n < 2 ^ 53 →
  valid_binary R = true →
  SFltb (S754_zero false) R = true →
  SFltb R (S754_finite false 4503599627370496 (-52)) = true →
  ∃ k, SFfloor (SF64mul (binary_normalize prec emax n 0 false) R) = FInt k
       ∧ 0 ≤ k ≤ n.
Proof.
  intros Hn Hv H0 H1.
  destruct (fraction_form R Hv H0 H1) as (my & ey & -> & Hey & Hmy).
  destruct (Z.eq_dec n 0) as [->|Hn0].
  - exists 0. split; [done|lia].
  - destruct (binary_normalize_integer n) as (mx & ex & -> & Hex & Hmx); [lia|].
    unfold SF64mul, SFmul. cbn [xorb].
    apply binary_round_aux_le; [lia|lia|].
    rewrite Pos2Z.inj_mul, Hmx.
    assert (2 ^ (ex + ey + 1200) = 2 ^ (ex + 52) * 2 ^ (ey + 1074) * 2 ^ 74) as ->.
    { rewrite <- !Z.pow_add_r by lia. f_equal. lia. }
    assert (2 ^ 1200 = 2 ^ (- ex) * 2 ^ (ex + 52) * 2 ^ 1074 * 2 ^ 74) as ->.
    { rewrite <- !Z.pow_add_r by lia. f_equal. lia. }
    assert (0 < 2 ^ (- ex)) by (apply pow2_pos; lia).
    assert (0 < 2 ^ (ex + 52)) by (apply pow2_pos; lia).
    assert (0 < 2 ^ 74) by (by apply pow2_pos).
    assert (0 < n * 2 ^ (- ex) * 2 ^ (ex + 52) * 2 ^ 74) as Hpos.
    { repeat apply Z.mul_pos_pos; lia. }
    replace (n * 2 ^ (- ex) * Z.pos my * (2 ^ (ex + 52) * 2 ^ (ey + 1074) * 2 ^ 74))
      with (n * 2 ^ (- ex) * 2 ^ (ex + 52) * 2 ^ 74 * (Z.pos my * 2 ^ (ey + 1074)))
      by ring.
    replace (n * (2 ^ (- ex) * 2 ^ (ex + 52) * 2 ^ 1074 * 2 ^ 74))
      with (n * 2 ^ (- ex) * 2 ^ (ex + 52) * 2 ^ 74 * 2 ^ 1074) by ring.
    by apply Z.mul_lt_mono_pos_l.
Qed.

Lemma Math_floor_SFfloor (x : float) : Math_floor x = SFfloor (Prim2SF x).
Proof. done. Qed.

Lemma Prim2SF_length_number {A} (l : list A) :
  Z.of_nat (length l) < 2 ^ 53 →
  Prim2SF (length_number l)
  = binary_normalize prec emax (Z.of_nat (length l)) 0 false.
Proof.
  intros Hl. unfold length_number. rewrite of_uint63_spec.
  rewrite Uint63.of_Z_spec, Z.mod_small; [done|].
  split; [lia|]. eapply Z.lt_trans; [exact Hl|]. done.
Qed.

(** For an array of fewer than 2^53 elements and a ratio strictly between
    0 and 1, [Math.floor(length * ratio)] is a position of the array. *)
Lemma Math_floor_fraction {A} (l : list A) (ratio : float) :
  Z.of_nat (length l) < 2 ^ 53 →
  PrimFloat.ltb 0 ratio = true → PrimFloat.ltb ratio 1 = true →
  ∃ k : nat,
    Math_floor (PrimFloat.mul (length_number l) ratio) = FInt (Z.of_nat k)
    ∧ (k ≤ length l)%nat.
Proof.
  intros Hl H0 H1.
  rewrite ltb_spec in H0, H1.
  destruct (SFmul_fraction_floor (Z.of_nat (length l)) (Prim2SF ratio))
    as (k & Hk & Hk0 & Hkn); [lia|apply Prim2SF_valid|exact H0|exact H1|].
  exists (Z.to_nat k). split; [|lia].
  rewrite Math_floor_SFfloor, mul_spec, Prim2SF_length_number, Hk by done.
  f_equal. lia.
Qed.
End binary64_floor.

(** ** DataLoader.splitData and MNISTDataLoader.splitTrainVal *)

Lemma slice_to_nat {A} (l : list A) (k : nat) :
  k ≤ length l → slice_to (FInt (Z.of_nat k)) l = take k l.
Proof.
  intros Hk. unfold slice_to. simpl. rewrite relative_index_nat.
  rewrite Nat.sub_0_r. f_equal. lia.
Qed.

Lemma slice_from_nat {A} (l : list A) (k : nat) :
  k ≤ length l → slice_from (FInt (Z.of_nat k)) l = drop k l.
Proof.
  intros Hk. unfold slice_from. simpl. rewrite relative_index_nat.
  replace (k `min` length l) with k by lia.
  apply take_ge. rewrite length_drop. lia.
Qed.

Lemma tf_slice_prefix {A} (l : list A) (n : nat) :
  n ≤ length l → tf_slice 0 (Z.of_nat n) l = Some (take n l).
Proof.
  intros Hn. unfold tf_slice. rewrite decide_True by lia.
  by rewrite Nat2Z.id.
Qed.

Lemma tf_slice_suffix {A} (l : list A) (n v : nat) :
  n + v = length l →
  tf_slice (Z.of_nat n) (Z.of_nat v) l = Some (drop n l).
Proof.
  intros Hn. unfold tf_slice. rewrite decide_True by lia.
  rewrite !Nat2Z.id. f_equal. apply take_ge. rewrite length_drop. lia.
Qed.

(** The cut of [splitData] at a position [k] of the sequence. *)
Lemma splitData_at {A B : Type} (samples : list A) (targets : list B)
    (splitRatio : float) (k : nat) :
  length samples = length targets →
  splitIndex samples splitRatio = FInt (Z.of_nat k) →
  k ≤ length samples →
  splitData samples targets splitRatio
  = mkSplit (take k samples) (take k targets) (drop k samples) (drop k targets).
Proof.
  intros Hlen Hk Hle. unfold splitData. rewrite Hk.
  by rewrite !slice_to_nat, !slice_from_nat by lia.
Qed.

(** The cut of [splitTrainVal] when [numVal] examples are held out. *)
Lemma splitTrainVal_at {A B : Type} (xs : list A) (ys : list B)
    (valRatio : float) (numVal : nat) :
  length xs = length ys →
  Math_floor (PrimFloat.mul (length_number xs) valRatio) = FInt (Z.of_nat numVal) →
  numVal ≤ length xs →
  splitTrainVal xs ys valRatio
  = Some (mkTrainVal (take (length xs - numVal) xs) (take (length xs - numVal) ys)
                     (drop (length xs - numVal) xs) (drop (length xs - numVal) ys)).
Proof.
  intros Hlen Hv Hle. unfold splitTrainVal. rewrite Hv.
  replace (Z.of_nat (length xs) - Z.of_nat numVal)%Z
    with (Z.of_nat (length xs - numVal)) by lia.
  rewrite !tf_slice_prefix by lia. simpl.
  by rewrite !tf_slice_suffix by lia.
Qed.

(** Whatever the ratio, [splitData] cuts the two sequences at one place
    and keeps their order. *)
Lemma splitData_app {A B : Type} (samples : list A) (targets : list B)
    (splitRatio : float) :
  X_train (splitData samples targets splitRatio)
  ++ X_test (splitData samples targets splitRatio) = samples
  ∧ y_train (splitData samples targets splitRatio)
    ++ y_test (splitData samples targets splitRatio) = targets.
Proof.
  unfold splitData, slice_to, slice_from. simpl.
  rewrite !Nat.sub_0_r, !drop_0.
  split.
  - rewrite (take_ge (drop _ samples)) by (rewrite length_drop; lia).
    apply take_drop.
  - rewrite (take_ge (drop _ targets)) by (rewrite length_drop; lia).
    apply take_drop.
Qed.

(** C8 (amended).  For sequences of one length (below 2^53, as the length
    of every array is) and a binary64 ratio strictly between 0 and 1:
    [splitData] cuts at [k = Math.floor(N * splitRatio)], which is at most
    [N]; the train arrays are the first [k] samples and targets, the test
    arrays the remaining [N - k], in their order.  [splitTrainVal] holds
    out [numVal = Math.floor(N * valRatio)] examples: the train tensors are
    the first [N - numVal] examples, the validation tensors the last
    [numVal].  In both the first part followed by the second is the input,
    so nothing is shuffled and every held-out pair comes after every train
    pair. *)
Theorem split_contiguous {A B : Type} :
  (∀ (samples : list A) (targets : list B) (splitRatio : float),
     length samples = length targets →
     (Z.of_nat (length samples) < 2 ^ 53)%Z →
     PrimFloat.ltb 0 splitRatio = true → PrimFloat.ltb splitRatio 1 = true →
     ∃ k : nat,
       splitIndex samples splitRatio = FInt (Z.of_nat k)
       ∧ k ≤ length samples
       ∧ splitData samples targets splitRatio
         = mkSplit (take k samples) (take k targets)
                   (drop k samples) (drop k targets)
       ∧ X_train (splitData samples targets splitRatio)
         ++ X_test (splitData samples targets splitRatio) = samples
       ∧ y_train (splitData samples targets splitRatio)
         ++ y_test (splitData samples targets splitRatio) = targets)
  ∧ (∀ (xs : list A) (ys : list B) (valRatio : float),
       length xs = length ys →
       (Z.of_nat (length xs) < 2 ^ 53)%Z →
       PrimFloat.ltb 0 valRatio = true → PrimFloat.ltb valRatio 1 = true →
       ∃ (numVal : nat) (r : trainVal A B),
         Math_floor (PrimFloat.mul (length_number xs) valRatio)
         = FInt (Z.of_nat numVal)
         ∧ numVal ≤ length xs
         ∧ splitTrainVal xs ys valRatio = Some r
         ∧ r = mkTrainVal (take (length xs - numVal) xs)
                          (take (length xs - numVal) ys)
                          (drop (length xs - numVal) xs)
                          (drop (length xs - numVal) ys)
         ∧ trainXs r ++ valXs r = xs
         ∧ trainYs r ++ valYs r = ys).
Proof.
  split.
  - intros samples targets splitRatio Hlen HN H0 H1.
    destruct (Math_floor_fraction samples splitRatio HN H0 H1) as (k & Hk & Hle).
    exists k. split; [exact Hk|]. split; [exact Hle|].
    split; [by apply splitData_at|]. apply splitData_app.
  - intros xs ys valRatio Hlen HN H0 H1.
    destruct (Math_floor_fraction xs valRatio HN H0 H1) as (numVal & Hv & Hle).
    exists numVal. eexists. split; [exact Hv|]. split; [exact Hle|].
    split; [by apply splitTrainVal_at|]. split; [reflexivity|].
    simpl. by rewrite !take_drop.
Qed.

Lemma split_contiguous_witness :
  (∃ k : nat,
     splitIndex (seq 0 5) ratio_0_8 = FInt (Z.of_nat k)
     ∧ k ≤ 5
     ∧ splitData (seq 0 5) (seq 10 5) ratio_0_8
       = mkSplit (take k (seq 0 5)) (take k (seq 10 5))
                 (drop k (seq 0 5)) (drop k (seq 10 5)))
  ∧ (∃ (numVal : nat) (r : trainVal nat nat),
       Math_floor (PrimFloat.mul (length_number (seq 0 15)) ratio_0_1)
       = FInt (Z.of_nat numVal)
       ∧ splitTrainVal (seq 0 15) (seq 20 15) ratio_0_1 = Some r
       ∧ trainXs r ++ valXs r = seq 0 15).
Proof.
  split.
  - destruct (proj1 (@split_contiguous nat nat) (seq 0 5) (seq 10 5) ratio_0_8)
      as (k & Hk & Hle & Hs & _).
    + reflexivity.
    + reflexivity.
    + reflexivity.
    + reflexivity.
    + exists k. split; [exact Hk|]. split; [exact Hle | exact Hs].
  - destruct (proj2 (@split_contiguous nat nat) (seq 0 15) (seq 20 15) ratio_0_1)
      as (numVal & r & Hv & _ & Hr & _ & Happ & _).
    + reflexivity.
    + reflexivity.
    + reflexivity.
    + reflexivity.
    + exists numVal, r. split; [exact Hv|]. split; [exact Hr | exact Happ].
Defined.

Example splitData_5_at_0_8 :
  splitData (seq 0 5) (seq 10 5) ratio_0_8
  = mkSplit [0; 1; 2; 3] [10; 11; 12; 13] [4] [14].
Proof. by vm_compute. Qed.

(** Fifteen examples and a ratio of 0.1: the train part of
    [splitTrainVal] has 14 examples, which is neither
    [Math.floor(15 * 0.1) = 1] nor [Math.floor(15 * 0.9) = 13]. *)
Lemma splitTrainVal_not_floor :
  Math_floor (PrimFloat.mul (length_number (seq 0 15)) ratio_0_1) = FInt 1
  ∧ Math_floor (PrimFloat.mul (length_number (seq 0 15)) ratio_0_9) = FInt 13
  ∧ (trainXs <$> splitTrainVal (seq 0 15) (seq 20 15) ratio_0_1)
    = Some (seq 0 14).
Proof. vm_compute. done. Qed.

(** ** GRUModel.calculatePerStockAccuracy *)

(** A prediction of exactly 0.5 is classified as 0, one just above as 1. *)
Example predVal_threshold :
  predVal [0.5%float] 0 = 0%float
  ∧ predVal [0x1.0000000000001p-1%float] 0 = 1%float
  ∧ predVal [PrimFloat.nan] 0 = 0%float.
Proof. by vm_compute. Qed.

(** One example, two symbols and two horizons: each symbol is right on one
    of its two cells. *)
Example calculatePerStockAccuracy_half :
  calculatePerStockAccuracy
    [[1; 0; 1; 1]%float] [[0.5; 0.25; 0.75; 0.25]%float] ["AAPL"; "MSFT"] 2
  = Some {[ "AAPL" := 0.5%float; "MSFT" := 0.5%float ]}.
Proof. by vm_compute. Qed.

(** C6.  Without an example the two loops do not run, both counters
    stay 0 and the accuracy reported for the symbol is NaN, the quotient
    of 0 by 0, which is not a ratio in [0, 1]. *)
Theorem calculatePerStockAccuracy_empty :
  calculatePerStockAccuracy [] [] ["AAPL"] 3 = Some {[ "AAPL" := PrimFloat.nan ]}.
Proof. vm_compute. reflexivity. Qed.

(** ** MNISTApp.createConfusionMatrix *)

Lemma sum_list_insert (l : list nat) (i x y : nat) :
  l !! i = Some x → sum_list (<[i := y]> l) + x = sum_list l + y.
Proof.
  revert i. induction l as [|a l IH]; intros i Hi; [done|].
  destruct i as [|i]; simpl in *.
  - simplify_eq. lia.
  - specialize (IH i Hi). lia.
Qed.

Lemma row_incr_count (pred : nat) (r : list cell) :
  pred < length r → forallb is_count r = true →
  length (row_incr pred r) = length r
  ∧ forallb is_count (row_incr pred r) = true
  ∧ row_sum (row_incr pred r) = S (row_sum r).
Proof.
  intros Hp Hr. unfold row_incr.
  destruct (lookup_lt_is_Some_2 r pred Hp) as [c Hc]. rewrite Hc.
  assert (is_count c = true) as Hcc.
  { rewrite forallb_forall in Hr. apply Hr, list_elem_of_In.
    by eapply list_elem_of_lookup_2. }
  destruct c as [n| |]; try done. simpl.
  split; [by rewrite length_insert|]. split.
  - rewrite forallb_forall in Hr |- *. intros x Hx.
    apply list_elem_of_In, list_elem_of_lookup in Hx as [j Hj].
    destruct (decide (j = pred)) as [->|Hne].
    + rewrite list_lookup_insert_eq in Hj by done. by simplify_eq.
    + rewrite list_lookup_insert_ne in Hj by done.
      apply Hr, list_elem_of_In. by eapply list_elem_of_lookup_2.
  - unfold row_sum. rewrite list_fmap_insert.
    pose proof (sum_list_insert (cell_count <$> r) pred n (S n)) as Hs.
    rewrite list_lookup_fmap, Hc in Hs. specialize (Hs eq_refl).
    cbn [cell_count]. lia.
Qed.

Lemma class_count_cons (i t : nat) (trueArray : list nat) :
  class_count i (t :: trueArray)
  = (if decide (t = i) then 1 else 0) + class_count i trueArray.
Proof.
  unfold class_count. rewrite filter_cons. by destruct (decide (t = i)).
Qed.

(** The loop keeps a matrix of counts and adds each example to the row of
    its true class. *)
Lemma fill_matrix_counts (predArray trueArray : list nat) (matrix : list (list cell)) :
  length predArray = length trueArray →
  Forall (λ p, p < 10) predArray → Forall (λ t, t < 10) trueArray →
  count_matrix 10 matrix →
  ∃ matrix',
    fill_matrix predArray trueArray matrix = Some matrix'
    ∧ count_matrix 10 matrix'
    ∧ (∀ i r, matrix !! i = Some r →
         ∃ r', matrix' !! i = Some r'
               ∧ row_sum r' = row_sum r + class_count i trueArray)
    ∧ matrix_sum matrix' = matrix_sum matrix + length predArray.
Proof.
  revert trueArray matrix.
  induction predArray as [|pred predArray IH]; intros trueArray matrix Hlen Hp Ht Hm.
  - destruct trueArray; [|done]. exists matrix.
    split; [done|]. split; [done|]. split; [|simpl; lia].
    intros i r Hr. exists r. split; [done|]. unfold class_count. simpl. lia.
  - destruct trueArray as [|trueVal trueArray]; [done|].
    simpl in Hlen. injection Hlen as Hlen.
    apply Forall_cons in Hp as [Hpred Hp]. apply Forall_cons in Ht as [Htrue Ht].
    destruct Hm as [Hrows Hall].
    destruct (lookup_lt_is_Some_2 matrix trueVal) as [r0 Hr0]; [lia|].
    pose proof (proj1 (Forall_lookup _ _) Hall trueVal r0 Hr0) as [Hr0len Hr0c].
    destruct (row_incr_count pred r0) as (Hl1 & Hc1 & Hs1); [lia|done|].
    assert (count_matrix 10 (<[trueVal := row_incr pred r0]> matrix)) as Hm'.
    { split; [by rewrite length_insert|].
      apply Forall_insert; [done|]. split; [lia|done]. }
    destruct (IH trueArray _ Hlen Hp Ht Hm') as (matrix' & Hfill & Hcm & Hrow & Hsum).
    exists matrix'. simpl. unfold matrix_incr. rewrite Hr0. simpl.
    split; [done|]. split; [done|]. split.
    + intros i r Hr. rewrite class_count_cons.
      destruct (decide (trueVal = i)) as [->|Hne].
      * destruct (Hrow i (row_incr pred r0)) as (r' & Hr' & Hs').
        { rewrite list_lookup_insert_eq; [done|]. by eapply lookup_lt_Some. }
        exists r'. split; [done|]. simplify_eq. lia.
      * destruct (Hrow i r) as (r' & Hr' & Hs').
        { by rewrite list_lookup_insert_ne. }
        exists r'. split; [done|]. lia.
    + rewrite Hsum. unfold matrix_sum. rewrite list_fmap_insert.
      pose proof (sum_list_insert (row_sum <$> matrix) trueVal (row_sum r0)
                    (row_sum (row_incr pred r0))) as Hs.
      rewrite list_lookup_fmap, Hr0 in Hs. specialize (Hs eq_refl). lia.
Qed.

Lemma count_matrix_zero : count_matrix 10 (replicate 10 (replicate 10 (Count 0))).
Proof. split; [done|]. repeat constructor. Qed.

(** C7.  For label arrays of one length with all labels below 10, the
    number of classes of the matrix, [createConfusionMatrix] returns a
    10 x 10 matrix of counts in which the sum of row [i] is the number of
    examples whose true class is [i], and the sum of all cells is the
    number of examples. *)
Theorem createConfusionMatrix_sums (predArray trueArray : list nat) :
  length predArray = length trueArray →
  Forall (λ p, p < 10) predArray → Forall (λ t, t < 10) trueArray →
  ∃ matrix,
    createConfusionMatrix predArray trueArray = Some matrix
    ∧ count_matrix 10 matrix
    ∧ (∀ i, i < 10 →
         ∃ r, matrix !! i = Some r ∧ row_sum r = class_count i trueArray)
    ∧ matrix_sum matrix = length predArray.
Proof.
  intros Hlen Hp Ht.
  destruct (fill_matrix_counts predArray trueArray _ Hlen Hp Ht count_matrix_zero)
    as (matrix & Hfill & Hcm & Hrow & Hsum).
  exists matrix. split; [done|]. split; [done|]. split; [|done].
  intros i Hi.
  destruct (Hrow i (replicate 10 (Count 0))) as (r & Hr & Hs).
  { apply lookup_replicate_2. lia. }
  exists r. split; [done|]. rewrite Hs.
  done.
Qed.

Lemma createConfusionMatrix_sums_witness :
  ∃ matrix,
    createConfusionMatrix [1; 2; 3] [1; 2; 2] = Some matrix
    ∧ count_matrix 10 matrix
    ∧ (∀ i, i < 10 →
         ∃ r, matrix !! i = Some r ∧ row_sum r = class_count i [1; 2; 2])
    ∧ matrix_sum matrix = 3.
Proof.
  apply (createConfusionMatrix_sums [1; 2; 3] [1; 2; 2]).
  - reflexivity.
  - repeat constructor; lia.
  - repeat constructor; lia.
Defined.

(** ** MNISTDataLoader.loadCSVFile *)

Lemma String_split_length (sep : ascii) (s : string) :
  0 < length (String_split sep s).
Proof.
  induction s as [|c s IH]; simpl; [lia|].
  destruct (Ascii.eqb c sep); simpl; [lia|].
  destruct (String_split sep s); simpl in *; lia.
Qed.

Lemma white_space_not_comma (c : ascii) :
  is_white_space c = true → Ascii.eqb c ","%char = false.
Proof.
  destruct c as [[] [] [] [] [] [] [] []]; vm_compute; congruence.
Qed.

(** A blank line is one cell. *)
Lemma blank_one_field (line : string) :
  trim_nonempty line = false → length (fields line) = 1.
Proof.
  unfold fields. induction line as [|c line IH]; simpl; [done|].
  destruct (is_white_space c) eqn:Hc; [|done].
  intros Hb. rewrite (white_space_not_comma c Hc).
  specialize (IH Hb). destruct (String_split "," line) as [|w ws]; simpl in *; lia.
Qed.

Lemma omap_cons {A B} (f : A → option B) (x : A) (l : list A) :
  omap f (x :: l)
  = match f x with Some y => y :: omap f l | None => omap f l end.
Proof. done. Qed.

Section ingestion.
Variable Number : string → float.

Lemma parse_line_spec (line : string) :
  parse_line Number line
  = if decide (length (fields line) = 785) then Some (record_of Number line)
    else None.
Proof.
  unfold parse_line, record_of, fields. rewrite length_map.
  destruct (decide (length (String_split "," line) = 785)) as [Heq|Hne].
  - rewrite decide_False by lia.
    destruct (String_split "," line) as [|f fs]; [done|]. done.
  - by rewrite decide_True.
Qed.

(** The records are those of the lines of 785 cells, in their order; the
    filter of blank lines removes none of them. *)
Lemma records_of_lines (L : list string) :
  omap (parse_line Number) (filter (λ line, trim_nonempty line = true) L)
  = map (record_of Number) (filter (λ line, length (fields line) = 785) L).
Proof.
  induction L as [|line L IH]; [done|].
  rewrite !filter_cons.
  destruct (decide (trim_nonempty line = true)) as [Ht|Ht].
  - rewrite omap_cons, parse_line_spec, IH.
    by destruct (decide (length (fields line) = 785)).
  - rewrite IH. apply not_true_is_false in Ht.
    rewrite decide_False; [done|]. rewrite (blank_one_field line Ht). lia.
Qed.

(** C5 (amended).  The records that [loadCSVFile] keeps are those of
    the lines with exactly 785 cells, numeric or not, in the order of the
    text; every other line is dropped, blank lines among them; and the
    promise is rejected exactly when no line has 785 cells. *)
Theorem loadCSVFile_field_count (content : string) :
  let rows := filter (λ line, length (fields line) = 785)
                     (String_split "010"%char content) in
  loadCSVFile Number content
  = if decide (rows = []) then Reject "No valid data found in file"
    else Resolve (mkDigits (map (λ line, Number (hd EmptyString (fields line))) rows)
                           (map (λ line, map Number (tl (fields line))) rows)
                           (length rows)).
Proof.
  intros rows. unfold loadCSVFile, lines. rewrite records_of_lines. fold rows.
  rewrite ?length_fmap, ?length_map.
  destruct (decide (rows = [])) as [->|Hne].
  - done.
  - rewrite decide_False by (by destruct rows).
    f_equal. f_equal.
    + rewrite <- list_fmap_compose. done.
    + rewrite <- list_fmap_compose. done.
Qed.
End ingestion.

(** A header line has 785 cells and none is numeric: no row of the text
    is well formed, and the loader resolves with one record. *)
Lemma loadCSVFile_keeps_header :
  filter (λ line, well_formed_row Number_digits line = true)
         (String_split "010"%char header_line) = []
  ∧ ∃ d, loadCSVFile Number_digits header_line = Resolve d ∧ count d = 1
         ∧ length (labels d) = 1.
Proof.
  split.
  - vm_compute. reflexivity.
  - eexists. split; [vm_compute; reflexivity|]. split; reflexivity.
Qed.

(** * DataLoader.parseCSV *)

Lemma trim_start_empty (s : string) :
  trim_start s = EmptyString ↔ trim_nonempty s = false.
Proof.
  induction s as [|c s IH]; simpl; [done|].
  destruct (is_white_space c); [done|]. split; discriminate.
Qed.

Lemma trim_end_empty (s : string) :
  trim_end s = EmptyString ↔ trim_nonempty s = false.
Proof.
  induction s as [|c s IH]; simpl; [done|].
  destruct (trim_end s) as [|c' t].
  - destruct (is_white_space c); [tauto|]. split; discriminate.
  - destruct (is_white_space c); [|split; discriminate].
    split; [discriminate|]. intros Hs. apply IH in Hs. discriminate.
Qed.

Lemma trim_start_nonempty (s : string) :
  trim_nonempty (trim_start s) = trim_nonempty s.
Proof.
  induction s as [|c s IH]; simpl; [done|].
  destruct (is_white_space c) eqn:Hc; [done|]. simpl. by rewrite Hc.
Qed.

(** [line.trim()] is truthy exactly if [line.trim() !== '']. *)
Lemma String_trim_truthy (s : string) :
  String_trim s ≠ EmptyString ↔ trim_nonempty s = true.
Proof.
  unfold String_trim. rewrite trim_end_empty, trim_start_nonempty.
  by destruct (trim_nonempty s).
Qed.

Lemma parseCSV_lines (csv : string) :
  filter (λ line, String_trim line ≠ EmptyString) (String_split "010"%char csv)
  = lines csv.
Proof. unfold lines. apply list_filter_iff. intros line. apply String_trim_truthy. Qed.

Lemma zip_seq_snoc {A} (l : list A) (x : A) :
  zip (seq 0 (length (l ++ [x]))) (l ++ [x])
  = zip (seq 0 (length l)) l ++ [(length l, x)].
Proof.
  rewrite length_app. simpl. rewrite seq_app. simpl.
  rewrite zip_with_app by (by rewrite length_seq). done.
Qed.

Lemma row_of_values_snoc (headers values : list string) (header : string) :
  row_of_values (headers ++ [header]) values
  = if decide (header = "__proto__") then row_of_values headers values
    else <[header := values !! length headers]> (row_of_values headers values).
Proof. unfold row_of_values. by rewrite zip_seq_snoc, foldl_app. Qed.

(** The keys of the object are the header names. *)
Lemma row_of_values_None (headers values : list string) (h : string) :
  row_of_values headers values !! h = None ↔ h ∉ headers ∨ h = "__proto__".
Proof.
  induction headers as [|x headers IH] using rev_ind.
  - split; [|done]. intros _. left. apply not_elem_of_nil.
  - rewrite row_of_values_snoc, not_elem_of_app, list_elem_of_singleton.
    destruct (decide (x = "__proto__")) as [->|Hx].
    + rewrite IH. destruct (decide (h = "__proto__")); tauto.
    + destruct (decide (x = h)) as [->|Hne].
      * rewrite lookup_insert_eq. split; [done|]. intros [[_ ?]|?]; congruence.
      * rewrite lookup_insert_ne by done. rewrite IH.
        split; (intros [?|?]; [left|right]); [split| |tauto|]; congruence.
Qed.

(** The value under a header name is the cell at the last position of the
    name among the headers. *)
Lemma row_of_values_lookup (headers values : list string) (j : nat) (h : string) :
  headers !! j = Some h → h ≠ "__proto__" →
  (∀ j', j < j' → headers !! j' ≠ Some h) →
  row_of_values headers values !! h = Some (values !! j).
Proof.
  induction headers as [|x headers IH] using rev_ind; [done|].
  intros Hj Hh Hlast. rewrite row_of_values_snoc.
  destruct (decide (j = length headers)) as [->|Hne].
  - rewrite lookup_app_r, Nat.sub_diag in Hj by lia. simpl in Hj. simplify_eq.
    rewrite decide_False by done. by rewrite lookup_insert_eq.
  - assert (j < length headers) as Hlt.
    { apply lookup_lt_Some in Hj. rewrite length_app in Hj. simpl in Hj. lia. }
    rewrite lookup_app_l in Hj by done.
    assert (x ≠ h) as Hx.
    { intros ->. apply (Hlast (length headers)); [done|].
      rewrite lookup_app_r, Nat.sub_diag by lia. done. }
    assert (row_of_values headers values !! h = Some (values !! j)) as IH'.
    { apply IH; [done|done|]. intros j' Hj' Hc. apply (Hlast j' Hj').
      rewrite lookup_app_l; [done|]. by eapply lookup_lt_Some. }
    destruct (decide (x = "__proto__")); [done|].
    by rewrite lookup_insert_ne.
Qed.

(** X1.  The promise of [parseCSV] is rejected exactly if no line of the
    text has a character that is not white space; otherwise it resolves
    with one row for every such line after the first of them, the header
    line: blank lines are skipped, and a text with the header line alone
    resolves with no row. *)
Theorem parseCSV_rows (csv : string) :
  (parseCSV csv = None ↔ lines csv = [])
  ∧ (∀ data, parseCSV csv = Some data → S (length data) = length (lines csv)).
Proof.
  unfold parseCSV. rewrite parseCSV_lines.
  destruct (lines csv) as [|line0 rest]; split; try done.
  intros data [= <-]. simpl. by rewrite length_map.
Qed.

(** X2.  Every row that [parseCSV] resolves with has the trimmed cells of
    the header line as its keys, whatever the number of cells of its own
    line (the name [__proto__] apart, which is never a key). *)
Theorem parseCSV_keys (csv header : string) (body : list string)
    (data : list csv_row) (i : nat) (row : csv_row) (h : string) :
  lines csv = header :: body →
  parseCSV csv = Some data →
  data !! i = Some row →
  is_Some (row !! h)
  ↔ h ∈ map String_trim (fields header) ∧ h ≠ "__proto__".
Proof.
  unfold parseCSV. rewrite parseCSV_lines. intros -> [= <-] Hi.
  apply list_lookup_fmap_Some in Hi as (line & -> & _).
  rewrite <- not_eq_None_Some, row_of_values_None. unfold fields.
  destruct (decide (h ∈ map String_trim (String_split "," header)));
    destruct (decide (h = "__proto__")); tauto.
Qed.

(** X3.  In the row of the [i]-th line after the header line the value
    under a header name is the trimmed cell of that line at the position
    of the name in the header line, the last such position if the name
    repeats; it is [undefined] if the line has no cell there; and the cells
    of the line beyond the header names are in no value. *)
Theorem parseCSV_cell (csv header : string) (body : list string)
    (data : list csv_row) (i j : nat) (line h : string) :
  lines csv = header :: body →
  parseCSV csv = Some data →
  body !! i = Some line →
  map String_trim (fields header) !! j = Some h →
  h ≠ "__proto__" →
  (∀ j', j < j' → map String_trim (fields header) !! j' ≠ Some h) →
  ∃ row, data !! i = Some row
         ∧ row !! h = Some (map String_trim (fields line) !! j).
Proof.
  unfold parseCSV. rewrite parseCSV_lines. intros -> [= <-] Hi Hj Hh Hlast.
  eexists. split.
  - rewrite list_lookup_fmap, Hi. reflexivity.
  - by apply row_of_values_lookup.
Qed.

Lemma parseCSV_keys_witness :
  is_Some (row_of_values ["Date"; "Symbol"; "Open"; "Close"]
             ["2024-01-03"; "MSFT"; "3"] !! "Close")
  ↔ "Close" ∈ map String_trim (fields "Date, Symbol,Open,Close")
    ∧ "Close" ≠ "__proto__".
Proof.
  apply (parseCSV_keys quotes_csv "Date, Symbol,Open,Close"
           ["2024-01-02,AAPL, 1 ,2"; "2024-01-03,MSFT,3"]
           (default [] (parseCSV quotes_csv)) 1).
  - vm_compute. reflexivity.
  - vm_compute. reflexivity.
  - vm_compute. reflexivity.
Defined.

Lemma parseCSV_cell_witness :
  ∃ row, default [] (parseCSV quotes_csv) !! 1 = Some row
         ∧ row !! "Close" = Some (map String_trim (fields "2024-01-03,MSFT,3") !! 3).
Proof.
  apply (parseCSV_cell quotes_csv "Date, Symbol,Open,Close"
           ["2024-01-02,AAPL, 1 ,2"; "2024-01-03,MSFT,3"]
           (default [] (parseCSV quotes_csv)) 1 3 "2024-01-03,MSFT,3" "Close").
  - vm_compute. reflexivity.
  - vm_compute. reflexivity.
  - reflexivity.
  - reflexivity.
  - discriminate.
  - intros j' Hj'. do 4 (destruct j' as [|j']; [lia|]). discriminate.
Defined.

Example parseCSV_quotes :
  parseCSV quotes_csv
  = Some [ {[ "Date" := Some "2024-01-02"; "Symbol" := Some "AAPL";
              "Open" := Some "1"; "Close" := Some "2" ]};
           {[ "Date" := Some "2024-01-03"; "Symbol" := Some "MSFT";
              "Open" := Some "3"; "Close" := None ]} ].
Proof. vm_compute. reflexivity. Qed.

(** ** The text of a table and its reading *)

Lemma String_split_plain (sep : ascii) (s : string) :
  has_char sep s = false → String_split sep s = [s].
Proof.
  induction s as [|c s IH]; simpl; [done|].
  intros [Hc Hs]%orb_false_iff. rewrite Hc, (IH Hs). done.
Qed.

Lemma String_split_app (sep : ascii) (a b : string) :
  has_char sep a = false →
  String_split sep (a ++ String sep b) = a :: String_split sep b.
Proof.
  induction a as [|c a IH]; simpl.
  - intros _. by rewrite Ascii.eqb_refl.
  - intros [Hc Ha]%orb_false_iff. rewrite Hc, (IH Ha). done.
Qed.

Lemma String_concat_cons (sep x : string) (y : string) (l : list string) :
  String.concat sep (x :: y :: l) = (x ++ sep ++ String.concat sep (y :: l))%string.
Proof. done. Qed.

Lemma String_split_concat (sep : ascii) (l : list string) :
  l ≠ [] → Forall (λ s, has_char sep s = false) l →
  String_split sep (String.concat (String sep EmptyString) l) = l.
Proof.
  induction l as [|x l IH]; [done|]. intros _ Hl.
  apply Forall_cons in Hl as [Hx Hl].
  destruct l as [|y l].
  - simpl. by apply String_split_plain.
  - rewrite String_concat_cons.
    change (String sep EmptyString +:+ ?t) with (String sep t).
    rewrite String_split_app by done. f_equal. by apply IH.
Qed.

Lemma has_char_app (x : ascii) (a b : string) :
  has_char x (a ++ b) = has_char x a || has_char x b.
Proof. induction a as [|c a IH]; simpl; [done|]. by rewrite IH, orb_assoc. Qed.

Lemma has_char_concat (x : ascii) (sep : string) (l : list string) :
  has_char x sep = false → Forall (λ s, has_char x s = false) l →
  has_char x (String.concat sep l) = false.
Proof.
  intros Hsep. induction l as [|a l IH]; [done|]. intros Hl.
  apply Forall_cons in Hl as [Ha Hl].
  destruct l as [|b l]; [done|].
  rewrite String_concat_cons, !has_char_app, Ha, Hsep. simpl. by apply IH.
Qed.

Lemma trim_nonempty_has_char (x : ascii) (s : string) :
  is_white_space x = false → has_char x s = true → trim_nonempty s = true.
Proof.
  intros Hx. induction s as [|c s IH]; simpl; [done|].
  destruct (Ascii.eqb_spec c x) as [->|Hne]; simpl.
  - by rewrite Hx.
  - intros Hs. destruct (is_white_space c); [by apply IH|done].
Qed.

(** A line of two cells or more has a comma. *)
Lemma has_comma (cells : list string) :
  2 ≤ length cells → has_char ","%char (String.concat "," cells) = true.
Proof.
  destruct cells as [|a [|b l]]; simpl length; try lia. intros _.
  rewrite String_concat_cons, has_char_app. simpl. by rewrite orb_true_r.
Qed.

Lemma filter_Forall {A} (P : A → Prop) `{∀ x, Decision (P x)} (l : list A) :
  Forall P l → filter P l = l.
Proof.
  induction 1 as [|x l Hx Hl IH]; [done|].
  rewrite filter_cons, decide_True by done. by rewrite IH.
Qed.

Lemma row_of_values_table (headers cells : list string) :
  NoDup headers → "__proto__" ∉ headers → length cells = length headers →
  row_of_values headers cells = list_to_map (zip headers (Some <$> cells)).
Proof.
  intros Hnd Hp Hlen. apply map_eq. intros h.
  assert (NoDup (zip headers (Some <$> cells)).*1) as Hnd'.
  { rewrite fst_zip; [done|]. rewrite length_fmap. lia. }
  destruct (decide (h ∈ headers)) as [Hin|Hin].
  - apply list_elem_of_lookup in Hin as [j Hj].
    destruct (lookup_lt_is_Some_2 cells j) as [c Hc].
    { rewrite Hlen. by eapply lookup_lt_Some. }
    rewrite (row_of_values_lookup headers cells j h Hj).
    + symmetry. apply elem_of_list_to_map; [done|].
      apply list_elem_of_lookup. exists j.
      rewrite lookup_zip_with, Hj, list_lookup_fmap, Hc. done.
    + intros ->. apply Hp. by eapply list_elem_of_lookup_2.
    + intros j' Hj' Hc'. pose proof (NoDup_lookup _ _ _ _ Hnd Hj Hc'). lia.
  - rewrite (proj2 (row_of_values_None headers cells h)) by (by left).
    symmetry. apply not_elem_of_list_to_map.
    rewrite fst_zip; [done|]. rewrite length_fmap. lia.
Qed.

(** X4.  Reading back the text of a table: for distinct header names, two
    or more, and rows of as many cells, all cells plain, [parseCSV] of the
    text of the table resolves with one object a row, which maps every
    header name to the cell of the row in its column. *)
Theorem parseCSV_csv_text (headers : list string) (rows : list (list string)) :
  2 ≤ length headers → NoDup headers → "__proto__" ∉ headers →
  Forall (λ cells, length cells = length headers) rows →
  Forall (Forall plain_cell) (headers :: rows) →
  parseCSV (csv_text (headers :: rows))
  = Some (map (λ cells, list_to_map (zip headers (Some <$> cells))) rows).
Proof.
  intros H2 Hnd Hp Hlen Hplain.
  assert (Forall (λ cells, length cells = length headers) (headers :: rows)) as Hlen'.
  { by constructor. }
  assert (∀ cells, cells ∈ headers :: rows →
            map String_trim (String_split ","%char (String.concat "," cells)) = cells
            ∧ trim_nonempty (String.concat "," cells) = true
            ∧ has_char "010"%char (String.concat "," cells) = false) as Hline.
  { intros cells Hin.
    pose proof (proj1 (Forall_forall _ _) Hplain cells Hin) as Hc.
    pose proof (proj1 (Forall_forall _ _) Hlen' cells Hin) as Hl. simpl in Hl.
    split; [|split].
    - rewrite (String_split_concat ","%char cells).
      + apply list_eq. intros j. rewrite list_lookup_fmap.
        destruct (cells !! j) as [c|] eqn:Ej; [|done]. simpl. f_equal.
        by apply (proj1 (Forall_lookup _ _) Hc j c Ej).
      + destruct cells; simpl in *; [lia|done].
      + eapply Forall_impl; [exact Hc|]. by intros c (_ & ? & _).
    - apply (trim_nonempty_has_char ","%char); [done|]. apply has_comma. lia.
    - apply has_char_concat; [done|].
      eapply Forall_impl; [exact Hc|]. by intros c (_ & _ & ?). }
  unfold parseCSV. rewrite parseCSV_lines. unfold lines, csv_text.
  rewrite String_split_concat.
  - rewrite filter_Forall.
    + rewrite map_cons.
      rewrite (proj1 (Hline headers ltac:(left))).
      f_equal. rewrite map_map. apply map_ext_in. intros cells Hin.
      apply list_elem_of_In in Hin.
      rewrite (proj1 (Hline cells ltac:(by right))).
      apply row_of_values_table; [done|done|].
      by apply (proj1 (Forall_forall _ _) Hlen cells).
    + apply Forall_forall. intros line Hin.
      apply list_elem_of_In, in_map_iff in Hin as (cells & <- & Hin).
      apply list_elem_of_In in Hin. by apply Hline.
  - done.
  - apply Forall_forall. intros line Hin.
    apply list_elem_of_In, in_map_iff in Hin as (cells & <- & Hin).
    apply list_elem_of_In in Hin. by apply Hline.
Qed.

Lemma parseCSV_csv_text_witness :
  parseCSV (csv_text [ ["Date"; "Symbol"]; ["2024-01-02"; "AAPL"]; ["2024-01-03"; ""] ])
  = Some (map (λ cells, list_to_map (zip ["Date"; "Symbol"] (Some <$> cells)))
              [ ["2024-01-02"; "AAPL"]; ["2024-01-03"; ""] ]).
Proof.
  apply (parseCSV_csv_text ["Date"; "Symbol"]
           [ ["2024-01-02"; "AAPL"]; ["2024-01-03"; ""] ]).
  - simpl. lia.
  - apply (bool_decide_unpack _). by vm_compute.
  - apply (bool_decide_unpack _). by vm_compute.
  - repeat constructor.
  - repeat constructor.
Defined.

(** * The shape of the samples *)

Section shapes.
Context {N : Type} `{NumberOps N}.

Lemma length_features (nd : aligned N) (symbols : list string) (date : string) :
  length (features nd symbols date) = 2 * length symbols.
Proof.
  unfold features. induction symbols as [|s symbols IH]; [done|].
  simpl. rewrite length_app, IH. destruct (entry nd s date); simpl; lia.
Qed.

Lemma length_target (nd : aligned N) (symbols dates : list string)
    (currentDate : string) (predictionDays : nat) :
  length (target nd symbols dates currentDate predictionDays)
  = predictionDays * length symbols.
Proof.
  unfold target. generalize 1 as a.
  induction predictionDays as [|h IH]; intros a; [done|].
  simpl. rewrite length_app, length_target_offset, IH. done.
Qed.

Lemma label_bit (futureClose : N) (current : option N) :
  label futureClose current ≤ 1.
Proof. unfold label. destruct current as [c|]; [destruct (num_gt _ _)|]; lia. Qed.

Lemma target_offset_bits (nd : aligned N) (symbols dates : list string)
    (currentDate : string) (current : gmap string N) (offset : nat) :
  Forall (λ b, b ≤ 1) (target_offset nd symbols dates currentDate current offset).
Proof.
  unfold target_offset.
  repeat case_match; apply Forall_forall; intros b Hb;
    apply list_elem_of_In, in_map_iff in Hb as (x & <- & _); try lia.
  case_match; [apply label_bit | lia].
Qed.

Lemma target_bits (nd : aligned N) (symbols dates : list string)
    (currentDate : string) (predictionDays : nat) :
  Forall (λ b, b ≤ 1) (target nd symbols dates currentDate predictionDays).
Proof.
  unfold target. apply Forall_forall. intros b Hb.
  apply list_elem_of_In, in_flat_map in Hb as (offset & _ & Hb).
  apply list_elem_of_In in Hb.
  pose proof (target_offset_bits nd symbols dates currentDate
                (currentClosePrices nd symbols currentDate) offset) as Hall.
  rewrite Forall_forall in Hall. by apply Hall.
Qed.

(** The shape of every sample and of every target. *)
Lemma shape_prepareSamples (nd : aligned N) (symbols dates : list string)
    (sequenceLength predictionDays : nat) :
  let r := prepareSamples nd symbols dates sequenceLength predictionDays in
  Forall (λ s, length s = sequenceLength
               ∧ Forall (λ f, length f = 2 * length symbols) s) (samples r)
  ∧ Forall (λ t, length t = predictionDays * length symbols
                 ∧ Forall (λ b, b ≤ 1) t) (targets r).
Proof.
  simpl. split.
  - apply Forall_forall. intros s Hs.
    apply list_elem_of_In, in_map_iff in Hs as (i & <- & _).
    unfold input. split; [by rewrite length_map, length_seq|].
    apply Forall_forall. intros f Hf.
    apply list_elem_of_In, in_map_iff in Hf as (j & <- & _).
    apply length_features.
  - apply Forall_forall. intros t Ht.
    apply list_elem_of_In, in_map_iff in Ht as (i & <- & _).
    split; [apply length_target | apply target_bits].
Qed.

(** X5.  Whatever its arguments, [prepareSamples] returns as many targets
    as samples; every sample is a matrix of [sequenceLength] rows of two
    numbers a symbol; and every target is a vector of [predictionDays]
    blocks of one bit a symbol, each bit 0 or 1. *)
Theorem prepareSamples_shape (nd : aligned N) (symbols dates : list string)
    (sequenceLength predictionDays : nat) :
  let r := prepareSamples nd symbols dates sequenceLength predictionDays in
  length (samples r) = length (targets r)
  ∧ Forall (λ s, length s = sequenceLength
                 ∧ Forall (λ f, length f = 2 * length symbols) s) (samples r)
  ∧ Forall (λ t, length t = predictionDays * length symbols
                 ∧ Forall (λ b, b ≤ 1) t) (targets r).
Proof.
  intros r. split; [|apply shape_prepareSamples].
  unfold r. simpl. by rewrite !length_map.
Qed.

Lemma lookup_features (nd : aligned N) (symbols : list string) (date symbol : string)
    (k : nat) :
  symbols !! k = Some symbol →
  features nd symbols date !! (2 * k)
  = Some (match entry nd symbol date with Some e => Open e | None => num_0 end)
  ∧ features nd symbols date !! (2 * k + 1)
    = Some (match entry nd symbol date with Some e => Close e | None => num_0 end).
Proof.
  unfold features. intros Hk.
  set (g := λ symbol, match entry nd symbol date with
                      | Some e => [Open e; Close e]
                      | None => [num_0; num_0]
                      end).
  assert (∀ a, length (g a) = 2) as Hg.
  { intros a. unfold g. by destruct (entry nd a date). }
  split.
  - replace (2 * k) with (k * 2 + 0) by lia.
    rewrite (lookup_flat_map_block g symbols 2 k 0 symbol Hg Hk) by lia.
    unfold g. by destruct (entry nd symbol date).
  - replace (2 * k + 1) with (k * 2 + 1) by lia.
    rewrite (lookup_flat_map_block g symbols 2 k 1 symbol Hg Hk) by lia.
    unfold g. by destruct (entry nd symbol date).
Qed.

(** X6.  The window of the anchor at position [i] holds the
    [sequenceLength] dates before the anchor date, the earliest first, and
    not the anchor date itself: its row [j] is for [dates[i - T + j]], and
    in that row the symbol at position [k] has its normalized Open in
    column [2k] and its normalized Close in column [2k + 1], or 0 in both
    when the symbol has no record at that date. *)
Theorem prepareSamples_feature (nd : aligned N) (symbols dates : list string)
    (sequenceLength predictionDays i j k : nat) (date symbol : string) :
  sequenceLength ≤ i → i + predictionDays < length dates →
  j < sequenceLength →
  dates !! (i - sequenceLength + j) = Some date →
  symbols !! k = Some symbol →
  let r := prepareSamples nd symbols dates sequenceLength predictionDays in
  feature_cell r sequenceLength i j (2 * k)
  = Some (match entry nd symbol date with Some e => Open e | None => num_0 end)
  ∧ feature_cell r sequenceLength i j (2 * k + 1)
    = Some (match entry nd symbol date with Some e => Close e | None => num_0 end).
Proof.
  intros HT Hi Hj Hd Hk r. unfold feature_cell, r.
  rewrite (prepareSamples_sample nd symbols dates sequenceLength predictionDays i)
    by done.
  cbn [mbind option_bind].
  rewrite lookup_map_seq by done. cbn [mbind option_bind].
  rewrite list_lookup_total_alt, Hd. cbn [default].
  by apply lookup_features.
Qed.
End shapes.

Lemma prepareSamples_feature_witness :
  feature_cell (prepareSamples late_listing ["AAPL"]
                  ["2024-01-01"; "2024-01-02"; "2024-01-03"; "2024-01-04"; "2024-01-05"] 2 1)
               2 3 1 0
  = Some (match entry late_listing "AAPL" "2024-01-03" with
          | Some e => Open e | None => num_0 end)
  ∧ feature_cell (prepareSamples late_listing ["AAPL"]
                  ["2024-01-01"; "2024-01-02"; "2024-01-03"; "2024-01-04"; "2024-01-05"] 2 1)
               2 3 1 1
    = Some (match entry late_listing "AAPL" "2024-01-03" with
            | Some e => Close e | None => num_0 end).
Proof.
  apply (prepareSamples_feature late_listing ["AAPL"]
           ["2024-01-01"; "2024-01-02"; "2024-01-03"; "2024-01-04"; "2024-01-05"]
           2 1 3 1 0 "2024-01-03" "AAPL").
  - lia.
  - simpl. lia.
  - lia.
  - reflexivity.
  - reflexivity.
Defined.

Lemma length_Array_slice {A} (start end_ : Z) (l : list A) :
  length (Array_slice start end_ l) ≤ length l.
Proof. unfold Array_slice. rewrite length_take, length_drop. lia. Qed.

(** X7.  The samples that [loadData] builds from the rows of a file, with
    the default window of 12 days and 3 horizons: there are D - 15 of them
    for D distinct dates, and none for fewer than 16 dates; every sample
    has the shape [12, 2 S] and every target the 3 S outputs for which
    [handleTraining] builds the model, S being the number of distinct
    symbols. *)
Theorem loadData_sample_shapes {N : Type} `{NumberOps N}
    (parseFloat : string → N) (rawData : list row) :
  let p := pivotData parseFloat rawData in
  let n := normalizeData (pivoted p) in
  let r := prepareSamples (normalized n) (symbols p) (dates p) 12 3 in
  length (samples r) = length (dates p) - 15
  ∧ length (targets r) = length (dates p) - 15
  ∧ Forall (λ s, length s = 12
                 ∧ Forall (λ f, length f = length (symbols p) * 2) s) (samples r)
  ∧ Forall (λ t, length t = length (symbols p) * 3) (targets r).
Proof.
  intros p n r. subst r.
  assert (length (samples (prepareSamples (normalized n) (symbols p) (dates p) 12 3))
          = length (dates p) - 15
          ∧ length (targets (prepareSamples (normalized n) (symbols p) (dates p) 12 3))
            = length (dates p) - 15) as [Hs Ht].
  { destruct (le_lt_dec 3 (length (dates p))) as [Hle|Hlt].
    - destruct (count_prepareSamples (normalized n) (symbols p) (dates p) 12 3 Hle)
        as [-> ->]. lia.
    - destruct (length_prepareSamples (normalized n) (symbols p) (dates p) 12 3)
        as [-> ->].
      pose proof (length_Array_slice 0 (Z.of_nat (length (dates p)) - Z.of_nat 3)
                    (dates p)). lia. }
  split; [done|]. split; [done|].
  destruct (shape_prepareSamples (normalized n) (symbols p) (dates p) 12 3)
    as (Hsh & Hth).
  split.
  - eapply Forall_impl; [exact Hsh|]. intros s [Hl Hf]. split; [done|].
    eapply Forall_impl; [exact Hf|]. intros f Hf'. cbv beta in Hf'. lia.
  - eapply Forall_impl; [exact Hth|]. intros t [Hl _]. lia.
Qed.

(** * binary64: the order of the numbers *)

Section binary64_order.
Local Open Scope Z_scope.

Lemma mantissa_compare_lt (e1 e2 : Z) (m1 m2 : positive) :
  match e1 ?= e2 with
  | Eq => Pos.compare_cont Eq m1 m2
  | Lt => Lt
  | Gt => Gt
  end = Lt
  ↔ e1 < e2 ∨ (e1 = e2 ∧ Z.pos m1 < Z.pos m2).
Proof.
  change (Pos.compare_cont Eq m1 m2) with (m1 ?= m2)%positive.
  destruct (Z.compare_spec e1 e2) as [->|?|?].
  - rewrite Pos.compare_lt_iff. lia.
  - split; [lia|done].
  - split; [done|lia].
Qed.

Lemma mantissa_compare_gt (e1 e2 : Z) (m1 m2 : positive) :
  match e1 ?= e2 with
  | Eq => CompOpp (Pos.compare_cont Eq m1 m2)
  | Lt => Gt
  | Gt => Lt
  end = Lt
  ↔ e2 < e1 ∨ (e1 = e2 ∧ Z.pos m2 < Z.pos m1).
Proof.
  change (Pos.compare_cont Eq m1 m2) with (m1 ?= m2)%positive.
  destruct (Z.compare_spec e1 e2) as [->|?|?].
  - rewrite <- Pos.compare_antisym, Pos.compare_lt_iff. lia.
  - split; [done|lia].
  - split; [lia|done].
Qed.

(** [x < y] on the values of binary64 numbers. *)
Lemma SFltb_finite (s1 s2 : bool) (m1 m2 : positive) (e1 e2 : Z) :
  SFltb (S754_finite s1 m1 e1) (S754_finite s2 m2 e2) = true
  ↔ match s1, s2 with
    | true, false => True
    | false, true => False
    | false, false => e1 < e2 ∨ (e1 = e2 ∧ Z.pos m1 < Z.pos m2)
    | true, true => e2 < e1 ∨ (e1 = e2 ∧ Z.pos m2 < Z.pos m1)
    end.
Proof.
  unfold SFltb, SFcompare. destruct s1, s2; try done.
  - rewrite <- mantissa_compare_gt. by case_match.
  - rewrite <- mantissa_compare_lt. by case_match.
Qed.

Lemma SFltb_trans (x y z : spec_float) :
  SFltb x y = true → SFltb y z = true → SFltb x z = true.
Proof.
  destruct x as [sx|sx| |sx mx ex], y as [sy|sy| |sy my ey], z as [sz|sz| |sz mz ez];
    try done;
    try (destruct sx; done); try (destruct sy; done); try (destruct sz; done);
    try (destruct sx, sy; done); try (destruct sy, sz; done);
    try (destruct sx, sz; done); try (destruct sx, sy, sz; done).
  rewrite !SFltb_finite. destruct sx, sy, sz; try done; lia.
Qed.

Lemma SFltb_irrefl (x : spec_float) : SFltb x x = false.
Proof.
  destruct x as [s|s| |s m e]; try done; [by destruct s|].
  apply not_true_is_false. rewrite SFltb_finite. destruct s; lia.
Qed.

(** The two zeros compare alike. *)
Lemma SFltb_zero_r (x : spec_float) (s t : bool) :
  SFltb x (S754_zero s) = SFltb x (S754_zero t).
Proof. by destruct x. Qed.

Lemma SFltb_zero_l (x : spec_float) (s t : bool) :
  SFltb (S754_zero s) x = SFltb (S754_zero t) x.
Proof. by destruct x. Qed.

Lemma SFeqb_refl (x : spec_float) : x ≠ S754_nan → SFeqb x x = true.
Proof.
  destruct x as [s|s| |s m e]; try done; [by destruct s|]. intros _.
  unfold SFeqb, SFcompare. rewrite Z.compare_refl.
  change (Pos.compare_cont Eq m m) with (m ?= m)%positive.
  rewrite Pos.compare_refl. by destruct s.
Qed.
End binary64_order.

Lemma is_nan_Prim2SF (x : float) :
  PrimFloat.is_nan x = true ↔ Prim2SF x = S754_nan.
Proof.
  unfold PrimFloat.is_nan. rewrite FloatAxioms.eqb_spec, negb_true_iff.
  split.
  - intros Hx. destruct (Prim2SF x) as [s|s| |s m e] eqn:E; [| |done|];
      by rewrite SFeqb_refl in Hx.
  - by intros ->.
Qed.

Lemma is_nan_false (x : float) :
  PrimFloat.is_nan x = false ↔ Prim2SF x ≠ S754_nan.
Proof. rewrite <- is_nan_Prim2SF. by destruct (PrimFloat.is_nan x). Qed.

Lemma is_zero_Prim2SF (x : float) :
  PrimFloat.is_zero x = true → ∃ s, Prim2SF x = S754_zero s.
Proof.
  unfold PrimFloat.is_zero. rewrite FloatAxioms.eqb_spec.
  destruct (Prim2SF x) as [s|s| |s m e]; try done; [by exists s| |]; by destruct s.
Qed.

Lemma is_nan_sub_r (x y : float) :
  PrimFloat.is_nan y = true → PrimFloat.is_nan (x - y) = true.
Proof.
  rewrite !is_nan_Prim2SF, sub_spec. intros ->.
  by destruct (Prim2SF x).
Qed.

Lemma is_nan_div_l (x y : float) :
  PrimFloat.is_nan x = true → PrimFloat.is_nan (x / y) = true.
Proof. rewrite !is_nan_Prim2SF, div_spec. by intros ->. Qed.

(** *** Math.min and Math.max *)

Lemma float_min_nan (l : list float) : foldl float_min_step PrimFloat.nan l = PrimFloat.nan.
Proof. induction l as [|x l IH]; [done|]. simpl. exact IH. Qed.

Lemma float_max_nan (l : list float) : foldl float_max_step PrimFloat.nan l = PrimFloat.nan.
Proof. induction l as [|x l IH]; [done|]. simpl. exact IH. Qed.

(** A NaN among the arguments makes the result NaN. *)
Lemma Math_min_nan (l : list float) (x : float) :
  x ∈ l → PrimFloat.is_nan x = true → Math_min l = PrimFloat.nan.
Proof.
  unfold Math_min. simpl. generalize PrimFloat.infinity as acc.
  induction l as [|y l IH]; intros acc Hin Hx; [by apply elem_of_nil in Hin|].
  apply elem_of_cons in Hin as [<-|Hin]; simpl.
  - unfold float_min_step at 2. rewrite Hx, orb_true_r. apply float_min_nan.
  - by apply IH.
Qed.

Lemma Math_max_nan (l : list float) (x : float) :
  x ∈ l → PrimFloat.is_nan x = true → Math_max l = PrimFloat.nan.
Proof.
  unfold Math_max. simpl. generalize PrimFloat.neg_infinity as acc.
  induction l as [|y l IH]; intros acc Hin Hx; [by apply elem_of_nil in Hin|].
  apply elem_of_cons in Hin as [<-|Hin]; simpl.
  - unfold float_max_step at 2. rewrite Hx, orb_true_r. apply float_max_nan.
  - by apply IH.
Qed.

(** The invariant of the loop of Math.min on arguments without a NaN:
    the running minimum is not a NaN, no argument seen is below it, and it
    is the last of the arguments seen that replaced it. *)
Lemma float_min_invariant (l seen : list float) (acc : float) :
  Forall (λ x, PrimFloat.is_nan x = false) l →
  PrimFloat.is_nan acc = false →
  (∀ x, x ∈ seen → PrimFloat.ltb x acc = false) →
  (acc ∈ seen ∨ (acc = PrimFloat.infinity ∧ seen = [])) →
  let r := foldl float_min_step acc l in
  PrimFloat.is_nan r = false
  ∧ (∀ x, x ∈ seen ++ l → PrimFloat.ltb x r = false)
  ∧ (r ∈ seen ++ l ∨ (r = PrimFloat.infinity ∧ seen ++ l = [])).
Proof.
  revert seen acc. induction l as [|n l IH]; intros seen acc Hl Hacc Hlow Hin.
  - simpl. rewrite app_nil_r. done.
  - apply Forall_cons in Hl as [Hn Hl].
    replace (seen ++ n :: l) with ((seen ++ [n]) ++ l) by (by rewrite <- app_assoc).
    simpl foldl.
    assert (Hirr : PrimFloat.ltb n n = false) by (rewrite ltb_spec; apply SFltb_irrefl).
    apply IH; [done| | |].
    + unfold float_min_step. rewrite Hacc, Hn. simpl. by repeat case_match.
    + intros x [Hx|Hx%list_elem_of_singleton]%elem_of_app.
      * specialize (Hlow x Hx).
        unfold float_min_step. rewrite Hacc, Hn. simpl.
        destruct (is_neg_zero n && is_pos_zero acc) eqn:Ez.
        { apply andb_true_iff in Ez as [[Zn _]%andb_true_iff [Za _]%andb_true_iff].
          apply is_zero_Prim2SF in Zn as [s Zn], Za as [t Za].
          rewrite ltb_spec in Hlow |- *. rewrite Zn. rewrite Za in Hlow.
          by rewrite (SFltb_zero_r _ s t). }
        destruct (PrimFloat.ltb n acc) eqn:En; [|done].
        apply not_true_is_false. intros Hxn.
        rewrite ltb_spec in Hlow, En, Hxn.
        by rewrite (SFltb_trans _ _ _ Hxn En) in Hlow.
      * subst x. unfold float_min_step. rewrite Hacc, Hn. simpl.
        destruct (is_neg_zero n && is_pos_zero acc); [done|].
        by destruct (PrimFloat.ltb n acc) eqn:En.
    + left. unfold float_min_step. rewrite Hacc, Hn. simpl.
      destruct (is_neg_zero n && is_pos_zero acc);
        [apply elem_of_app; right; by left|].
      destruct (PrimFloat.ltb n acc) eqn:En; [apply elem_of_app; right; by left|].
      destruct Hin as [Hin|[-> ->]]; [apply elem_of_app; by left|].
      apply elem_of_app; right. apply list_elem_of_singleton.
      apply Prim2SF_inj. rewrite ltb_spec in En.
      apply is_nan_false in Hn.
      change (Prim2SF infinity) with (S754_infinity false) in *.
      destruct (Prim2SF n) as [s|s| |s m e]; try done; by destruct s.
Qed.

Lemma float_max_invariant (l seen : list float) (acc : float) :
  Forall (λ x, PrimFloat.is_nan x = false) l →
  PrimFloat.is_nan acc = false →
  (∀ x, x ∈ seen → PrimFloat.ltb acc x = false) →
  (acc ∈ seen ∨ (acc = PrimFloat.neg_infinity ∧ seen = [])) →
  let r := foldl float_max_step acc l in
  PrimFloat.is_nan r = false
  ∧ (∀ x, x ∈ seen ++ l → PrimFloat.ltb r x = false)
  ∧ (r ∈ seen ++ l ∨ (r = PrimFloat.neg_infinity ∧ seen ++ l = [])).
Proof.
  revert seen acc. induction l as [|n l IH]; intros seen acc Hl Hacc Hlow Hin.
  - simpl. rewrite app_nil_r. done.
  - apply Forall_cons in Hl as [Hn Hl].
    replace (seen ++ n :: l) with ((seen ++ [n]) ++ l) by (by rewrite <- app_assoc).
    simpl foldl.
    assert (Hirr : PrimFloat.ltb n n = false) by (rewrite ltb_spec; apply SFltb_irrefl).
    apply IH; [done| | |].
    + unfold float_max_step. rewrite Hacc, Hn. simpl. by repeat case_match.
    + intros x [Hx|Hx%list_elem_of_singleton]%elem_of_app.
      * specialize (Hlow x Hx).
        unfold float_max_step. rewrite Hacc, Hn. simpl.
        destruct (is_pos_zero n && is_neg_zero acc) eqn:Ez.
        { apply andb_true_iff in Ez as [[Zn _]%andb_true_iff [Za _]%andb_true_iff].
          apply is_zero_Prim2SF in Zn as [s Zn], Za as [t Za].
          rewrite ltb_spec in Hlow |- *. rewrite Zn. rewrite Za in Hlow.
          by rewrite (SFltb_zero_l _ s t). }
        destruct (PrimFloat.ltb acc n) eqn:En; [|done].
        apply not_true_is_false. intros Hxn.
        rewrite ltb_spec in Hlow, En, Hxn.
        by rewrite (SFltb_trans _ _ _ En Hxn) in Hlow.
      * subst x. unfold float_max_step. rewrite Hacc, Hn. simpl.
        destruct (is_pos_zero n && is_neg_zero acc); [done|].
        by destruct (PrimFloat.ltb acc n) eqn:En.
    + left. unfold float_max_step. rewrite Hacc, Hn. simpl.
      destruct (is_pos_zero n && is_neg_zero acc);
        [apply elem_of_app; right; by left|].
      destruct (PrimFloat.ltb acc n) eqn:En; [apply elem_of_app; right; by left|].
      destruct Hin as [Hin|[-> ->]]; [apply elem_of_app; by left|].
      apply elem_of_app; right. apply list_elem_of_singleton.
      apply Prim2SF_inj. rewrite ltb_spec in En.
      apply is_nan_false in Hn.
      change (Prim2SF neg_infinity) with (S754_infinity true) in *.
      destruct (Prim2SF n) as [s|s| |s m e]; try done; by destruct s.
Qed.

(** Math.min and Math.max of a non-empty list without a NaN. *)
Lemma Math_min_spec (l : list float) :
  l ≠ [] → Forall (λ x, PrimFloat.is_nan x = false) l →
  Math_min l ∈ l ∧ ∀ x, x ∈ l → PrimFloat.ltb x (Math_min l) = false.
Proof.
  intros Hne Hl.
  destruct (float_min_invariant l [] PrimFloat.infinity Hl) as (_ & Hlow & Hin);
    [done|by intros x Hx%elem_of_nil|by right|].
  simpl in *. split; [|done]. by destruct Hin as [|[_ ?]].
Qed.

Lemma Math_max_spec (l : list float) :
  l ≠ [] → Forall (λ x, PrimFloat.is_nan x = false) l →
  Math_max l ∈ l ∧ ∀ x, x ∈ l → PrimFloat.ltb (Math_max l) x = false.
Proof.
  intros Hne Hl.
  destruct (float_max_invariant l [] PrimFloat.neg_infinity Hl) as (_ & Hlow & Hin);
    [done|by intros x Hx%elem_of_nil|by right|].
  simpl in *. split; [|done]. by destruct Hin as [|[_ ?]].
Qed.

(** *** The statistics of a symbol on binary64 *)

Lemma field_in_values (f : OpenClose float → float) (o : series float)
    (date : string) (e : OpenClose float) :
  o !! date = Some e → f e ∈ map f (Object_values o).
Proof.
  intros He. apply list_elem_of_fmap. exists e. split; [done|].
  unfold Object_values. apply list_elem_of_fmap. exists (date, e).
  split; [done|]. by apply elem_of_map_to_list.
Qed.

Lemma values_in_field (f : OpenClose float → float) (o : series float) (x : float) :
  x ∈ map f (Object_values o) → ∃ date e, o !! date = Some e ∧ f e = x.
Proof.
  intros (e & -> & He)%list_elem_of_fmap.
  unfold Object_values in He.
  apply list_elem_of_fmap in He as ([date e'] & -> & He).
  apply elem_of_map_to_list in He. by exists date, e'.
Qed.

Lemma field_range (f : OpenClose float → float) (o : series float) :
  o ≠ ∅ →
  (∀ date e, o !! date = Some e → PrimFloat.is_nan (f e) = false) →
  (∃ date e, o !! date = Some e ∧ f e = Math_min (map f (Object_values o)))
  ∧ (∃ date e, o !! date = Some e ∧ f e = Math_max (map f (Object_values o)))
  ∧ (∀ date e, o !! date = Some e →
       PrimFloat.ltb (f e) (Math_min (map f (Object_values o))) = false
       ∧ PrimFloat.ltb (Math_max (map f (Object_values o))) (f e) = false).
Proof.
  intros Hne Hnan.
  assert (map f (Object_values o) ≠ []) as Hl.
  { unfold Object_values. intros Hnil.
    apply fmap_nil_inv, fmap_nil_inv, map_to_list_empty_iff in Hnil. done. }
  assert (Forall (λ x, PrimFloat.is_nan x = false) (map f (Object_values o))) as Hall.
  { apply Forall_forall. intros x (date & e & He & <-)%values_in_field.
    by apply (Hnan date). }
  destruct (Math_min_spec _ Hl Hall) as [Hmin Hlow].
  destruct (Math_max_spec _ Hl Hall) as [Hmax Hhigh].
  split; [by apply values_in_field|]. split; [by apply values_in_field|].
  intros date e He. split.
  - apply Hlow. by apply (field_in_values f o date).
  - apply Hhigh. by apply (field_in_values f o date).
Qed.

(** X8.  On binary64, for a symbol with at least one date and no NaN among
    its closes, the statistics that [normalizeData] returns for the closes
    are attained: the minimum and the maximum are each the close of some
    date of the symbol, no close is below the minimum and none above the
    maximum.  The same holds of the opens. *)
Theorem normalizeData_minMax (pd : aligned float) (symbol : string)
    (o : series float) :
  pd !! symbol = Some o → o ≠ ∅ →
  ∃ mm, minMax (normalizeData pd) !! symbol = Some mm
    ∧ ((∀ date e, o !! date = Some e → PrimFloat.is_nan (Open e) = false) →
       attained_range Open o (Open mm))
    ∧ ((∀ date e, o !! date = Some e → PrimFloat.is_nan (Close e) = false) →
       attained_range Close o (Close mm)).
Proof.
  intros Ho Hne.
  exists (minMax_symbol o). split.
  - unfold normalizeData. simpl. by rewrite lookup_fmap, Ho.
  - split; intros Hnan; by apply field_range.
Qed.

Lemma normalizeData_minMax_witness :
  ∃ mm, minMax (normalizeData close_neighbours) !! "AAPL" = Some mm
    ∧ ((∀ date e, (close_neighbours !!! "AAPL") !! date = Some e →
          PrimFloat.is_nan (Open e) = false) →
       attained_range Open (close_neighbours !!! "AAPL") (Open mm))
    ∧ ((∀ date e, (close_neighbours !!! "AAPL") !! date = Some e →
          PrimFloat.is_nan (Close e) = false) →
       attained_range Close (close_neighbours !!! "AAPL") (Close mm)).
Proof.
  apply (normalizeData_minMax close_neighbours "AAPL" (close_neighbours !!! "AAPL")).
  - vm_compute. reflexivity.
  - intros Hc. by apply (f_equal (λ m : series float, m !! "2024-01-01")) in Hc.
Defined.

(** X9.  On binary64, a NaN among the closes of a symbol, such as
    [parseFloat] returns for a cell that is no number, makes the minimum
    and the maximum of the closes NaN, and with them the normalized close
    of the symbol at every date. *)
Theorem normalizeData_nan_close (pd : aligned float) (symbol date0 : string)
    (o : series float) (e0 : OpenClose float) :
  pd !! symbol = Some o → o !! date0 = Some e0 →
  PrimFloat.is_nan (Close e0) = true →
  (∃ mm, minMax (normalizeData pd) !! symbol = Some mm
         ∧ PrimFloat.is_nan (mm_min (Close mm)) = true
         ∧ PrimFloat.is_nan (mm_max (Close mm)) = true)
  ∧ (∀ date e, entry (normalized (normalizeData pd)) symbol date = Some e →
       PrimFloat.is_nan (Close e) = true).
Proof.
  intros Ho He0 Hnan.
  pose proof (field_in_values Close o date0 e0 He0) as Hin.
  pose proof (Math_min_nan _ _ Hin Hnan) as Hmin.
  pose proof (Math_max_nan _ _ Hin Hnan) as Hmax.
  split.
  - exists (minMax_symbol o). split.
    + unfold normalizeData. simpl. by rewrite lookup_fmap, Ho.
    + unfold minMax_symbol. cbn [Close mm_min mm_max]. by rewrite Hmin, Hmax.
  - intros date e. rewrite (entry_normalized pd symbol date o Ho).
    destruct (o !! date) as [e1|]; [|done]. intros [= <-].
    unfold normalize_entry, minMax_symbol. cbn [Close mm_min mm_max].
    rewrite Hmin. apply is_nan_div_l, is_nan_sub_r. done.
Qed.

(** *** The ends of the scale *)

Lemma div_eucl_mul (m q : Z) : (0 < m)%Z → Z.div_eucl (m * q) m = (q, 0%Z).
Proof.
  intros Hm.
  rewrite (surjective_pairing (Z.div_eucl (m * q) m)).
  change (Z.div_eucl (m * q) m).1 with ((m * q) `div` m)%Z.
  change (Z.div_eucl (m * q) m).2 with ((m * q) `mod` m)%Z.
  rewrite (Z.mul_comm m q), Z.div_mul, Z.mod_mul by lia. done.
Qed.

(** A finite number that is not zero, divided by itself, is 1. *)
Lemma SFdiv_self (s : bool) (m : positive) (e : Z) :
  SF64div (S754_finite s m e) (S754_finite s m e) = Prim2SF 1.
Proof.
  unfold SF64div, SFdiv, SFdiv_core_binary.
  replace (Zdigits2 (Z.pos m) + e - (Zdigits2 (Z.pos m) + e))%Z with 0%Z by lia.
  rewrite Z.sub_diag.
  change (fexp prec emax 0 `min` 0)%Z with (-53)%Z.
  change (0 - -53)%Z with 53%Z. cbv iota.
  rewrite Z.shiftl_mul_pow2 by lia.
  rewrite (Z.mul_comm (Z.pos m)), (Z.mul_comm (2 ^ 53)), div_eucl_mul by lia.
  rewrite xorb_nilpotent. cbv beta iota.
  assert (new_location (Z.pos m) 0 = loc_Exact) as ->.
  { unfold new_location, new_location_even, new_location_odd.
    by destruct (Z.even (Z.pos m)). }
  by vm_compute.
Qed.

(** A finite number minus itself is +0. *)
Lemma SFsub_self (x : spec_float) :
  (∃ s, x = S754_zero s) ∨ (∃ s m e, x = S754_finite s m e) →
  SF64sub x x = S754_zero false.
Proof.
  intros [[s ->]|(s & m & e & ->)].
  - by destruct s.
  - unfold SF64sub, SFsub. cbv zeta. by rewrite Z.sub_diag.
Qed.

(** X10.  Where the minimum of the closes of a symbol is below the maximum
    and their difference a finite binary64 number, the date whose close is
    the minimum has the normalized close 0 and the date whose close is the
    maximum the normalized close 1. *)
Theorem normalizeData_ends (pd : aligned float) (symbol date : string)
    (o : series float) (e : OpenClose float) :
  pd !! symbol = Some o → o !! date = Some e →
  let mm := Close (minMax_symbol o) in
  PrimFloat.ltb 0 (mm_max mm - mm_min mm) = true →
  PrimFloat.ltb (mm_max mm - mm_min mm) PrimFloat.infinity = true →
  ∃ n, entry (normalized (normalizeData pd)) symbol date = Some n
       ∧ (Close e = mm_min mm → Close n = 0%float)
       ∧ (Close e = mm_max mm → Close n = 1%float).
Proof.
  intros Ho He mm Hpos Hfin.
  exists (normalize_entry (minMax_symbol o) e).
  split; [by rewrite (entry_normalized pd symbol date o Ho), He|].
  change (Close (normalize_entry (minMax_symbol o) e))
    with ((Close e - mm_min mm) / (mm_max mm - mm_min mm))%float.
  rewrite ltb_spec in Hpos, Hfin. rewrite sub_spec in Hpos, Hfin.
  change (Prim2SF 0) with (S754_zero false) in Hpos.
  change (Prim2SF infinity) with (S754_infinity false) in Hfin.
  destruct (SF64sub (Prim2SF (mm_max mm)) (Prim2SF (mm_min mm)))
    as [sd|sd| |sd md ed] eqn:Ed; try done; try (by destruct sd).
  destruct sd; [done|].
  split; intros ->; apply Prim2SF_inj; rewrite div_spec, !sub_spec.
  - rewrite SFsub_self, Ed; [done|].
    unfold SF64sub, SFsub in Ed.
    destruct (Prim2SF (mm_min mm)) as [s|s| |s m' e'].
    + left. by exists s.
    + destruct (Prim2SF (mm_max mm)) as [t|t| |t ? ?]; try done; by destruct t, s.
    + by destruct (Prim2SF (mm_max mm)).
    + right. by exists s, m', e'.
  - rewrite Ed. apply SFdiv_self.
Qed.

Lemma normalizeData_ends_witness :
  ∃ n, entry (normalized (normalizeData close_neighbours)) "AAPL" "2024-01-04" = Some n
       ∧ Close n = 1%float.
Proof.
  destruct (normalizeData_ends close_neighbours "AAPL" "2024-01-04"
              (close_neighbours !!! "AAPL") (mkOpenClose 4%float 3%float))
    as (n & Hn & _ & H1).
  - vm_compute. reflexivity.
  - vm_compute. reflexivity.
  - vm_compute. reflexivity.
  - vm_compute. reflexivity.
  - exists n. split; [exact Hn|]. apply H1. vm_compute. reflexivity.
Defined.

Lemma normalizeData_nan_close_witness :
  (∃ mm, minMax (normalizeData nan_close) !! "AAPL" = Some mm
         ∧ PrimFloat.is_nan (mm_min (Close mm)) = true
         ∧ PrimFloat.is_nan (mm_max (Close mm)) = true)
  ∧ (∀ date e, entry (normalized (normalizeData nan_close)) "AAPL" date = Some e →
       PrimFloat.is_nan (Close e) = true).
Proof.
  apply (normalizeData_nan_close nan_close "AAPL" "2024-01-02"
           (nan_close !!! "AAPL") (mkOpenClose 1%float PrimFloat.nan)).
  - vm_compute. reflexivity.
  - vm_compute. reflexivity.
  - reflexivity.
Defined.

(** ** DataLoader.splitData, whatever the ratio *)

Lemma Math_floor_nan (x y : float) :
  PrimFloat.is_nan y = true → Math_floor (x * y) = FNaN.
Proof.
  rewrite is_nan_Prim2SF. intros Hy. unfold Math_floor.
  rewrite mul_spec, Hy. by destruct (Prim2SF x).
Qed.

(** X11.  Whatever the ratio, a fraction, a number outside [0, 1], an
    infinity or NaN, [splitData] loses and repeats nothing: the train part
    followed by the test part is the input, for the samples and for the
    targets, so that the sizes of the two parts add up to the number of
    samples; with as many targets as samples, each target is in the part
    and at the position of its sample.  With the ratio NaN everything is in
    the test part. *)
Theorem splitData_partition {A B : Type} (samples : list A) (targets : list B)
    (splitRatio : float) :
  let r := splitData samples targets splitRatio in
  X_train r ++ X_test r = samples
  ∧ y_train r ++ y_test r = targets
  ∧ length (X_train r) + length (X_test r) = length samples
  ∧ (length samples = length targets →
     length (X_train r) = length (y_train r)
     ∧ length (X_test r) = length (y_test r))
  ∧ (PrimFloat.is_nan splitRatio = true → X_train r = [] ∧ X_test r = samples).
Proof.
  intros r. destruct (splitData_app samples targets splitRatio) as [HX Hy].
  fold r in HX, Hy.
  split; [done|]. split; [done|]. split; [by rewrite <- length_app, HX|]. split.
  - intros Hlen. unfold r, splitData, slice_to, slice_from. simpl.
    rewrite !length_take, !length_drop, Hlen. lia.
  - intros Hnan. unfold r, splitData, splitIndex.
    rewrite (Math_floor_nan _ _ Hnan). unfold slice_to, slice_from. simpl.
    split; [done|]. rewrite Nat.sub_0_r. apply firstn_all.
Qed.

(** ** MNISTApp.createConfusionMatrix: the cells *)

Lemma pair_count_cons (i j t p : nat) (predArray trueArray : list nat) :
  pair_count i j (p :: predArray) (t :: trueArray)
  = (if decide (t = i ∧ p = j) then 1 else 0) + pair_count i j predArray trueArray.
Proof.
  unfold pair_count. simpl zip. rewrite filter_cons. simpl.
  by destruct (decide (t = i ∧ p = j)).
Qed.

Lemma matrix_cell_incr (matrix : list (list cell)) (t p i j : nat) (r : list cell) (n : nat) :
  matrix !! t = Some r → r !! p = Some (Count n) →
  matrix_cell (<[t := row_incr p r]> matrix) i j
  = if decide (t = i ∧ p = j) then Some (Count (S n)) else matrix_cell matrix i j.
Proof.
  intros Hr Hp. unfold matrix_cell.
  assert (t < length matrix) by (by eapply lookup_lt_Some).
  assert (p < length r) by (by eapply lookup_lt_Some).
  unfold row_incr. rewrite Hp. cbn [cell_incr].
  destruct (decide (t = i)) as [->|Hti].
  - rewrite list_lookup_insert_eq by done. cbn [mbind option_bind].
    destruct (decide (p = j)) as [->|Hpj].
    + rewrite list_lookup_insert_eq by done. by rewrite decide_True.
    + rewrite list_lookup_insert_ne by done. rewrite Hr.
      by rewrite decide_False by tauto.
  - rewrite list_lookup_insert_ne by done. by rewrite decide_False by tauto.
Qed.

Lemma fill_matrix_cells (predArray trueArray : list nat) (matrix : list (list cell)) :
  length predArray = length trueArray →
  Forall (λ p, p < 10) predArray → Forall (λ t, t < 10) trueArray →
  count_matrix 10 matrix →
  ∃ matrix',
    fill_matrix predArray trueArray matrix = Some matrix'
    ∧ ∀ i j n, matrix_cell matrix i j = Some (Count n) →
        matrix_cell matrix' i j
        = Some (Count (n + pair_count i j predArray trueArray)).
Proof.
  revert trueArray matrix.
  induction predArray as [|pred predArray IH]; intros trueArray matrix Hlen Hp Ht Hm.
  - destruct trueArray; [|done]. exists matrix. split; [done|].
    intros i j n Hn. rewrite Hn. unfold pair_count. simpl. do 2 f_equal. lia.
  - destruct trueArray as [|trueVal trueArray]; [done|].
    simpl in Hlen. injection Hlen as Hlen.
    apply Forall_cons in Hp as [Hpred Hp]. apply Forall_cons in Ht as [Htrue Ht].
    destruct Hm as [Hrows Hall].
    destruct (lookup_lt_is_Some_2 matrix trueVal) as [r0 Hr0]; [lia|].
    pose proof (proj1 (Forall_lookup _ _) Hall trueVal r0 Hr0) as [Hr0len Hr0c].
    destruct (lookup_lt_is_Some_2 r0 pred) as [c0 Hc0]; [lia|].
    assert (is_count c0 = true) as Hcc.
    { eapply forallb_elem_of; [exact Hr0c|]. by eapply list_elem_of_lookup_2. }
    destruct c0 as [n0| |]; try done.
    destruct (row_incr_count pred r0) as (Hl1 & Hc1 & Hs1); [lia|done|].
    assert (count_matrix 10 (<[trueVal := row_incr pred r0]> matrix)) as Hm'.
    { split; [by rewrite length_insert|].
      apply Forall_insert; [done|]. split; [lia|done]. }
    destruct (IH trueArray _ Hlen Hp Ht Hm') as (matrix' & Hfill & Hcell).
    exists matrix'. simpl. unfold matrix_incr. rewrite Hr0. simpl.
    split; [done|]. intros i j n Hn.
    rewrite pair_count_cons.
    pose proof (matrix_cell_incr matrix trueVal pred i j r0 n0 Hr0 Hc0) as Hstep.
    destruct (decide (trueVal = i ∧ pred = j)) as [[-> ->]|Hne].
    + assert (n = n0) as ->.
      { unfold matrix_cell in Hn. rewrite Hr0 in Hn. simpl in Hn. congruence. }
      rewrite (Hcell i j (S n0) Hstep). do 2 f_equal. lia.
    + rewrite Hn in Hstep. rewrite (Hcell i j n Hstep). done.
Qed.

(** X12.  For label arrays of one length with all labels below 10, the cell
    of the matrix at row [i] and column [j] is the number of examples whose
    true class is [i] and whose predicted class is [j]. *)
Theorem createConfusionMatrix_cells (predArray trueArray : list nat) :
  length predArray = length trueArray →
  Forall (λ p, p < 10) predArray → Forall (λ t, t < 10) trueArray →
  ∃ matrix,
    createConfusionMatrix predArray trueArray = Some matrix
    ∧ ∀ i j, i < 10 → j < 10 →
        matrix_cell matrix i j = Some (Count (pair_count i j predArray trueArray)).
Proof.
  intros Hlen Hp Ht.
  destruct (fill_matrix_cells predArray trueArray _ Hlen Hp Ht count_matrix_zero)
    as (matrix & Hfill & Hcell).
  exists matrix. split; [done|]. intros i j Hi Hj.
  apply (Hcell i j 0). unfold matrix_cell.
  rewrite lookup_replicate_2 by done. cbn [mbind option_bind].
  by rewrite lookup_replicate_2.
Qed.

Lemma createConfusionMatrix_cells_witness :
  ∃ matrix,
    createConfusionMatrix [1; 2; 3] [1; 2; 2] = Some matrix
    ∧ ∀ i j, i < 10 → j < 10 →
        matrix_cell matrix i j = Some (Count (pair_count i j [1; 2; 3] [1; 2; 2])).
Proof.
  apply (createConfusionMatrix_cells [1; 2; 3] [1; 2; 2]).
  - reflexivity.
  - repeat constructor; lia.
  - repeat constructor; lia.
Defined.

(** The loop keeps the ten rows of the matrix. *)
Lemma fill_matrix_None (predArray trueArray : list nat) (matrix : list (list cell)) :
  length matrix = 10 →
  fill_matrix predArray trueArray matrix = None
  ↔ ∃ k p, predArray !! k = Some p ∧ ∀ t, trueArray !! k = Some t → 10 ≤ t.
Proof.
  revert trueArray matrix.
  induction predArray as [|pred predArray IH]; intros trueArray matrix Hm.
  - simpl. split; [done|]. by intros (k & p & Hk & _).
  - destruct trueArray as [|trueVal trueArray].
    + simpl. split; [|done]. intros _. exists 0, pred. split; [done|]. by intros t.
    + simpl. unfold matrix_incr.
      destruct (matrix !! trueVal) as [r|] eqn:Hr; simpl.
      * apply lookup_lt_Some in Hr as Hlt.
        rewrite IH by (by rewrite length_insert). split.
        -- intros (k & p & Hk & Ht). by exists (S k), p.
        -- intros (k & p & Hk & Ht). destruct k as [|k].
           ++ specialize (Ht trueVal eq_refl). lia.
           ++ by exists k, p.
      * apply lookup_ge_None in Hr. split; [|done]. intros _.
        exists 0, pred. split; [done|]. intros t [= <-]. lia.
Qed.

(** X13.  [createConfusionMatrix] throws a TypeError exactly if some
    prediction has no true label at its position, or one that is 10 or
    more; the predicted labels themselves never make it throw. *)
Theorem createConfusionMatrix_throws (predArray trueArray : list nat) :
  createConfusionMatrix predArray trueArray = None
  ↔ ∃ k p, predArray !! k = Some p ∧ ∀ t, trueArray !! k = Some t → 10 ≤ t.
Proof. apply fill_matrix_None. by rewrite length_replicate. Qed.

(** * binary64: the order of scaled closes *)

Section binary64_shifts.
Local Open Scope Z_scope.

Lemma Zdigits2_shift (n k : Z) :
  0 < n → 0 ≤ k → Zdigits2 (n * 2 ^ k) = Zdigits2 n + k.
Proof.
  intros Hn Hk. pose proof (Zdigits2_bounds n Hn) as [Hlo Hhi].
  assert (0 < Zdigits2 n) by (destruct n; simpl in *; lia).
  assert (0 < 2 ^ k) by (by apply pow2_pos).
  apply Zdigits2_unique; [nia|]. split.
  - replace (Zdigits2 n + k - 1) with (Zdigits2 n - 1 + k) by lia.
    rewrite Z.pow_add_r by lia. nia.
  - rewrite Z.pow_add_r by lia. nia.
Qed.

Lemma shl_align_fst (mx : positive) (ex ez : Z) :
  ez ≤ ex → Z.pos (shl_align mx ex ez).1 = Z.pos mx * 2 ^ (ex - ez).
Proof.
  intros Hle. unfold shl_align.
  destruct (ez - ex) as [|d|d] eqn:Ed; try lia.
  - replace (ex - ez) with 0 by lia. simpl. lia.
  - simpl. rewrite Pos_iter_xO. f_equal. f_equal. lia.
Qed.
End binary64_shifts.

(** ** Rounding to the nearest number of the format *)

Section binary64_rounding.
Local Open Scope Z_scope.

Lemma rne_loc (N D : Z) :
  0 < D → round_nearest_even (N `div` D) (loc_frac N D) = rne N D.
Proof.
  intros HD. unfold loc_frac, rne.
  destruct (Z.eqb_spec (N `mod` D) 0) as [Heq|Hne].
  - rewrite Heq. change (2 * 0) with 0.
    destruct (Z.compare_spec 0 D); try lia. done.
  - simpl. by destruct (2 * (N `mod` D) ?= D).
Qed.

Lemma new_location_frac (N D : Z) :
  0 < D → new_location D (N `mod` D) = loc_frac N D.
Proof.
  intros HD. unfold new_location, new_location_even, new_location_odd, loc_frac.
  destruct (Z.even D) eqn:Ev; [done|].
  destruct (Z.eqb_spec (N `mod` D) 0); [done|]. f_equal.
  assert (Z.odd D = true) as Hodd by (rewrite <- Z.negb_even, Ev; done).
  apply Z.odd_spec in Hodd as [h Hh].
  destruct (Z.compare_spec (2 * (N `mod` D) + 1) D);
    destruct (Z.compare_spec (2 * (N `mod` D)) D); try done; lia.
Qed.

Lemma shr_1_nonneg (m : Z) (r s : bool) :
  0 ≤ m →
  shr_1 {| shr_m := m; shr_r := r; shr_s := s |}
  = {| shr_m := m `div` 2; shr_r := Z.odd m; shr_s := r || s |}.
Proof.
  intros Hm. destruct m as [|[p|p|]|p]; try lia; cbn [shr_1]; try done.
  - f_equal. apply Z.div_unique with (r := 1); lia.
  - f_equal. apply Z.div_unique with (r := 0); lia.
Qed.

Lemma shr_record_of_loc_frac (N D : Z) :
  shr_record_of_loc (N `div` D) (loc_frac N D)
  = {| shr_m := N `div` D;
       shr_r := negb (N `mod` D =? 0) && negb (2 * (N `mod` D) <? D);
       shr_s := negb (N `mod` D =? 0) && negb (2 * (N `mod` D) =? D) |}.
Proof.
  unfold loc_frac.
  destruct (Z.eqb_spec (N `mod` D) 0); [done|]. simpl.
  destruct (Z.compare_spec (2 * (N `mod` D)) D);
    destruct (Z.ltb_spec (2 * (N `mod` D)) D);
    destruct (Z.eqb_spec (2 * (N `mod` D)) D); try lia; done.
Qed.

(** One shift to the right doubles the denominator. *)
Lemma shr_1_frac (N D : Z) :
  0 ≤ N → 0 < D →
  shr_1 (shr_record_of_loc (N `div` D) (loc_frac N D))
  = shr_record_of_loc (N `div` (D * 2)) (loc_frac N (D * 2)).
Proof.
  intros HN HD.
  rewrite !shr_record_of_loc_frac.
  assert (0 ≤ N `div` D) by (apply Z.div_pos; lia).
  rewrite shr_1_nonneg by done.
  pose proof (Z.mod_pos_bound N D HD) as Hr.
  rewrite <- Z.div_div by lia.
  rewrite (Z.rem_mul_r N D 2) by lia.
  pose proof (Z.mod_pos_bound (N `div` D) 2 ltac:(lia)) as Hb.
  rewrite (Zodd_mod (N `div` D)).
  set (q := N `div` D) in *. set (r := N `mod` D) in *. set (b := q `mod` 2) in *.
  assert (b = 0 ∨ b = 1) as [Hb'|Hb'] by lia; rewrite Hb'; f_equal.
  - destruct (Z.eqb_spec (r + D * 0) 0);
      destruct (Z.ltb_spec (2 * (r + D * 0)) (D * 2)); simpl; try done; lia.
  - destruct (Z.eqb_spec r 0); destruct (Z.ltb_spec (2 * r) D);
      destruct (Z.eqb_spec (2 * r) D); destruct (Z.eqb_spec (r + D * 0) 0);
      destruct (Z.eqb_spec (2 * (r + D * 0)) (D * 2)); simpl; try done; lia.
  - destruct (Z.eqb_spec (r + D * 1) 0);
      destruct (Z.ltb_spec (2 * (r + D * 1)) (D * 2)); simpl; try done; lia.
  - destruct (Z.eqb_spec r 0); destruct (Z.ltb_spec (2 * r) D);
      destruct (Z.eqb_spec (2 * r) D); destruct (Z.eqb_spec (r + D * 1) 0);
      destruct (Z.eqb_spec (2 * (r + D * 1)) (D * 2)); simpl; try done; lia.
Qed.

Lemma iter_shr_1_frac (p : positive) (N D : Z) :
  0 ≤ N → 0 < D →
  SpecFloat.iter_pos shr_1 p (shr_record_of_loc (N `div` D) (loc_frac N D))
  = shr_record_of_loc (N `div` (D * 2 ^ Z.pos p)) (loc_frac N (D * 2 ^ Z.pos p)).
Proof.
  intros HN. revert D. induction p as [p IH|p IH|]; intros D HD.
  - assert (0 < 2 ^ Z.pos p) by (by apply pow2_pos).
    change (SpecFloat.iter_pos shr_1 p~1 ?x)
      with (SpecFloat.iter_pos shr_1 p (SpecFloat.iter_pos shr_1 p (shr_1 x))).
    rewrite shr_1_frac, IH, IH by nia.
    replace (D * 2 * 2 ^ Z.pos p * 2 ^ Z.pos p) with (D * 2 ^ Z.pos p~1)
      by (rewrite pow2_xI; ring). done.
  - assert (0 < 2 ^ Z.pos p) by (by apply pow2_pos).
    change (SpecFloat.iter_pos shr_1 p~0 ?x)
      with (SpecFloat.iter_pos shr_1 p (SpecFloat.iter_pos shr_1 p x)).
    rewrite IH, IH by nia.
    replace (D * 2 ^ Z.pos p * 2 ^ Z.pos p) with (D * 2 ^ Z.pos p~0)
      by (rewrite pow2_xO; ring). done.
  - change (2 ^ 1) with 2. by apply shr_1_frac.
Qed.

(** [k] shifts to the right multiply the denominator by [2^k]. *)
Lemma shr_frac (N D e k : Z) :
  0 ≤ N → 0 < D → 0 ≤ k →
  shr (shr_record_of_loc (N `div` D) (loc_frac N D)) e k
  = (shr_record_of_loc (N `div` (D * 2 ^ k)) (loc_frac N (D * 2 ^ k)), e + k).
Proof.
  intros HN HD Hk. unfold shr. destruct k as [|p|p]; try lia.
  - by rewrite Z.mul_1_r, Z.add_0_r.
  - by rewrite iter_shr_1_frac.
Qed.

Lemma loc_of_shr_record_of_loc (m : Z) (l : location) :
  loc_of_shr_record (shr_record_of_loc m l) = l.
Proof. by destruct l as [|[]]. Qed.

(** [binary_round_aux] on the quotient [N / D] with its location: the
    mantissa is the nearest integer to [N / D] at the exponent of the
    format. *)
Lemma binary_round_aux_frac (N D e : Z) :
  0 ≤ N → 0 < D →
  e ≤ fexp prec emax (Zdigits2 (N `div` D) + e) →
  binary_round_aux prec emax false (N `div` D) e (loc_frac N D)
  = SFfinal (rne N (D * 2 ^ (fexp prec emax (Zdigits2 (N `div` D) + e) - e)))
            (fexp prec emax (Zdigits2 (N `div` D) + e)).
Proof.
  intros HN HD He. unfold binary_round_aux, SFfinal.
  set (E := fexp prec emax (Zdigits2 (N `div` D) + e)) in *.
  unfold shr_fexp at 1. fold E.
  rewrite shr_frac by lia.
  rewrite shr_m_record_of_loc, loc_of_shr_record_of_loc.
  assert (0 < 2 ^ (E - e)) by (apply pow2_pos; lia).
  rewrite rne_loc by nia.
  replace (e + (E - e)) with E by lia. done.
Qed.
End binary64_rounding.

Section binary64_nearest.
Local Open Scope Z_scope.

Lemma rne_bounds (N K : Z) : N `div` K ≤ rne N K ≤ N `div` K + 1.
Proof.
  unfold rne. destruct (2 * (N `mod` K) ?= K); [|lia|lia].
  destruct (Z.even (N `div` K)); lia.
Qed.

Lemma rne_mono (N1 N2 K : Z) : 0 < K → N1 ≤ N2 → rne N1 K ≤ rne N2 K.
Proof.
  intros HK Hle.
  pose proof (Z.div_le_mono N1 N2 K HK Hle) as Hq.
  destruct (Z.eq_dec (N1 `div` K) (N2 `div` K)) as [Heq|Hne].
  - assert (N1 `mod` K ≤ N2 `mod` K) as Hr.
    { pose proof (Z.div_mod N1 K ltac:(lia)). pose proof (Z.div_mod N2 K ltac:(lia)).
      rewrite Heq in *. lia. }
    unfold rne. rewrite Heq.
    destruct (Z.compare_spec (2 * (N1 `mod` K)) K);
      destruct (Z.compare_spec (2 * (N2 `mod` K)) K);
      destruct (Z.even (N2 `div` K)); lia.
  - pose proof (rne_bounds N1 K). pose proof (rne_bounds N2 K). lia.
Qed.

Lemma rne_scale (N K c : Z) : 0 < K → 0 < c → rne (N * c) (K * c) = rne N K.
Proof.
  intros HK Hc. unfold rne.
  rewrite Z.div_mul_cancel_r, Z.mul_mod_distr_r by lia.
  replace (2 * (N `mod` K * c)) with (2 * (N `mod` K) * c) by ring.
  by rewrite <- Zmult_compare_compat_r by lia.
Qed.

Lemma rne_exact (A K : Z) : 0 < K → rne (A * K) K = A.
Proof.
  intros HK. unfold rne. rewrite Z.mod_mul, Z.div_mul by lia.
  change (2 * 0) with 0. by destruct (Z.compare_spec 0 K); try lia.
Qed.

Lemma rne_cross (N1 K1 N2 K2 : Z) :
  0 < K1 → 0 < K2 → N1 * K2 ≤ N2 * K1 → rne N1 K1 ≤ rne N2 K2.
Proof.
  intros H1 H2 Hle.
  rewrite <- (rne_scale N1 K1 K2), <- (rne_scale N2 K2 K1) by done.
  rewrite (Z.mul_comm K2 K1). apply rne_mono; [lia|done].
Qed.

Lemma rne_le (N K B : Z) : 0 < K → N ≤ B * K → rne N K ≤ B.
Proof.
  intros HK Hle. rewrite <- (rne_exact B K HK). by apply rne_mono.
Qed.

Lemma rne_ge (N K A : Z) : 0 < K → A * K ≤ N → A ≤ rne N K.
Proof.
  intros HK Hle. rewrite <- (rne_exact A K HK) at 1. by apply rne_mono.
Qed.

Lemma fexp_ge (x : Z) : -1074 ≤ fexp prec emax x ∧ x - 53 ≤ fexp prec emax x.
Proof. unfold fexp, SpecFloat.emin, prec, emax. lia. Qed.

Lemma fexp_cases (x : Z) :
  fexp prec emax x = -1074 ∨ (-1074 < fexp prec emax x ∧ fexp prec emax x = x - 53).
Proof. unfold fexp, SpecFloat.emin, prec, emax. lia. Qed.

Lemma Zdigits2_le (m k : Z) : 0 ≤ m → 0 ≤ k → m < 2 ^ k → Zdigits2 m ≤ k.
Proof.
  intros Hm Hk Hlt. destruct (Z.eq_dec m 0) as [->|Hne]; [simpl; lia|].
  pose proof (Zdigits2_bounds m ltac:(lia)) as [Hlo _].
  assert (0 < Zdigits2 m) by (destruct m; simpl in *; lia).
  assert (Zdigits2 m - 1 < k); [|lia]. apply pow2_lt_inv; lia.
Qed.

Lemma pow2_le (a b : Z) : 0 ≤ a ≤ b → 2 ^ a ≤ 2 ^ b.
Proof. intros. apply Z.pow_le_mono_r; lia. Qed.

Lemma pow2_split (a b : Z) : 0 ≤ a → 0 ≤ b → 2 ^ (a + b) = 2 ^ a * 2 ^ b.
Proof. intros. by rewrite Z.pow_add_r. Qed.

(** The number that ends a rounding: its value is that of the mantissa at
    the exponent, unless that is 2^1024 or more. *)
Lemma SFfinal_val (m1 E : Z) :
  0 ≤ m1 ≤ 2 ^ 53 → -1074 ≤ E → (-1074 < E → 2 ^ 52 ≤ m1) →
  SFnonneg (SFfinal m1 E) = true
  ∧ SFval (SFfinal m1 E) = Z.min (m1 * 2 ^ (E + 1074)) (2 ^ 2098).
Proof.
  intros [Hm0 Hm] HE Hnorm.
  assert (0 < 2 ^ (E + 1074)) as HpE by (apply pow2_pos; lia).
  unfold SFfinal, shr_fexp.
  destruct (Z.eq_dec m1 (2 ^ 53)) as [->|Hne].
  - (* the mantissa 2^53 is 2^52 at the next exponent *)
    change (Zdigits2 (2 ^ 53)) with 54.
    assert (fexp prec emax (54 + E) - E = 1) as ->.
    { unfold fexp, SpecFloat.emin, prec, emax. lia. }
    change (shr (shr_record_of_loc (2 ^ 53) loc_Exact) E 1)
      with ({| shr_m := 2 ^ 52; shr_r := false; shr_s := false |}, E + 1).
    cbn [shr_m]. change (2 ^ 52) with (Z.pos 4503599627370496). cbv iota.
    destruct (Z.leb_spec (E + 1) (emax - prec)) as [Hle|Hgt];
      unfold emax, prec in *; cbn [SFnonneg SFval cond_Zopp negb]; (split; [done|]).
    + rewrite Z.min_l.
      * change (Z.pos 4503599627370496) with (2 ^ 52).
        replace (E + 1 + 1074) with (1 + (E + 1074)) by lia.
        rewrite pow2_split by lia. change (2 ^ 53) with (2 ^ 52 * 2 ^ 1). ring.
      * replace 2098 with (53 + 2045) by lia. rewrite (pow2_split 53 2045) by lia.
        apply Z.mul_le_mono_nonneg_l; [lia|]. apply pow2_le. lia.
    + rewrite Z.min_r; [done|].
      replace 2098 with (53 + 2045) by lia. rewrite (pow2_split 53 2045) by lia.
      apply Z.mul_le_mono_nonneg_l; [lia|]. apply pow2_le. lia.
  - assert (Zdigits2 m1 ≤ 53) as Hd by (apply Zdigits2_le; lia).
    assert (fexp prec emax (Zdigits2 m1 + E) - E ≤ 0) as Hk.
    { unfold fexp, SpecFloat.emin, prec, emax. lia. }
    assert (shr (shr_record_of_loc m1 loc_Exact) E (fexp prec emax (Zdigits2 m1 + E) - E)
            = (shr_record_of_loc m1 loc_Exact, E)) as ->.
    { unfold shr. by destruct (fexp prec emax (Zdigits2 m1 + E) - E) as [|p|p]; try lia. }
    cbn [shr_record_of_loc shr_m].
    destruct m1 as [|p|p]; [|clear Hm0|lia].
    + cbn [SFnonneg SFval]. split; [done|]. rewrite Z.mul_0_l, Z.min_l; [done|].
      apply Z.lt_le_incl, pow2_pos. lia.
    + destruct (Z.leb_spec E (emax - prec)) as [Hle|Hgt];
        unfold emax, prec in *; cbn [SFnonneg SFval cond_Zopp negb]; (split; [done|]).
      * rewrite Z.min_l; [done|].
        replace 2098 with (53 + 2045) by lia. rewrite (pow2_split 53 2045) by lia.
        assert (2 ^ (E + 1074) ≤ 2 ^ 2045) by (apply pow2_le; lia).
        assert (0 < 2 ^ 53) by (by apply pow2_pos).
        transitivity (2 ^ 53 * 2 ^ (E + 1074)).
        -- apply Z.mul_le_mono_nonneg_r; lia.
        -- apply Z.mul_le_mono_nonneg_l; lia.
      * rewrite Z.min_r; [done|].
        specialize (Hnorm ltac:(lia)).
        replace 2098 with (52 + 2046) by lia. rewrite (pow2_split 52 2046) by lia.
        assert (2 ^ 2046 ≤ 2 ^ (E + 1074)) by (apply pow2_le; lia).
        assert (0 < 2 ^ 52) by (by apply pow2_pos).
        transitivity (2 ^ 52 * 2 ^ (E + 1074)).
        -- apply Z.mul_le_mono_nonneg_l; lia.
        -- apply Z.mul_le_mono_nonneg_r; lia.
Qed.
End binary64_nearest.

Section binary64_monotone.
Local Open Scope Z_scope.

(** The quotient at the exponent of the format has at most 53 digits, and
    exactly 53 above the least exponent. *)
Lemma rounded_range (N D e : Z) :
  0 ≤ N → 0 < D → e ≤ round_exponent N D e →
  let E := round_exponent N D e in
  let K := D * 2 ^ (E - e) in
  0 < K ∧ -1074 ≤ E ∧ N < 2 ^ 53 * K ∧ (-1074 < E → 2 ^ 52 * K ≤ N).
Proof.
  intros HN HD He E K. subst E K. unfold round_exponent in *.
  set (q := N `div` D) in *. set (E := fexp prec emax (Zdigits2 q + e)) in *.
  assert (0 < 2 ^ (E - e)) as Hp by (apply pow2_pos; lia).
  assert (0 ≤ q) as Hq0 by (apply Z.div_pos; lia).
  pose proof (Z.div_mod N D ltac:(lia)) as Hdm.
  pose proof (Z.mod_pos_bound N D HD) as Hr. fold q in Hdm.
  pose proof (Zdigits2_nonneg q) as Hd0.
  pose proof (fexp_ge (Zdigits2 q + e)) as [HE1 HE2]. fold E in HE1, HE2.
  split; [nia|]. split; [done|]. split.
  - (* N < (q + 1) D <= 2^dq D <= 2^53 K *)
    assert (q + 1 ≤ 2 ^ Zdigits2 q) as Hq1.
    { destruct (Z.eq_dec q 0) as [->|Hne]; [simpl; lia|].
      pose proof (Zdigits2_bounds q ltac:(lia)). lia. }
    assert (2 ^ Zdigits2 q ≤ 2 ^ 53 * 2 ^ (E - e)) as Hpow.
    { rewrite <- pow2_split by lia. apply pow2_le. lia. }
    assert (N < (q + 1) * D) by lia.
    assert ((q + 1) * D ≤ 2 ^ Zdigits2 q * D) by (apply Z.mul_le_mono_nonneg_r; lia).
    assert (2 ^ Zdigits2 q * D ≤ 2 ^ 53 * 2 ^ (E - e) * D)
      by (apply Z.mul_le_mono_nonneg_r; lia).
    replace (2 ^ 53 * (D * 2 ^ (E - e))) with (2 ^ 53 * 2 ^ (E - e) * D) by ring. lia.
  - intros Hnorm.
    destruct (fexp_cases (Zdigits2 q + e)) as [Hc|[_ Hc]]; fold E in Hc; [lia|].
    assert (0 < q) as Hq.
    { destruct (Z.eq_dec q 0) as [Hz|]; [|lia]. rewrite Hz in Hc. simpl in Hc. lia. }
    pose proof (Zdigits2_bounds q Hq) as [Hlo _].
    replace (E - e) with (Zdigits2 q - 53) in * by lia.
    assert (2 ^ 52 * 2 ^ (Zdigits2 q - 53) = 2 ^ (Zdigits2 q - 1)) as Hpow.
    { rewrite <- pow2_split by lia. f_equal. lia. }
    replace (2 ^ 52 * (D * 2 ^ (Zdigits2 q - 53)))
      with (2 ^ 52 * 2 ^ (Zdigits2 q - 53) * D) by ring.
    rewrite Hpow.
    assert (2 ^ (Zdigits2 q - 1) * D ≤ q * D) by (apply Z.mul_le_mono_nonneg_r; lia).
    lia.
Qed.

Lemma rounded_mantissa (N D e : Z) :
  0 ≤ N → 0 < D → e ≤ round_exponent N D e →
  let E := round_exponent N D e in
  let m := rne N (D * 2 ^ (E - e)) in
  0 ≤ m ≤ 2 ^ 53 ∧ (-1074 < E → 2 ^ 52 ≤ m).
Proof.
  intros HN HD He E m.
  destruct (rounded_range N D e HN HD He) as (HK & HE & HU & HL).
  fold E in HK, HE, HU, HL.
  split; [split|].
  - apply rne_ge; [done|lia].
  - apply rne_le; [done|lia].
  - intros Hn. apply rne_ge; [done|]. by apply HL.
Qed.

(** Rounding is monotone: of two quotients the greater is rounded to the
    greater number, or to the same. *)
Lemma rounded_mono (Na Da ea Nb Db eb c : Z) :
  0 ≤ Na → 0 < Da → ea ≤ round_exponent Na Da ea →
  0 ≤ Nb → 0 < Db → eb ≤ round_exponent Nb Db eb →
  c ≤ ea → c ≤ eb →
  Na * Db * 2 ^ (ea - c) ≤ Nb * Da * 2 ^ (eb - c) →
  SFnonneg (rounded Na Da ea) = true ∧ SFnonneg (rounded Nb Db eb) = true
  ∧ SFval (rounded Na Da ea) ≤ SFval (rounded Nb Db eb).
Proof.
  intros HNa HDa Hea HNb HDb Heb Hca Hcb Hle.
  destruct (rounded_range Na Da ea HNa HDa Hea) as (HKa & HEa & HUa & HLa).
  destruct (rounded_range Nb Db eb HNb HDb Heb) as (HKb & HEb & HUb & HLb).
  destruct (rounded_mantissa Na Da ea HNa HDa Hea) as (Hma & Hma').
  destruct (rounded_mantissa Nb Db eb HNb HDb Heb) as (Hmb & Hmb').
  unfold rounded.
  set (Ea := round_exponent Na Da ea) in *. set (Eb := round_exponent Nb Db eb) in *.
  set (Ka := Da * 2 ^ (Ea - ea)) in *. set (Kb := Db * 2 ^ (Eb - eb)) in *.
  set (ma := rne Na Ka) in *. set (mb := rne Nb Kb) in *.
  destruct (SFfinal_val ma Ea Hma HEa Hma') as [Hna Hva].
  destruct (SFfinal_val mb Eb Hmb HEb Hmb') as [Hnb Hvb].
  split; [done|]. split; [done|]. rewrite Hva, Hvb.
  apply Z.min_le_compat_r.
  (* the order of the values, at the exponents of the format *)
  assert (Na * Kb * 2 ^ (Ea - c) ≤ Nb * Ka * 2 ^ (Eb - c)) as Hle'.
  { unfold Ka, Kb.
    replace (Ea - c) with ((Ea - ea) + (ea - c)) by lia.
    replace (Eb - c) with ((Eb - eb) + (eb - c)) by lia.
    rewrite !pow2_split by lia.
    assert (0 < 2 ^ (Ea - ea)) by (apply pow2_pos; lia).
    assert (0 < 2 ^ (Eb - eb)) by (apply pow2_pos; lia).
    replace (Na * (Db * 2 ^ (Eb - eb)) * (2 ^ (Ea - ea) * 2 ^ (ea - c)))
      with (Na * Db * 2 ^ (ea - c) * (2 ^ (Ea - ea) * 2 ^ (Eb - eb))) by ring.
    replace (Nb * (Da * 2 ^ (Ea - ea)) * (2 ^ (Eb - eb) * 2 ^ (eb - c)))
      with (Nb * Da * 2 ^ (eb - c) * (2 ^ (Ea - ea) * 2 ^ (Eb - eb))) by ring.
    apply Z.mul_le_mono_nonneg_r; [nia|done]. }
  assert (0 < 2 ^ (Ea + 1074)) by (apply pow2_pos; lia).
  assert (0 < 2 ^ (Eb + 1074)) by (apply pow2_pos; lia).
  destruct (Z.lt_trichotomy Ea Eb) as [Hlt|[Heq|Hgt]].
  - (* a lower binade *)
    specialize (Hmb' ltac:(lia)).
    transitivity (2 ^ 53 * 2 ^ (Ea + 1074)).
    { apply Z.mul_le_mono_nonneg_r; lia. }
    transitivity (2 ^ 52 * 2 ^ (Eb + 1074)).
    { rewrite <- !pow2_split by lia. apply pow2_le. lia. }
    apply Z.mul_le_mono_nonneg_r; lia.
  - rewrite Heq in *.
    assert (0 < 2 ^ (Eb - c)) by (apply pow2_pos; lia).
    apply Z.mul_le_mono_pos_r in Hle'; [|done].
    apply Z.mul_le_mono_nonneg_r; [lia|].
    by apply rne_cross.
  - exfalso. specialize (HLa ltac:(lia)).
    assert (0 < 2 ^ (Eb - c)) as HP by (apply pow2_pos; lia).
    assert (2 * 2 ^ (Eb - c) ≤ 2 ^ (Ea - c)) as HQ.
    { replace (2 * 2 ^ (Eb - c)) with (2 ^ (1 + (Eb - c)))
        by (rewrite pow2_split by lia; done).
      apply pow2_le. lia. }
    set (P := 2 ^ (Eb - c)) in *. set (Q := 2 ^ (Ea - c)) in *.
    set (T := 2 ^ 52) in *.
    assert (2 ^ 53 = 2 * T) as HT by done. rewrite HT in HUb.
    assert (0 < T) by (by apply pow2_pos).
    assert (T * Ka * (Kb * Q) ≤ Na * (Kb * Q))
      by (apply Z.mul_le_mono_nonneg_r; nia).
    assert (T * Ka * Kb * (2 * P) ≤ T * Ka * Kb * Q)
      by (apply Z.mul_le_mono_nonneg_l; nia).
    assert (Nb * (Ka * P) < 2 * T * Kb * (Ka * P))
      by (apply Z.mul_lt_mono_pos_r; nia).
    nia.
Qed.
End binary64_monotone.

Section binary64_values.
Local Open Scope Z_scope.

(** The mantissa and the exponent of a number of the format. *)
Lemma valid_finite (s : bool) (m : positive) (e : Z) :
  valid_binary (S754_finite s m e) = true →
  -1074 ≤ e ≤ 971 ∧ Z.pos m < 2 ^ 53 ∧ (-1074 < e → 2 ^ 52 ≤ Z.pos m)
  ∧ fexp prec emax (Zdigits2 (Z.pos m) + e) = e.
Proof.
  intros Hv. simpl in Hv. apply andb_true_iff in Hv as [Hc He].
  unfold canonical_mantissa in Hc. apply Z.eqb_eq in Hc. apply Z.leb_le in He.
  change (Z.pos (digits2_pos m)) with (Zdigits2 (Z.pos m)) in Hc.
  pose proof (Zdigits2_bounds (Z.pos m) ltac:(lia)) as [Hlo Hhi].
  pose proof (fexp_ge (Zdigits2 (Z.pos m) + e)) as [H1 H2].
  pose proof (fexp_cases (Zdigits2 (Z.pos m) + e)) as Hcases.
  unfold emax, prec in He.
  set (d := Zdigits2 (Z.pos m)) in *.
  assert (0 < d) as Hd0 by (unfold d; simpl; lia).
  set (x := fexp prec emax (d + e)) in *.
  assert (d ≤ 53) as Hd by (clear Hlo Hhi; lia).
  split; [clear Hlo Hhi; lia|]. split; [|split; [|done]].
  - eapply Z.lt_le_trans; [exact Hhi|]. apply pow2_le. lia.
  - intros Hn.
    assert (d = 53) as Hd53 by (clear Hlo Hhi; lia).
    by rewrite Hd53 in Hlo.
Qed.

Lemma valid_val_bounds (s : bool) (m : positive) (e : Z) :
  valid_binary (S754_finite s m e) = true →
  1 ≤ Z.pos m * 2 ^ (e + 1074) < 2 ^ 2098.
Proof.
  intros (He & Hm & _ & _)%valid_finite.
  assert (0 < 2 ^ (e + 1074)) by (apply pow2_pos; lia).
  split; [nia|].
  replace 2098 with (53 + 2045) by lia. rewrite (pow2_split 53 2045) by lia.
  assert (2 ^ (e + 1074) ≤ 2 ^ 2045) by (apply pow2_le; lia).
  assert (0 < 2 ^ 53) by (by apply pow2_pos).
  eapply Z.lt_le_trans; [apply Z.mul_lt_mono_pos_r; [done|exact Hm]|].
  apply Z.mul_le_mono_nonneg_l; lia.
Qed.

(** The order of two positive numbers of the format is that of their
    values. *)
Lemma valid_val_lt (m1 m2 : positive) (e1 e2 : Z) :
  valid_binary (S754_finite false m1 e1) = true →
  valid_binary (S754_finite false m2 e2) = true →
  (e1 < e2 ∨ (e1 = e2 ∧ Z.pos m1 < Z.pos m2))
  ↔ Z.pos m1 * 2 ^ (e1 + 1074) < Z.pos m2 * 2 ^ (e2 + 1074).
Proof.
  intros (He1 & Hm1 & Hn1 & _)%valid_finite (He2 & Hm2 & Hn2 & _)%valid_finite.
  assert (0 < 2 ^ (e1 + 1074)) by (apply pow2_pos; lia).
  assert (0 < 2 ^ (e2 + 1074)) by (apply pow2_pos; lia).
  assert (∀ ma mb ea eb, -1074 ≤ ea → ea < eb → Z.pos ma < 2 ^ 53 →
            2 ^ 52 ≤ Z.pos mb →
            Z.pos ma * 2 ^ (ea + 1074) < Z.pos mb * 2 ^ (eb + 1074)) as Hlow.
  { intros ma mb ea eb Hea Hlt Hma Hmb.
    assert (0 < 2 ^ (ea + 1074)) by (apply pow2_pos; lia).
    assert (0 < 2 ^ (eb + 1074)) by (apply pow2_pos; lia).
    eapply Z.lt_le_trans; [apply Z.mul_lt_mono_pos_r; [done|exact Hma]|].
    transitivity (2 ^ 52 * 2 ^ (eb + 1074)).
    - rewrite <- !pow2_split by lia. apply pow2_le. lia.
    - apply Z.mul_le_mono_nonneg_r; lia. }
  split.
  - intros [Hlt|[-> Hlt]].
    + apply Hlow; [lia|done|done|]. apply Hn2. lia.
    + by apply Z.mul_lt_mono_pos_r.
  - intros Hlt.
    destruct (Z.lt_trichotomy e1 e2) as [?|[->|Hgt]]; [by left| |].
    + right. split; [done|]. by apply Z.mul_lt_mono_pos_r in Hlt.
    + exfalso. pose proof (Hlow m2 m1 e2 e1 ltac:(lia) Hgt Hm2 (Hn1 ltac:(lia))). lia.
Qed.

(** [x < y] is the order of the values. *)
Lemma SFltb_val (f g : spec_float) :
  valid_binary f = true → valid_binary g = true →
  f ≠ S754_nan → g ≠ S754_nan →
  SFltb f g = true ↔ SFval f < SFval g.
Proof.
  intros Hf Hg Hfn Hgn.
  assert (0 < 2 ^ 2098) as Hinf by (by apply pow2_pos).
  destruct f as [sf|sf| |sf mf ef], g as [sg|sg| |sg mg eg]; try done.
  all: try pose proof (valid_val_bounds _ _ _ Hf).
  all: try pose proof (valid_val_bounds _ _ _ Hg).
  all: try solve [ repeat match goal with s : bool |- _ => destruct s end;
                   unfold SFltb, SFcompare; cbn [SFval cond_Zopp];
                   split; intros; try done; try lia ].
  - rewrite SFltb_finite.
    destruct sf, sg; cbn [SFval cond_Zopp].
    + assert (valid_binary (S754_finite false mf ef) = true) as Hf' by exact Hf.
      assert (valid_binary (S754_finite false mg eg) = true) as Hg' by exact Hg.
      pose proof (valid_val_lt mg mf eg ef Hg' Hf') as Hiff.
      split; intros Hc.
      * assert (Z.pos mg * 2 ^ (eg + 1074) < Z.pos mf * 2 ^ (ef + 1074)); [|lia].
        apply Hiff. destruct Hc as [?|[-> ?]]; [by left|by right].
      * assert (Z.pos mg * 2 ^ (eg + 1074) < Z.pos mf * 2 ^ (ef + 1074)) as Hc' by lia.
        apply Hiff in Hc'. destruct Hc' as [?|[-> ?]]; [by left|by right].
    + split; [lia|done].
    + split; [done|lia].
    + by apply valid_val_lt.
Qed.

Lemma SFnonneg_val (f : spec_float) : SFnonneg f = true → 0 ≤ SFval f.
Proof.
  destruct f as [s|s| |s m e]; simpl; try done; try lia.
  - destruct s; [done|]. intros _. simpl. apply Z.lt_le_incl. by apply pow2_pos.
  - destruct s; [done|]. intros _. simpl.
    destruct (Z.le_gt_cases 0 (e + 1074)).
    + assert (0 < 2 ^ (e + 1074)) by (by apply pow2_pos). lia.
    + rewrite Z.pow_neg_r by lia. lia.
Qed.
End binary64_values.

Section binary64_operations.
Local Open Scope Z_scope.

Lemma fexp_mono (x y : Z) : x ≤ y → fexp prec emax x ≤ fexp prec emax y.
Proof. unfold fexp. lia. Qed.

Lemma Zdigits2_ge (m k : Z) : 0 < k → 2 ^ (k - 1) ≤ m → k ≤ Zdigits2 m.
Proof.
  intros Hk Hm.
  assert (0 < 2 ^ (k - 1)) by (apply pow2_pos; lia).
  pose proof (Zdigits2_bounds m ltac:(lia)) as [_ Hhi].
  pose proof (Zdigits2_nonneg m).
  assert (k - 1 < Zdigits2 m); [|lia]. apply pow2_lt_inv; lia.
Qed.

Lemma rne_1 (N : Z) : rne N 1 = N.
Proof. rewrite <- (Z.mul_1_r N) at 1. by apply rne_exact. Qed.

Lemma rounded_bounds (N D e : Z) :
  0 ≤ N → 0 < D → e ≤ round_exponent N D e →
  SFnonneg (rounded N D e) = true ∧ 0 ≤ SFval (rounded N D e) ≤ 2 ^ 2098.
Proof.
  intros HN HD He.
  destruct (rounded_range N D e HN HD He) as (HK & HE & _ & _).
  destruct (rounded_mantissa N D e HN HD He) as (Hm & Hm').
  destruct (SFfinal_val _ _ Hm HE Hm') as [Hn Hv].
  unfold rounded. split; [done|]. split; [by apply SFnonneg_val|].
  rewrite Hv. apply Z.le_min_r.
Qed.

(** A number of the format is the rounding of its own value. *)
Lemma rounded_self (m : positive) (e : Z) :
  valid_binary (S754_finite false m e) = true →
  rounded (Z.pos m * 2 ^ (e + 1074)) 1 (-1074) = S754_finite false m e.
Proof.
  intros (He & Hm & Hn & Hc)%valid_finite.
  unfold rounded, round_exponent.
  rewrite Z.div_1_r, Zdigits2_shift by lia.
  replace (Zdigits2 (Z.pos m) + (e + 1074) + -1074) with (Zdigits2 (Z.pos m) + e) by lia.
  rewrite Hc. replace (e - -1074) with (e + 1074) by lia.
  rewrite Z.mul_1_l, rne_exact by (apply pow2_pos; lia).
  unfold SFfinal, shr_fexp. rewrite Hc, Z.sub_diag.
  cbn [shr shr_record_of_loc shr_m].
  replace (e <=? emax - prec) with true; [done|].
  symmetry. apply Z.leb_le. unfold emax, prec. lia.
Qed.

(** The number of an integer [M] at an exponent [e] is the rounding of its
    value. *)
Lemma binary_normalize_rounded (M e : Z) :
  0 < M → -1074 ≤ e →
  binary_normalize prec emax M e false = rounded (M * 2 ^ (e + 1074)) 1 (-1074).
Proof.
  intros HM He.
  assert (0 < 2 ^ (e + 1074)) as Hp by (apply pow2_pos; lia).
  unfold rounded, round_exponent.
  rewrite Z.div_1_r, Zdigits2_shift by lia.
  replace (Zdigits2 M + (e + 1074) + -1074) with (Zdigits2 M + e) by lia.
  set (E0 := fexp prec emax (Zdigits2 M + e)).
  pose proof (fexp_ge (Zdigits2 M + e)) as [HE0 _]. fold E0 in HE0.
  replace (E0 - -1074) with (E0 + 1074) by lia. rewrite Z.mul_1_l.
  destruct M as [|p|p]; try lia.
  unfold binary_normalize, binary_round.
  change (Z.pos (digits2_pos p)) with (Zdigits2 (Z.pos p)). fold E0.
  unfold shl_align.
  destruct (E0 - e) as [|d|d] eqn:Ed.
  - (* the exponent of the format *)
    assert (E0 = e) as HEe by lia.
    pose proof (binary_round_aux_frac (Z.pos p) 1 e ltac:(lia) ltac:(lia)) as Hf.
    rewrite Z.div_1_r in Hf. fold E0 in Hf. rewrite HEe in Hf |- *.
    unfold loc_frac in Hf. rewrite Z.mod_1_r in Hf. cbn [Z.eqb] in Hf.
    rewrite Hf by lia. rewrite Z.sub_diag, Z.mul_1_l. change (2 ^ 0) with 1.
    by rewrite rne_1, rne_exact by lia.
  - (* a longer mantissa: shifted to the right *)
    pose proof (binary_round_aux_frac (Z.pos p) 1 e ltac:(lia) ltac:(lia)) as Hf.
    rewrite Z.div_1_r in Hf. fold E0 in Hf.
    unfold loc_frac in Hf. rewrite Z.mod_1_r in Hf. cbn [Z.eqb] in Hf.
    rewrite Hf by lia. rewrite Z.mul_1_l. f_equal.
    replace (E0 + 1074) with ((E0 - e) + (e + 1074)) by lia.
    rewrite (pow2_split (E0 - e) (e + 1074)) by lia.
    rewrite Ed. apply eq_sym, rne_scale; [by apply pow2_pos|done].
  - (* a shorter mantissa: shifted to the left *)
    assert (Z.pos (Pos.iter xO p d) = Z.pos p * 2 ^ (e - E0)) as Hz.
    { rewrite Pos_iter_xO. f_equal. f_equal. lia. }
    pose proof (binary_round_aux_frac (Z.pos (Pos.iter xO p d)) 1 E0
                  ltac:(lia) ltac:(lia)) as Hf.
    rewrite Z.div_1_r in Hf.
    assert (fexp prec emax (Zdigits2 (Z.pos (Pos.iter xO p d)) + E0) = E0) as HE.
    { rewrite Hz, Zdigits2_shift by lia.
      replace (Zdigits2 (Z.pos p) + (e - E0) + E0) with (Zdigits2 (Z.pos p) + e) by lia.
      done. }
    rewrite HE in Hf.
    unfold loc_frac in Hf. rewrite Z.mod_1_r in Hf. cbn [Z.eqb] in Hf.
    rewrite Hf by lia. rewrite Z.sub_diag, Z.mul_1_l. change (2 ^ 0) with 1.
    rewrite rne_1. f_equal. rewrite Hz.
    replace (e + 1074) with ((e - E0) + (E0 + 1074)) by lia.
    rewrite (pow2_split (e - E0) (E0 + 1074)), Z.mul_assoc by lia.
    symmetry. apply rne_exact. apply pow2_pos. lia.
Qed.

Lemma rounded_integer_digits (N : Z) :
  0 ≤ N → -1074 ≤ round_exponent N 1 (-1074).
Proof. intros _. unfold round_exponent. apply fexp_ge. Qed.

(** The value that [SFval] gives a finite number, with its sign. *)
Lemma SFval_aligned (s : bool) (m : positive) (e ez : Z) :
  -1074 ≤ ez → ez ≤ e →
  SFval (S754_finite s m e)
  = cond_Zopp s (Z.pos (shl_align m e ez).1) * 2 ^ (ez + 1074).
Proof.
  intros Hez Hle. rewrite shl_align_fst by done. cbn [SFval].
  replace (e + 1074) with ((e - ez) + (ez + 1074)) by lia.
  rewrite pow2_split by lia. destruct s; cbn [cond_Zopp]; ring.
Qed.

(** The difference of two finite numbers, the first at least the second:
    zero, or the rounding of the difference of the values. *)
Lemma SFsub_rounded (a m : spec_float) :
  valid_binary a = true → valid_binary m = true →
  SFfinite a = true → SFfinite m = true →
  SFval m ≤ SFval a →
  (SFval a = SFval m ∧ ∃ s, SF64sub a m = S754_zero s)
  ∨ (SFval m < SFval a
     ∧ SF64sub a m = rounded (SFval a - SFval m) 1 (-1074)).
Proof.
  intros Hva Hvm Hfa Hfm Hle.
  destruct a as [sa|sa| |sa ma ea], m as [sm|sm| |sm mm em]; try done.
  - left. split; [done|]. unfold SF64sub, SFsub. destruct sa, sm; eauto.
  - pose proof (valid_val_bounds _ _ _ Hvm) as Hb.
    destruct sm; cbn [SFval cond_Zopp] in Hle; [|lia].
    right. split; [cbn [SFval cond_Zopp]; lia|].
    cbn [SFval cond_Zopp SF64sub SFsub negb].
    rewrite Z.sub_0_l, Z.opp_involutive. symmetry. by apply rounded_self.
  - pose proof (valid_val_bounds _ _ _ Hva) as Hb.
    destruct sa; cbn [SFval cond_Zopp] in Hle; [lia|].
    right. split; [cbn [SFval cond_Zopp]; lia|].
    cbn [SFval cond_Zopp]. rewrite Z.sub_0_r.
    unfold SF64sub, SFsub. symmetry. by apply rounded_self.
  - apply valid_finite in Hva as Ha. apply valid_finite in Hvm as Hm.
    destruct Ha as (Hea & _), Hm as (Hem & _).
    set (ez := ea `min` em).
    assert (-1074 ≤ ez) as Hez by (unfold ez; lia).
    assert (0 < 2 ^ (ez + 1074)) as Hp by (apply pow2_pos; lia).
    rewrite (SFval_aligned sa ma ea ez), (SFval_aligned sm mm em ez) in Hle |- *
      by (unfold ez; lia).
    unfold SF64sub, SFsub. cbv zeta. fold ez.
    set (Ma := cond_Zopp sa (Z.pos (shl_align ma ea ez).1)) in *.
    set (Mm := cond_Zopp sm (Z.pos (shl_align mm em ez).1)) in *.
    assert (Mm ≤ Ma) as HM by (apply Z.mul_le_mono_pos_r in Hle; done).
    destruct (Z.eq_dec Ma Mm) as [Heq|Hne].
    + left. rewrite Heq. split; [done|]. rewrite Z.sub_diag. by exists false.
    + right. split; [apply Z.mul_lt_mono_pos_r; lia|].
      rewrite binary_normalize_rounded by lia. f_equal. ring.
Qed.

(** Subtracting one number from two: the differences are in the order of
    the two. *)
Lemma SFsub_mono (a b m : spec_float) :
  valid_binary a = true → valid_binary b = true → valid_binary m = true →
  SFfinite a = true → SFfinite b = true → SFfinite m = true →
  SFval m ≤ SFval a → SFval a ≤ SFval b →
  SFnonneg (SF64sub a m) = true ∧ SFnonneg (SF64sub b m) = true
  ∧ SFval (SF64sub a m) ≤ SFval (SF64sub b m).
Proof.
  intros Hva Hvb Hvm Hfa Hfb Hfm Hma Hab.
  destruct (SFsub_rounded a m Hva Hvm Hfa Hfm Hma) as [[Ha [sa Hsa]]|[Ha Hsa]];
    destruct (SFsub_rounded b m Hvb Hvm Hfb Hfm ltac:(lia)) as [[Hb [sb Hsb]]|[Hb Hsb]];
    rewrite Hsa, Hsb.
  - done.
  - destruct (rounded_bounds (SFval b - SFval m) 1 (-1074)) as [Hn Hv];
      [lia|lia|apply rounded_integer_digits; lia|].
    split; [done|]. split; [done|]. simpl. lia.
  - lia.
  - apply (rounded_mono _ 1 _ _ 1 _ (-1074));
      try lia; try (apply rounded_integer_digits; lia).
Qed.

(** The quotient of two positive numbers is the rounding of the quotient
    of the mantissas. *)
Lemma SFdiv_rounded (my mD : positive) (ey eD : Z) :
  let e' := fexp prec emax (Zdigits2 (Z.pos my) + ey - (Zdigits2 (Z.pos mD) + eD))
            `min` (ey - eD) in
  let s := ey - eD - e' in
  SF64div (S754_finite false my ey) (S754_finite false mD eD)
  = rounded (Z.pos my * 2 ^ s) (Z.pos mD) e'
  ∧ 0 ≤ s
  ∧ e' ≤ round_exponent (Z.pos my * 2 ^ s) (Z.pos mD) e'.
Proof.
  intros e' s.
  assert (0 ≤ s) as Hs by (unfold s, e'; lia).
  assert (0 < 2 ^ s) as Hps by (by apply pow2_pos).
  set (N := Z.pos my * 2 ^ s).
  assert (0 < N) as HN by (unfold N; nia).
  assert (e' ≤ round_exponent N (Z.pos mD) e') as Hdig.
  { unfold round_exponent.
    transitivity (fexp prec emax (Zdigits2 (Z.pos my) + ey - (Zdigits2 (Z.pos mD) + eD)));
      [unfold e'; lia|].
    apply fexp_mono.
    assert (Zdigits2 (Z.pos my) + s - Zdigits2 (Z.pos mD) ≤ Zdigits2 (N `div` Z.pos mD));
      [|unfold s; lia].
    set (k := Zdigits2 (Z.pos my) + s - Zdigits2 (Z.pos mD)).
    destruct (Z.le_gt_cases k 0) as [|Hk]; [pose proof (Zdigits2_nonneg (N `div` Z.pos mD)); lia|].
    apply Zdigits2_ge; [done|].
    pose proof (Zdigits2_bounds (Z.pos my) ltac:(lia)) as [Hlo _].
    pose proof (Zdigits2_bounds (Z.pos mD) ltac:(lia)) as [_ Hhi].
    assert (0 < Zdigits2 (Z.pos mD)) by (simpl; lia).
    assert (0 < Zdigits2 (Z.pos my)) by (simpl; lia).
    apply Z.div_le_lower_bound; [lia|].
    (* mD * 2^(k-1) <= 2^dD * 2^(k-1) = 2^(dy - 1 + s) <= my * 2^s *)
    transitivity (2 ^ Zdigits2 (Z.pos mD) * 2 ^ (k - 1)).
    - apply Z.mul_le_mono_nonneg_r; [apply Z.lt_le_incl, pow2_pos; lia|lia].
    - rewrite <- pow2_split by lia.
      replace (Zdigits2 (Z.pos mD) + (k - 1)) with ((Zdigits2 (Z.pos my) - 1) + s)
        by (unfold k; lia).
      rewrite pow2_split by lia. unfold N.
      apply Z.mul_le_mono_nonneg_r; lia. }
  split; [|split; done].
  unfold SF64div, SFdiv, SFdiv_core_binary. cbn [xorb]. fold e'. fold s.
  assert (match s with
          | 0 => Z.pos my
          | Z.pos _ => Z.pos my ≪ s
          | Z.neg _ => 0
          end = N) as ->.
  { unfold N. destruct s as [|p|p] eqn:Es; [simpl; lia| |lia].
    by rewrite Z.shiftl_mul_pow2. }
  rewrite (surjective_pairing (Z.div_eucl N (Z.pos mD))).
  change (Z.div_eucl N (Z.pos mD)).1 with (N `div` Z.pos mD).
  change (Z.div_eucl N (Z.pos mD)).2 with (N `mod` Z.pos mD).
  cbv beta iota.
  rewrite new_location_frac by lia.
  unfold round_exponent in Hdig.
  by rewrite binary_round_aux_frac by (done || lia).
Qed.

(** A change of scale keeps the order of two values. *)
Lemma pow2_order_shift (A B x y x' y' : Z) :
  0 ≤ x → 0 ≤ y → 0 ≤ x' → 0 ≤ y' → x - x' = y - y' →
  A * 2 ^ x ≤ B * 2 ^ y → A * 2 ^ x' ≤ B * 2 ^ y'.
Proof.
  intros Hx Hy Hx' Hy' Heq Hle.
  destruct (Z.le_gt_cases x' x) as [Hc|Hc].
  - replace x with (x' + (x - x')) in Hle by lia.
    replace y with (y' + (x - x')) in Hle by lia.
    rewrite !pow2_split, !Z.mul_assoc in Hle by lia.
    apply Z.mul_le_mono_pos_r in Hle; [done|]. apply pow2_pos. lia.
  - replace x' with (x + (x' - x)) by lia.
    replace y' with (y + (x' - x)) by lia.
    rewrite !pow2_split, !Z.mul_assoc by lia.
    apply Z.mul_le_mono_nonneg_r; [|done]. apply Z.lt_le_incl, pow2_pos. lia.
Qed.

(** Dividing two numbers that are 0 or above by one positive number: the
    quotients are in the order of the two. *)
Lemma SFdiv_mono (ya yb : spec_float) (mD : positive) (eD : Z) :
  valid_binary ya = true → valid_binary yb = true →
  SFnonneg ya = true → SFnonneg yb = true →
  SFval ya ≤ SFval yb →
  SFnonneg (SF64div ya (S754_finite false mD eD)) = true
  ∧ SFnonneg (SF64div yb (S754_finite false mD eD)) = true
  ∧ SFval (SF64div ya (S754_finite false mD eD))
    ≤ SFval (SF64div yb (S754_finite false mD eD)).
Proof.
  intros Hva Hvb Hna Hnb Hle.
  assert (0 < 2 ^ 2098) as Hinf by (by apply pow2_pos).
  assert (∀ my ey,
            SFnonneg (SF64div (S754_finite false my ey) (S754_finite false mD eD)) = true
            ∧ 0 ≤ SFval (SF64div (S754_finite false my ey) (S754_finite false mD eD))
              ≤ 2 ^ 2098) as Hone.
  { intros my ey. destruct (SFdiv_rounded my mD ey eD) as (-> & Hs & Hd).
    apply rounded_bounds; [|lia|done].
    assert (0 < 2 ^ (ey - eD - fexp prec emax (Zdigits2 (Z.pos my) + ey
                       - (Zdigits2 (Z.pos mD) + eD)) `min` (ey - eD)))
      by (by apply pow2_pos). nia. }
  assert (∀ s, SF64div (S754_zero s) (S754_finite false mD eD)
               = S754_zero (xorb s false)) as Hz by done.
  assert (SF64div (S754_infinity false) (S754_finite false mD eD)
          = S754_infinity false) as Hi by done.
  destruct ya as [sa|sa| |sa ma ea], yb as [sb|sb| |sb mb eb]; try done;
    try (destruct sa; [done|]); try (destruct sb; [done|]).
  all: try rewrite !(Hz sa); try rewrite !(Hz sb); try rewrite !Hi;
    cbn [SFval SFnonneg cond_Zopp negb] in *.
  - split; [done|]. split; [done|]. lia.
  - destruct (Hone mb eb) as [Hn Hv]. split; [done|]. split; [done|]. lia.
  - lia.
  - done.
  - pose proof (valid_val_bounds _ _ _ Hvb). lia.
  - pose proof (valid_val_bounds _ _ _ Hva). lia.
  - destruct (Hone ma ea) as [Hn Hv]. split; [done|]. split; [done|]. lia.
  - destruct (SFdiv_rounded ma mD ea eD) as (-> & Hsa & Hda).
    destruct (SFdiv_rounded mb mD eb eD) as (-> & Hsb & Hdb).
    set (e'a := fexp prec emax (Zdigits2 (Z.pos ma) + ea - (Zdigits2 (Z.pos mD) + eD))
                `min` (ea - eD)) in *.
    set (e'b := fexp prec emax (Zdigits2 (Z.pos mb) + eb - (Zdigits2 (Z.pos mD) + eD))
                `min` (eb - eD)) in *.
    apply valid_finite in Hva as (Hea & _), Hvb as (Heb & _).
    apply (rounded_mono _ _ _ _ _ _ (e'a `min` e'b)); try lia; try done.
    replace (Z.pos ma * 2 ^ (ea - eD - e'a) * Z.pos mD * 2 ^ (e'a - e'a `min` e'b))
        with (Z.pos mD * (Z.pos ma * (2 ^ (ea - eD - e'a) * 2 ^ (e'a - e'a `min` e'b))))
        by ring.
      replace (Z.pos mb * 2 ^ (eb - eD - e'b) * Z.pos mD * 2 ^ (e'b - e'a `min` e'b))
        with (Z.pos mD * (Z.pos mb * (2 ^ (eb - eD - e'b) * 2 ^ (e'b - e'a `min` e'b))))
        by ring.
      rewrite <- !pow2_split by lia.
      apply Z.mul_le_mono_nonneg_l; [lia|].
      apply (pow2_order_shift _ _ (ea + 1074) (eb + 1074)); try lia.
Qed.
End binary64_operations.

Section binary64_normalize.
Local Open Scope Z_scope.

Lemma SFdiv_nan_r (y : spec_float) : SF64div y S754_nan = S754_nan.
Proof. by destruct y. Qed.

(** Divided by an infinity, every number is a zero or NaN. *)
Lemma SFdiv_infinity_order (y1 y2 : spec_float) (s : bool) :
  SFltb (SF64div y1 (S754_infinity s)) (SF64div y2 (S754_infinity s)) = false.
Proof.
  destruct y1 as [[]|[]| |[] ? ?], y2 as [[]|[]| |[] ? ?], s; reflexivity.
Qed.

(** Divided by a zero, a number that is 0 or above is NaN or the infinity
    of the sign of the zero. *)
Lemma SFdiv_zero_order (y1 y2 : spec_float) (s : bool) :
  SFnonneg y1 = true → SFnonneg y2 = true →
  SFltb (SF64div y1 (S754_zero s)) (SF64div y2 (S754_zero s)) = false.
Proof.
  destruct y1 as [?|[]| |[] ? ?], y2 as [?|[]| |[] ? ?], s; done.
Qed.

(** A difference is finite only if both numbers are. *)
Lemma SFsub_finite (a b : spec_float) :
  SFfinite (SF64sub a b) = true → SFfinite a = true ∧ SFfinite b = true.
Proof.
  destruct a as [?|[]| |? ? ?], b as [?|[]| |? ? ?];
    first [ by intros [=] | by intros _ ].
Qed.

Lemma SFfinite_val (f : spec_float) :
  valid_binary f = true → SFfinite f = true →
  - 2 ^ 2098 < SFval f < 2 ^ 2098.
Proof.
  intros Hv Hf. assert (0 < 2 ^ 2098) by (by apply pow2_pos).
  destruct f as [s|s| |s m e]; try done; cbn [SFval cond_Zopp].
  pose proof (valid_val_bounds _ _ _ Hv). destruct s; cbn [cond_Zopp]; lia.
Qed.

Lemma SFfinite_between (x m M : spec_float) :
  valid_binary m = true → valid_binary M = true →
  SFfinite m = true → SFfinite M = true →
  x ≠ S754_nan → SFval m ≤ SFval x ≤ SFval M → SFfinite x = true.
Proof.
  intros Hvm HvM Hm HM Hx Hle.
  pose proof (SFfinite_val m Hvm Hm). pose proof (SFfinite_val M HvM HM).
  destruct x as [s|s| |s mx ex]; try done.
  destruct s; cbn [SFval cond_Zopp] in Hle; lia.
Qed.

Lemma SFltb_false_val (f g : spec_float) :
  valid_binary f = true → valid_binary g = true →
  f ≠ S754_nan → g ≠ S754_nan →
  SFltb f g = false → SFval g ≤ SFval f.
Proof.
  intros Hf Hg Hnf Hng Hlt.
  destruct (Z.le_gt_cases (SFval g) (SFval f)) as [|Hc]; [done|].
  apply (SFltb_val f g) in Hc; try done. congruence.
Qed.

(** Scaling by a minimum [m] and a maximum [M] above it keeps the order of
    two numbers between them: if [b] is not below [a], the scaled [b] is
    not below the scaled [a]. *)
Lemma SFnormalize_order (a b m M : spec_float) :
  valid_binary a = true → valid_binary b = true →
  valid_binary m = true → valid_binary M = true →
  valid_binary (SF64sub a m) = true → valid_binary (SF64sub b m) = true →
  valid_binary (SF64div (SF64sub a m) (SF64sub M m)) = true →
  valid_binary (SF64div (SF64sub b m) (SF64sub M m)) = true →
  a ≠ S754_nan → b ≠ S754_nan →
  SFltb a m = false → SFltb M a = false →
  SFltb b m = false → SFltb M b = false →
  SFltb m M = true → SFltb b a = false →
  SFltb (SF64div (SF64sub b m) (SF64sub M m))
        (SF64div (SF64sub a m) (SF64sub M m)) = false.
Proof.
  intros Hva Hvb Hvm HvM Hvya Hvyb Hvqa Hvqb Hna Hnb Ham HMa Hbm HMb HmM Hba.
  assert (m ≠ S754_nan) as Hnm by (by intros ->).
  assert (M ≠ S754_nan) as HnM by (intros ->; by destruct m).
  assert (SFval m ≤ SFval a) as Hma by (by apply SFltb_false_val).
  assert (SFval a ≤ SFval M) as HaM by (by apply SFltb_false_val).
  assert (SFval m ≤ SFval b) as Hmb by (by apply SFltb_false_val).
  assert (SFval b ≤ SFval M) as HbM by (by apply SFltb_false_val).
  assert (SFval a ≤ SFval b) as Hab by (by apply SFltb_false_val).
  assert (SFval m < SFval M) as HmM' by (by apply SFltb_val).
  assert (SFfinite (SF64sub M m) = true →
          SFnonneg (SF64sub M m) = true
          ∧ SFnonneg (SF64sub a m) = true ∧ SFnonneg (SF64sub b m) = true
          ∧ SFval (SF64sub a m) ≤ SFval (SF64sub b m)) as Hfin.
  { intros [HfM Hfm]%SFsub_finite.
    assert (SFfinite a = true) as Hfa by (by apply (SFfinite_between a m M)).
    assert (SFfinite b = true) as Hfb by (by apply (SFfinite_between b m M)).
    destruct (SFsub_mono m M m) as (_ & HnR & _); try done; try lia.
    destruct (SFsub_mono a b m) as (Hya & Hyb & Hle); try done. }
  destruct (SF64sub M m) as [sR|sR| |sR mD eD] eqn:ER.
  - destruct Hfin as (_ & Hya & Hyb & _); [done|]. by apply SFdiv_zero_order.
  - apply SFdiv_infinity_order.
  - by rewrite !SFdiv_nan_r.
  - destruct Hfin as (HnR & Hya & Hyb & Hle); [done|].
    destruct sR; [done|].
    destruct (SFdiv_mono (SF64sub a m) (SF64sub b m) mD eD)
      as (Hqa & Hqb & Hq); try done.
    destruct (SFltb (SF64div (SF64sub b m) (S754_finite false mD eD))
                    (SF64div (SF64sub a m) (S754_finite false mD eD))) eqn:E;
      [|done].
    apply SFltb_val in E; try done; [lia| |].
    + intros Heq. by rewrite Heq in Hqb.
    + intros Heq. by rewrite Heq in Hqa.
Qed.
End binary64_normalize.

Lemma ltb_asym (a b : float) :
  PrimFloat.ltb a b = true → PrimFloat.ltb b a = false.
Proof.
  rewrite !ltb_spec. intros Hab.
  assert (Prim2SF a ≠ S754_nan) as Ha by (by intros Heq; rewrite Heq in Hab).
  assert (Prim2SF b ≠ S754_nan) as Hb.
  { intros Heq. rewrite Heq in Hab. by destruct (Prim2SF a). }
  apply SFltb_val in Hab; try done; try apply Prim2SF_valid.
  destruct (SFltb (Prim2SF b) (Prim2SF a)) eqn:E; [|done].
  apply SFltb_val in E; try done; try apply Prim2SF_valid. lia.
Qed.

(** The scaling of [normalizeData] on binary64, for numbers [a] and [b]
    between a minimum [m] and a maximum [M] above it. *)
Lemma normalize_order (a b m M : float) :
  PrimFloat.is_nan a = false → PrimFloat.is_nan b = false →
  PrimFloat.ltb a m = false → PrimFloat.ltb M a = false →
  PrimFloat.ltb b m = false → PrimFloat.ltb M b = false →
  PrimFloat.ltb m M = true → PrimFloat.ltb b a = false →
  PrimFloat.ltb ((b - m) / (M - m)) ((a - m) / (M - m)) = false.
Proof.
  rewrite !is_nan_false, !ltb_spec.
  intros Ha Hb Ham HMa Hbm HMb HmM Hba.
  pose proof (Prim2SF_valid (a - m)) as Hya.
  pose proof (Prim2SF_valid (b - m)) as Hyb.
  pose proof (Prim2SF_valid ((a - m) / (M - m))) as Hqa.
  pose proof (Prim2SF_valid ((b - m) / (M - m))) as Hqb.
  rewrite !div_spec, !sub_spec in *.
  apply SFnormalize_order; try done; apply Prim2SF_valid.
Qed.

(** The closes of a symbol whose statistics have a maximum above the
    minimum: none is NaN, and each lies between the two. *)
Lemma closes_in_range (o : series float) :
  PrimFloat.ltb (mm_min (Close (minMax_symbol o)))
                (mm_max (Close (minMax_symbol o))) = true →
  ∀ date e, o !! date = Some e →
    PrimFloat.is_nan (Close e) = false
    ∧ PrimFloat.ltb (Close e) (mm_min (Close (minMax_symbol o))) = false
    ∧ PrimFloat.ltb (mm_max (Close (minMax_symbol o))) (Close e) = false.
Proof.
  intros Hgt.
  assert (∀ date e, o !! date = Some e → PrimFloat.is_nan (Close e) = false)
    as Hnan.
  { intros date e He. destruct (PrimFloat.is_nan (Close e)) eqn:E; [|done].
    pose proof (Math_min_nan _ _ (field_in_values Close o date e He) E) as Hmin.
    unfold minMax_symbol in Hgt. cbn [Close mm_min mm_max] in Hgt.
    rewrite Hmin, ltb_spec in Hgt.
    by change (Prim2SF PrimFloat.nan) with S754_nan in Hgt. }
  intros date e He. split; [by apply (Hnan date)|].
  assert (o ≠ ∅) as Hne by (intros ->; by rewrite lookup_empty in He).
  destruct (field_range Close o Hne Hnan) as (_ & _ & Hr).
  by apply (Hr date).
Qed.

Lemma normalize_entry_order (o : series float) (d1 d2 : string)
    (e1 e2 : OpenClose float) :
  PrimFloat.ltb (mm_min (Close (minMax_symbol o)))
                (mm_max (Close (minMax_symbol o))) = true →
  o !! d1 = Some e1 → o !! d2 = Some e2 →
  PrimFloat.ltb (Close e2) (Close e1) = false →
  PrimFloat.ltb (Close (normalize_entry (minMax_symbol o) e2))
                (Close (normalize_entry (minMax_symbol o) e1)) = false.
Proof.
  intros Hgt H1 H2 Hle.
  destruct (closes_in_range o Hgt d1 e1 H1) as (Hn1 & Hl1 & Hh1).
  destruct (closes_in_range o Hgt d2 e2 H2) as (Hn2 & Hl2 & Hh2).
  unfold normalize_entry. cbn [Close num_div num_sub binary64].
  by apply normalize_order.
Qed.

(** C10 (amended).  On binary64, for a symbol whose close statistics
    satisfy max > min, scaling never turns an order around: for any two
    dates at which the symbol has records, if the normalized close at the
    first is strictly greater than at the second then so is the raw close,
    and if the raw close at the first is strictly greater then the
    normalized close at the second is not greater than at the first.  For
    duplicate-free dates and every anchor and horizon at which the symbol
    has both records, the target bit built from the normalized series is
    at most the bit built from the raw series: it is 1 only if the raw bit
    is 1. *)
Theorem normalizeData_keeps_order (pd : aligned float) (symbol : string)
    (o : series float) (mm : OpenClose (MinMax float)) :
  pd !! symbol = Some o →
  minMax (normalizeData pd) !! symbol = Some mm →
  num_gt (mm_max (Close mm)) (mm_min (Close mm)) = true →
  (∀ d1 d2 e1 e2, o !! d1 = Some e1 → o !! d2 = Some e2 →
     ∃ n1 n2,
       entry (normalized (normalizeData pd)) symbol d1 = Some n1
       ∧ entry (normalized (normalizeData pd)) symbol d2 = Some n2
       ∧ (num_gt (Close n1) (Close n2) = true →
          num_gt (Close e1) (Close e2) = true)
       ∧ (num_gt (Close e1) (Close e2) = true →
          num_gt (Close n2) (Close n1) = false))
  ∧ (∀ symbols dates sequenceLength predictionDays i h k currentDate futureDate,
       NoDup dates →
       sequenceLength ≤ i → i + predictionDays < length dates →
       1 ≤ h ≤ predictionDays →
       dates !! i = Some currentDate → dates !! (i + h) = Some futureDate →
       symbols !! k = Some symbol →
       is_Some (o !! currentDate) → is_Some (o !! futureDate) →
       ∃ bn br,
         target_bit (prepareSamples (normalized (normalizeData pd)) symbols dates
                       sequenceLength predictionDays)
                    sequenceLength (length symbols) i h k = Some bn
         ∧ target_bit (prepareSamples pd symbols dates sequenceLength predictionDays)
                      sequenceLength (length symbols) i h k = Some br
         ∧ bn ≤ br).
Proof.
  intros Ho Hmm Hgt.
  assert (mm = minMax_symbol o) as ->.
  { unfold normalizeData in Hmm. cbn [minMax] in Hmm.
    rewrite lookup_fmap, Ho in Hmm. by injection Hmm as <-. }
  change (PrimFloat.ltb (mm_min (Close (minMax_symbol o)))
                        (mm_max (Close (minMax_symbol o))) = true) in Hgt.
  split.
  - intros d1 d2 e1 e2 H1 H2.
    exists (normalize_entry (minMax_symbol o) e1),
           (normalize_entry (minMax_symbol o) e2).
    rewrite !(entry_normalized pd symbol _ o Ho), H1, H2.
    split; [done|]. split; [done|].
    change (num_gt (Close (normalize_entry (minMax_symbol o) e1))
                   (Close (normalize_entry (minMax_symbol o) e2)))
      with (PrimFloat.ltb (Close (normalize_entry (minMax_symbol o) e2))
                          (Close (normalize_entry (minMax_symbol o) e1))).
    change (num_gt (Close (normalize_entry (minMax_symbol o) e2))
                   (Close (normalize_entry (minMax_symbol o) e1)))
      with (PrimFloat.ltb (Close (normalize_entry (minMax_symbol o) e1))
                          (Close (normalize_entry (minMax_symbol o) e2))).
    change (num_gt (Close e1) (Close e2))
      with (PrimFloat.ltb (Close e2) (Close e1)).
    split.
    + intros Hn. destruct (PrimFloat.ltb (Close e2) (Close e1)) eqn:E; [done|].
      by rewrite (normalize_entry_order o d1 d2 e1 e2) in Hn.
    + intros Hr. apply (normalize_entry_order o d2 d1 e2 e1); try done.
      by apply ltb_asym.
  - intros symbols dates sequenceLength predictionDays i h k currentDate futureDate
      Hnd HT Hi Hh Hcur Hfut Hk [a Ha] [e He].
    rewrite !(target_bit_window_label _ symbols dates sequenceLength predictionDays
                i h k currentDate futureDate symbol) by done.
    eexists _, _. split; [done|]. split; [done|].
    unfold window_label, anchor_close.
    rewrite !(entry_normalized pd symbol _ o Ho), !(entry_lookup pd symbol _ o Ho).
    rewrite Ha, He. cbn [fmap option_fmap option_map].
    change (num_gt (Close (normalize_entry (minMax_symbol o) e))
                   (Close (normalize_entry (minMax_symbol o) a)))
      with (PrimFloat.ltb (Close (normalize_entry (minMax_symbol o) a))
                          (Close (normalize_entry (minMax_symbol o) e))).
    change (num_gt (Close e) (Close a))
      with (PrimFloat.ltb (Close a) (Close e)).
    destruct (PrimFloat.ltb (Close a) (Close e)) eqn:E.
    + case_match; lia.
    + by rewrite (normalize_entry_order o futureDate currentDate e a).
Qed.

Lemma normalizeData_keeps_order_witness :
  ∃ n1 n2,
    entry (normalized (normalizeData close_neighbours)) "AAPL" "2024-01-04" = Some n1
    ∧ entry (normalized (normalizeData close_neighbours)) "AAPL" "2024-01-03" = Some n2
    ∧ (num_gt (Close n1) (Close n2) = true → num_gt 3%float 2%float = true)
    ∧ (num_gt 3%float 2%float = true → num_gt (Close n2) (Close n1) = false).
Proof.
  refine (proj1 (normalizeData_keeps_order close_neighbours "AAPL"
                   {[ "2024-01-01" := mkOpenClose 1%float 0%float;
                      "2024-01-02" := mkOpenClose 2%float 0x1.fffffffffffffp+0%float;
                      "2024-01-03" := mkOpenClose 3%float 2%float;
                      "2024-01-04" := mkOpenClose 4%float 3%float ]}
                   (mkOpenClose (mkMinMax 1%float 4%float) (mkMinMax 0%float 3%float))
                   _ _ _)
            "2024-01-04" "2024-01-03"
            (mkOpenClose 4%float 3%float) (mkOpenClose 3%float 2%float) _ _).
  - reflexivity.
  - vm_compute; reflexivity.
  - vm_compute; reflexivity.
  - vm_compute; reflexivity.
  - vm_compute; reflexivity.
Defined.

(** * binary64: sums and quotients of counts *)

Section binary64_counts.
Local Open Scope Z_scope.

Lemma shr_1_exact (m : Z) :
  0 ≤ m →
  shr_1 {| shr_m := 2 * m; shr_r := false; shr_s := false |}
  = {| shr_m := m; shr_r := false; shr_s := false |}.
Proof. destruct m as [|p|p]; try lia; done. Qed.

(** Shifting out zeros loses nothing. *)
Lemma iter_shr_1_exact (k : positive) (m : Z) :
  0 ≤ m →
  SpecFloat.iter_pos shr_1 k {| shr_m := m * 2 ^ Z.pos k; shr_r := false; shr_s := false |}
  = {| shr_m := m; shr_r := false; shr_s := false |}.
Proof.
  revert m. induction k as [k IH|k IH|]; intros m Hm.
  - assert (0 < 2 ^ Z.pos k) by (by apply pow2_pos).
    replace (m * 2 ^ Z.pos k~1) with (2 * (m * 2 ^ Z.pos k * 2 ^ Z.pos k))
      by (rewrite pow2_xI; ring).
    change (SpecFloat.iter_pos shr_1 k~1 ?x)
      with (SpecFloat.iter_pos shr_1 k (SpecFloat.iter_pos shr_1 k (shr_1 x))).
    rewrite shr_1_exact by nia. rewrite IH by nia. by apply IH.
  - assert (0 < 2 ^ Z.pos k) by (by apply pow2_pos).
    replace (m * 2 ^ Z.pos k~0) with (m * 2 ^ Z.pos k * 2 ^ Z.pos k)
      by (rewrite pow2_xO; ring).
    change (SpecFloat.iter_pos shr_1 k~0 ?x)
      with (SpecFloat.iter_pos shr_1 k (SpecFloat.iter_pos shr_1 k x)).
    rewrite IH by nia. by apply IH.
  - replace (m * 2 ^ 1) with (2 * m) by lia. by apply shr_1_exact.
Qed.

(** A mantissa of 53 digits followed by [k] zeros is not rounded. *)
Lemma binary_round_aux_shift (m0 : positive) (e k : Z) :
  Zdigits2 (Z.pos m0) = 53 → 0 ≤ k → -1074 ≤ e + k ≤ 971 →
  binary_round_aux prec emax false (Z.pos m0 * 2 ^ k) e loc_Exact
  = S754_finite false m0 (e + k).
Proof.
  intros Hd Hk He. unfold binary_round_aux, shr_fexp.
  rewrite Zdigits2_shift, Hd by lia.
  assert (fexp prec emax (53 + k + e) - e = k) as ->.
  { unfold fexp, SpecFloat.emin, prec, emax. lia. }
  assert (shr (shr_record_of_loc (Z.pos m0 * 2 ^ k) loc_Exact) e k
          = ({| shr_m := Z.pos m0; shr_r := false; shr_s := false |}, e + k)) as ->.
  { unfold shr, shr_record_of_loc. destruct k as [|p|p]; try lia.
    - by rewrite Z.mul_1_r, Z.add_0_r.
    - by rewrite iter_shr_1_exact. }
  cbn [shr_m loc_of_shr_record round_nearest_even]. rewrite Hd.
  assert (fexp prec emax (53 + (e + k)) - (e + k) = 0) as ->.
  { unfold fexp, SpecFloat.emin, prec, emax. lia. }
  cbn [shr shr_record_of_loc shr_m].
  replace (e + k <=? emax - prec) with true; [done|].
  symmetry. apply Z.leb_le. unfold emax, prec. lia.
Qed.

(** The binary64 number of an integer below 2^53 given with a scale. *)
Lemma binary_normalize_scaled (n e : Z) :
  0 < n < 2 ^ 53 → -1074 ≤ e ≤ 0 →
  binary_normalize prec emax (n * 2 ^ (- e)) e false
  = S754_finite false (Z.to_pos (n * 2 ^ (53 - Zdigits2 n))) (Zdigits2 n - 53).
Proof.
  intros [Hn0 Hn] He.
  pose proof (Zdigits2_bounds n Hn0) as [Hlo Hhi].
  assert (0 < Zdigits2 n) as Hd0 by (destruct n; simpl in *; lia).
  assert (Zdigits2 n ≤ 53) as Hd.
  { assert (Zdigits2 n - 1 < 53); [|lia]. apply pow2_lt_inv; lia. }
  set (dn := Zdigits2 n) in *.
  set (c := n * 2 ^ (53 - dn)).
  assert (0 < 2 ^ (53 - dn)) by (apply pow2_pos; lia).
  assert (0 < c) as Hc by (unfold c; nia).
  assert (Zdigits2 c = 53) as Hdc.
  { unfold c. rewrite Zdigits2_shift by lia. fold dn. lia. }
  assert (Z.pos (Z.to_pos c) = c) as Hpc by (by apply Z2Pos.id).
  assert (0 < 2 ^ (- e)) by (apply pow2_pos; lia).
  destruct (n * 2 ^ (- e)) as [|p|p] eqn:EM; try nia.
  unfold binary_normalize, binary_round.
  change (Z.pos (digits2_pos p)) with (Zdigits2 (Z.pos p)).
  rewrite <- EM, Zdigits2_shift by lia. fold dn.
  assert (fexp prec emax (dn + - e + e) = dn - 53) as ->.
  { unfold fexp, SpecFloat.emin, prec, emax. lia. }
  unfold shl_align.
  destruct (dn - 53 - e) as [|d|d] eqn:Ed.
  - replace e with (dn - 53) in * by lia.
    rewrite <- (binary_round_aux_exact (Z.to_pos c) (dn - 53)); [|by rewrite Hpc|lia].
    f_equal. rewrite Hpc, <- EM. unfold c. f_equal. f_equal. lia.
  - rewrite <- EM.
    replace (n * 2 ^ (- e)) with (Z.pos (Z.to_pos c) * 2 ^ Z.pos d).
    + rewrite binary_round_aux_shift; [f_equal; lia|by rewrite Hpc|lia|lia].
    + rewrite Hpc. unfold c. rewrite <- Z.mul_assoc, <- Z.pow_add_r by lia.
      f_equal. f_equal. lia.
  - rewrite <- (binary_round_aux_exact (Z.to_pos c) (dn - 53)); [|by rewrite Hpc|lia].
    f_equal. rewrite Hpc, Pos_iter_xO, <- EM. unfold c.
    rewrite <- Z.mul_assoc, <- Z.pow_add_r by lia. f_equal. f_equal. lia.
Qed.

Lemma binary_normalize_canonical (n : Z) :
  0 < n < 2 ^ 53 →
  binary_normalize prec emax n 0 false
  = S754_finite false (Z.to_pos (n * 2 ^ (53 - Zdigits2 n))) (Zdigits2 n - 53).
Proof.
  intros Hn. rewrite <- (binary_normalize_scaled n 0) by lia.
  f_equal. simpl. lia.
Qed.

(** The sum of two integers, when it is below 2^53, is not rounded. *)
Lemma SFadd_integers (a b : Z) :
  0 ≤ a → 0 ≤ b → a + b < 2 ^ 53 →
  SF64add (binary_normalize prec emax a 0 false) (binary_normalize prec emax b 0 false)
  = binary_normalize prec emax (a + b) 0 false.
Proof.
  intros Ha Hb Hab.
  destruct (Z.eq_dec a 0) as [->|Ha0].
  { rewrite Z.add_0_l. destruct (Z.eq_dec b 0) as [->|Hb0]; [done|].
    by rewrite (binary_normalize_canonical b) by lia. }
  destruct (Z.eq_dec b 0) as [->|Hb0].
  { rewrite Z.add_0_r. by rewrite (binary_normalize_canonical a) by lia. }
  rewrite (binary_normalize_canonical a), (binary_normalize_canonical b),
    (binary_normalize_canonical (a + b)) by lia.
  pose proof (Zdigits2_bounds a ltac:(lia)) as [Hloa Hhia].
  pose proof (Zdigits2_bounds b ltac:(lia)) as [Hlob Hhib].
  assert (0 < Zdigits2 a) by (destruct a; simpl in *; lia).
  assert (0 < Zdigits2 b) by (destruct b; simpl in *; lia).
  assert (Zdigits2 a ≤ 53).
  { assert (Zdigits2 a - 1 < 53); [|lia]. apply pow2_lt_inv; lia. }
  assert (Zdigits2 b ≤ 53).
  { assert (Zdigits2 b - 1 < 53); [|lia]. apply pow2_lt_inv; lia. }
  set (da := Zdigits2 a) in *. set (db := Zdigits2 b) in *.
  assert (0 < 2 ^ (53 - da)) by (apply pow2_pos; lia).
  assert (0 < 2 ^ (53 - db)) by (apply pow2_pos; lia).
  unfold SF64add, SFadd. cbv zeta. cbn [cond_Zopp].
  set (ez := (da - 53) `min` (db - 53)).
  rewrite !shl_align_fst by lia.
  rewrite !Z2Pos.id by nia.
  replace (a * 2 ^ (53 - da) * 2 ^ (da - 53 - ez)
           + b * 2 ^ (53 - db) * 2 ^ (db - 53 - ez))
    with ((a + b) * 2 ^ (- ez)).
  - apply binary_normalize_scaled; lia.
  - rewrite <- !Z.mul_assoc, <- !Z.pow_add_r by lia.
    replace (53 - da + (da - 53 - ez)) with (- ez) by lia.
    replace (53 - db + (db - 53 - ez)) with (- ez) by lia. ring.
Qed.
End binary64_counts.

Lemma Prim2SF_nat_number (n : nat) :
  (Z.of_nat n < 2 ^ 53)%Z →
  Prim2SF (nat_number n) = binary_normalize prec emax (Z.of_nat n) 0 false.
Proof.
  intros Hn. unfold nat_number. rewrite of_uint63_spec.
  rewrite Uint63.of_Z_spec, Z.mod_small; [done|].
  split; [lia|]. eapply Z.lt_trans; [exact Hn|]. done.
Qed.

(** Counting on binary64: below 2^53 the sum of two counts is exact. *)
Lemma nat_number_add (a b : nat) :
  (Z.of_nat (a + b) < 2 ^ 53)%Z →
  (nat_number a + nat_number b)%float = nat_number (a + b).
Proof.
  intros Hab. apply Prim2SF_inj.
  rewrite add_spec, !Prim2SF_nat_number by lia.
  rewrite SFadd_integers by lia. f_equal. lia.
Qed.


(** The number of a count below 2^53: it is 0 or above, its value is the
    count, and it is finite and not zero for a count that is not 0. *)
Lemma Prim2SF_count (n : nat) :
  (Z.of_nat n < 2 ^ 53)%Z →
  SFnonneg (Prim2SF (nat_number n)) = true
  ∧ SFval (Prim2SF (nat_number n)) = (Z.of_nat n * 2 ^ 1074)%Z
  ∧ (0 < n → ∃ m e, Prim2SF (nat_number n) = S754_finite false m e).
Proof.
  intros Hn. rewrite Prim2SF_nat_number by done.
  destruct n as [|n]; [split; [done|]; split; [done|lia]|].
  rewrite binary_normalize_canonical by lia.
  split; [done|]. split; [|by eexists _, _].
  set (z := Z.of_nat (S n)) in *.
  assert (0 < z)%Z as Hz by lia.
  pose proof (Zdigits2_bounds z Hz) as [Hlo Hhi].
  assert (0 < Zdigits2 z)%Z by (destruct z; simpl in *; lia).
  assert (Zdigits2 z ≤ 53)%Z.
  { assert (Zdigits2 z - 1 < 53)%Z; [|lia]. apply pow2_lt_inv; lia. }
  set (d := Zdigits2 z) in *.
  assert (0 < 2 ^ (53 - d))%Z by (apply pow2_pos; lia).
  cbn [SFval cond_Zopp]. rewrite Z2Pos.id by nia.
  rewrite <- Z.mul_assoc, <- pow2_split by lia. do 2 f_equal. lia.
Qed.

(** The quotient of two counts, the first at most the second, is between
    0 and 1. *)
Lemma nat_number_div_unit (c t : nat) :
  c ≤ t → 0 < t → (Z.of_nat t < 2 ^ 53)%Z →
  unit_number (nat_number c / nat_number t).
Proof.
  intros Hct Ht Hb.
  destruct (Prim2SF_count c) as (Hnc & Hvc & _); [lia|].
  destruct (Prim2SF_count t) as (Hnt & Hvt & Hft); [lia|].
  destruct (Hft Ht) as (mD & eD & Ef).
  assert (0 < 2 ^ 1074)%Z by (by apply pow2_pos).
  destruct (SFdiv_mono (Prim2SF (nat_number c)) (Prim2SF (nat_number t)) mD eD)
    as (Hq & _ & Hle); try done; try apply Prim2SF_valid.
  { rewrite Hvc, Hvt. apply Z.mul_le_mono_nonneg_r; lia. }
  rewrite Ef, SFdiv_self in Hle. rewrite <- Ef, <- div_spec in Hq, Hle.
  pose proof (SFnonneg_val _ Hq) as H0.
  assert (Prim2SF (nat_number c / nat_number t) ≠ S754_nan) as Hnan.
  { intros Heq. by rewrite Heq in Hq. }
  split; [by apply is_nan_false|]. rewrite !ltb_spec. split.
  - destruct (SFltb (Prim2SF (nat_number c / nat_number t)) (Prim2SF 0)) eqn:E;
      [|done].
    apply SFltb_val in E; try done; try apply Prim2SF_valid.
    change (SFval (Prim2SF 0)) with 0%Z in E. lia.
  - destruct (SFltb (Prim2SF 1) (Prim2SF (nat_number c / nat_number t))) eqn:E;
      [|done].
    apply SFltb_val in E; try done; try apply Prim2SF_valid. lia.
Qed.

(** ** GRUModel.calculatePerStockAccuracy: the counters *)







(** ** MNISTApp.calculatePerClassAccuracy *)

Lemma row_total_counts (r : list cell) (a : nat) :
  forallb is_count r = true → (Z.of_nat (a + row_sum r) < 2 ^ 53)%Z →
  foldl (λ sum val, match val with
                    | Hole => sum
                    | _ => PrimFloat.add sum (cell_number (Some val))
                    end) (nat_number a) r
  = nat_number (a + row_sum r).
Proof.
  revert a. induction r as [|c r IH]; intros a Hc Hb.
  - simpl. by rewrite Nat.add_0_r.
  - simpl in Hc. apply andb_true_iff in Hc as [Hc Hr].
    destruct c as [n| |]; try done.
    change (row_sum (Count n :: r)) with (n + row_sum r) in *.
    cbn [foldl cell_number]. rewrite nat_number_add by lia.
    rewrite IH by (done || lia). f_equal. lia.
Qed.

Lemma row_total_row_sum (r : list cell) :
  forallb is_count r = true → (Z.of_nat (row_sum r) < 2 ^ 53)%Z →
  row_total r = nat_number (row_sum r).
Proof.
  intros Hc Hb. unfold row_total. change 0%float with (nat_number 0).
  by rewrite row_total_counts.
Qed.

Lemma nat_number_positive (n : nat) :
  (Z.of_nat n < 2 ^ 53)%Z →
  PrimFloat.ltb 0 (nat_number n) = bool_decide (0 < n).
Proof.
  intros Hb. destruct (Prim2SF_count n Hb) as (Hn & Hv & _).
  assert (0 < 2 ^ 1074)%Z by (by apply pow2_pos).
  assert (Prim2SF (nat_number n) ≠ S754_nan) as Hnan.
  { intros Heq. by rewrite Heq in Hn. }
  rewrite ltb_spec. apply eq_true_iff_eq.
  rewrite bool_decide_eq_true, SFltb_val; try done; try apply Prim2SF_valid.
  change (SFval (Prim2SF 0)) with 0%Z. rewrite Hv. nia.
Qed.

Lemma pair_count_le (i j : nat) (predArray trueArray : list nat) :
  pair_count i j predArray trueArray ≤ class_count i trueArray.
Proof.
  revert predArray. induction trueArray as [|t trueArray IH]; intros predArray.
  - done.
  - destruct predArray as [|p predArray].
    + unfold pair_count. simpl. lia.
    + rewrite pair_count_cons. unfold class_count in *.
      rewrite filter_cons. specialize (IH predArray).
      destruct (decide (t = i ∧ p = j)) as [[-> ->]|Hne].
      * rewrite decide_True by done. simpl. lia.
      * destruct (decide (t = i)); simpl; lia.
Qed.

Lemma class_count_le (i : nat) (trueArray : list nat) :
  class_count i trueArray ≤ length trueArray.
Proof. apply length_filter. Qed.

Lemma unit_number_0 : unit_number 0.
Proof. by repeat split. Qed.

(** X15.  For label arrays of one length below 2^53 with all labels below
    10, the accuracy that [calculatePerClassAccuracy] gives class [i] on
    the matrix of [createConfusionMatrix] is the number of examples of
    class [i] predicted as [i] divided by the number of examples of class
    [i], and 0 for a class without examples; it is a number between 0 and
    1. *)
Theorem calculatePerClassAccuracy_classes (predArray trueArray : list nat) :
  length predArray = length trueArray →
  Forall (λ p, p < 10) predArray → Forall (λ t, t < 10) trueArray →
  (Z.of_nat (length predArray) < 2 ^ 53)%Z →
  ∃ matrix,
    createConfusionMatrix predArray trueArray = Some matrix
    ∧ length (calculatePerClassAccuracy matrix) = 10
    ∧ ∀ i, i < 10 →
        ∃ q, calculatePerClassAccuracy matrix !! i = Some q
             ∧ q = (if decide (class_count i trueArray = 0) then 0%float
                    else (nat_number (pair_count i i predArray trueArray)
                          / nat_number (class_count i trueArray))%float)
             ∧ unit_number q.
Proof.
  intros Hlen Hp Ht Hb.
  destruct (fill_matrix_counts predArray trueArray _ Hlen Hp Ht count_matrix_zero)
    as (matrix & Hfill & [Hrows Hall] & Hrow & _).
  destruct (fill_matrix_cells predArray trueArray _ Hlen Hp Ht count_matrix_zero)
    as (matrix' & Hfill' & Hcell).
  rewrite Hfill in Hfill'. injection Hfill' as <-.
  exists matrix. split; [done|].
  unfold calculatePerClassAccuracy. rewrite length_imap. split; [done|].
  intros i Hi.
  destruct (Hrow i (replicate 10 (Count 0))) as (r & Hr & Hs).
  { by apply lookup_replicate_2. }
  change (row_sum (replicate 10 (Count 0))) with 0 in Hs. simpl in Hs.
  pose proof (proj1 (Forall_lookup _ _) Hall i r Hr) as [Hrl Hrc].
  pose proof (Hcell i i 0) as Hii. unfold matrix_cell in Hii.
  rewrite lookup_replicate_2 in Hii by done. cbn [mbind option_bind] in Hii.
  rewrite lookup_replicate_2, Hr in Hii by done. specialize (Hii eq_refl).
  cbn [mbind option_bind] in Hii. simpl in Hii.
  pose proof (class_count_le i trueArray) as Hcl.
  pose proof (pair_count_le i i predArray trueArray) as Hpl.
  rewrite list_lookup_imap, Hr. cbn [fmap option_fmap option_map].
  eexists. split; [done|].
  rewrite Hii. cbn [cell_number].
  rewrite row_total_row_sum by (done || lia). rewrite Hs.
  rewrite nat_number_positive by lia.
  destruct (decide (class_count i trueArray = 0)) as [H0|H0].
  - rewrite bool_decide_eq_false_2 by lia. split; [done|apply unit_number_0].
  - rewrite bool_decide_eq_true_2 by lia. split; [done|].
    apply nat_number_div_unit; lia.
Qed.

Lemma calculatePerClassAccuracy_classes_witness :
  ∃ matrix,
    createConfusionMatrix [1; 2; 3] [1; 2; 2] = Some matrix
    ∧ length (calculatePerClassAccuracy matrix) = 10
    ∧ ∀ i, i < 10 →
        ∃ q, calculatePerClassAccuracy matrix !! i = Some q
             ∧ q = (if decide (class_count i [1; 2; 2] = 0) then 0%float
                    else PrimFloat.div
                           (nat_number (pair_count i i [1; 2; 3] [1; 2; 2]))
                           (nat_number (class_count i [1; 2; 2])))
             ∧ unit_number q.
Proof.
  apply (calculatePerClassAccuracy_classes [1; 2; 3] [1; 2; 2]).
  - reflexivity.
  - repeat constructor; lia.
  - repeat constructor; lia.
  - reflexivity.
Defined.

Example calculatePerClassAccuracy_half :
  (matrix ← createConfusionMatrix [1; 2; 3] [1; 2; 2];
   Some (take 4 (calculatePerClassAccuracy matrix)))
  = Some [0; 1; 0.5; 0]%float.
Proof. by vm_compute. Qed.
